(** * nex-intel: the analysis pipeline, its canonicalization engine and
      its task scheduler, embedded and verified.

    Sources embedded here:
    - [src/lib/normalize.ts]            (normalizeFeature, canonicalFeatureName)
    - [src/lib/extract/capabilities.ts] (synonym table, extractCapabilities)
    - [src/unnamed/part_006], imported as [@/lib/features]
                                        (ensureFeatureDefinitions)
    - [src/app/api/runs/orchestrator.ts] (orchestrateRun and its helpers)
    - [src/unnamed/part_004], the task scheduler
                                        (TaskScheduler.handleAutoRerun)

    JavaScript strings are sequences of UTF-16 code units; they are
    modelled as [list N].  The three string built-ins whose behaviour is
    given by the Unicode tables ([String.prototype.normalize],
    [toLowerCase], [toUpperCase]) are an interface ([Platform]); the facts
    about them that the proofs rely on are the class [PlatformLaws]. *)

From Stdlib Require Import String Ascii NArith ZArith Bool Arith Lia QArith.
From Stdlib Require Import DecimalString List Sorted.
Import ListNotations.
Close Scope Q_scope.

Set Implicit Arguments.

(* ================================================================== *)
(** * JavaScript strings *)
(* ================================================================== *)

Module Js.

Definition ustring := list N.

(** An ASCII literal of the source as a code-unit string. *)
Definition lit (s : string) : ustring :=
  map N_of_ascii (list_ascii_of_string s).

Fixpoint ueqb (a b : ustring) : bool :=
  match a, b with
  | [], [] => true
  | x :: a', y :: b' => N.eqb x y && ueqb a' b'
  | _, _ => false
  end.

Definition mem (x : ustring) (l : list ustring) : bool := existsb (ueqb x) l.

Definition between (lo hi c : N) : bool := (N.leb lo c && N.leb c hi)%bool.

Definition is_ascii (c : N) : bool := N.ltb c 128.
Definition is_upper_az (c : N) : bool := between 65 90 c.
Definition is_lower_az (c : N) : bool := between 97 122 c.
Definition is_digit (c : N) : bool := between 48 57 c.

Definition ascii_lower (c : N) : N := if is_upper_az c then (c + 32)%N else c.
Definition ascii_upper (c : N) : N := if is_lower_az c then (c - 32)%N else c.

(** [\s] of ECMAScript regular expressions, which is also the set that
    [String.prototype.trim] strips: WhiteSpace and LineTerminator. *)
Definition is_space (c : N) : bool :=
  (between 9 13 c || N.eqb c 32 || N.eqb c 160 || N.eqb c 5760
   || between 8192 8202 c || N.eqb c 8232 || N.eqb c 8233 || N.eqb c 8239
   || N.eqb c 8287 || N.eqb c 12288 || N.eqb c 65279)%bool.

Fixpoint trimStart (s : ustring) : ustring :=
  match s with
  | c :: t => if is_space c then trimStart t else s
  | [] => []
  end.

Definition trimEnd (s : ustring) : ustring := rev (trimStart (rev s)).

Definition trim (s : ustring) : ustring := trimEnd (trimStart s).

(** [s.split(sep)] for a one-unit separator: never the empty list. *)
Fixpoint split (sep : N) (s : ustring) : list ustring :=
  match s with
  | [] => [[]]
  | c :: t =>
      if N.eqb c sep then [] :: split sep t
      else match split sep t with
           | h :: r => (c :: h) :: r
           | [] => [[c]]
           end
  end.

Fixpoint join (sep : ustring) (l : list ustring) : ustring :=
  match l with
  | [] => []
  | [x] => x
  | x :: r => x ++ sep ++ join sep r
  end.

Fixpoint startsWith (p s : ustring) : bool :=
  match p, s with
  | [], _ => true
  | x :: p', y :: s' => N.eqb x y && startsWith p' s'
  | _ :: _, [] => false
  end.

Definition endsWith (suf s : ustring) : bool := startsWith (rev suf) (rev s).

Fixpoint includes (needle s : ustring) : bool :=
  startsWith needle s ||
  match s with
  | [] => false
  | _ :: t => includes needle t
  end.

(** [s.slice(0, -k)] *)
Definition dropEnd (k : nat) (s : ustring) : ustring :=
  firstn (length s - k) s.

(** [String(n)] for a non-negative integer. *)
Definition ofNat (n : nat) : ustring :=
  lit (NilEmpty.string_of_uint (Nat.to_uint n)).

(** Lexicographic order on code units: the order of [Array.prototype.sort]
    without a comparator. *)
Fixpoint uleb (a b : ustring) : bool :=
  match a, b with
  | [], _ => true
  | _ :: _, [] => false
  | x :: a', y :: b' =>
      if N.ltb x y then true else if N.ltb y x then false else uleb a' b'
  end.

Fixpoint insertSorted (x : ustring) (l : list ustring) : list ustring :=
  match l with
  | [] => [x]
  | y :: r => if uleb x y then x :: l else y :: insertSorted x r
  end.

Definition sort (l : list ustring) : list ustring :=
  fold_right insertSorted [] l.

Fixpoint list_ueqb (a b : list ustring) : bool :=
  match a, b with
  | [], [] => true
  | x :: a', y :: b' => ueqb x y && list_ueqb a' b'
  | _, _ => false
  end.

(** [Array.from(new Set(xs))]: first occurrences, in order. *)
Fixpoint uniqFrom (seen : list ustring) (xs : list ustring) : list ustring :=
  match xs with
  | [] => []
  | x :: r => if mem x seen then uniqFrom seen r else x :: uniqFrom (x :: seen) r
  end.

Definition uniq (xs : list ustring) : list ustring := uniqFrom [] xs.

(** A [Map<string, V>]: association list in insertion order; [set] on a
    present key replaces the value in place. *)
Fixpoint map_get {V} (k : ustring) (m : list (ustring * V)) : option V :=
  match m with
  | [] => None
  | (k', v) :: r => if ueqb k k' then Some v else map_get k r
  end.

Fixpoint map_set {V} (k : ustring) (v : V) (m : list (ustring * V))
  : list (ustring * V) :=
  match m with
  | [] => [(k, v)]
  | (k', v') :: r =>
      if ueqb k k' then (k', v) :: r else (k', v') :: map_set k v r
  end.

Definition map_has {V} (k : ustring) (m : list (ustring * V)) : bool :=
  match map_get k m with Some _ => true | None => false end.

End Js.

Import Js.

(** The string built-ins that depend on the Unicode character database. *)
Class Platform := {
  nfkd : ustring -> ustring;          (* s.normalize('NFKD') *)
  toLowerCase : ustring -> ustring;
  toUpperCase : ustring -> ustring
}.

(** What the Unicode standard fixes for ASCII input. *)
Class PlatformLaws (P : Platform) : Prop := {
  nfkd_ascii : forall s, forallb is_ascii s = true -> nfkd s = s;
  toLowerCase_ascii :
    forall s, forallb is_ascii s = true -> toLowerCase s = map ascii_lower s;
  toUpperCase_ascii :
    forall s, forallb is_ascii s = true -> toUpperCase s = map ascii_upper s
}.

(* ================================================================== *)
(** * src/lib/normalize.ts *)
(* ================================================================== *)

Module Normalize.
Section WithPlatform.
Context {P : Platform}.

(** [/[\u0300-\u036f]/g] *)
Definition is_combining_mark (c : N) : bool := between 768 879 c.

(** [NON_ALPHANUM = /[^a-z0-9\+]/g] *)
Definition is_alphanum_plus (c : N) : bool :=
  (is_lower_az c || is_digit c || N.eqb c 43)%bool.

Definition replaceNonAlphanum (s : ustring) : ustring :=
  map (fun c => if is_alphanum_plus c then c else 32%N) s.

(** [.replace(MULTISPACE, ' ')] with [MULTISPACE = /\s+/g]: every maximal
    run of white space becomes one space.  [inRun] tells that the previous
    unit belonged to the run being replaced. *)
Fixpoint replaceMultispace (inRun : bool) (s : ustring) : ustring :=
  match s with
  | [] => []
  | c :: t =>
      if is_space c
      then (if inRun then replaceMultispace true t
            else 32%N :: replaceMultispace true t)
      else c :: replaceMultispace false t
  end.

Definition normalizeFeature (raw : ustring) : ustring :=
  trim
    (replaceMultispace false
       (replaceNonAlphanum
          (toLowerCase
             (filter (fun c => negb (is_combining_mark c)) (nfkd raw))))).

(** [part ? part[0].toUpperCase() + part.slice(1) : part] *)
Definition capitalize (part : ustring) : ustring :=
  match part with
  | [] => []
  | c :: t => toUpperCase [c] ++ t
  end.

Definition canonicalFeatureName (raw : ustring) : ustring :=
  let norm := normalizeFeature raw in
  match norm with
  | [] => []
  | _ => join [32%N] (map capitalize (split 32 norm))
  end.

End WithPlatform.
End Normalize.

Import Normalize.

(* ================================================================== *)
(** * Regular expressions of the source

    The patterns of [capabilities.ts] are written in the fragment below.
    They carry the flags [g] and [i] and no [u] flag: a literal or class
    matches a code unit when their canonical (upper-case) forms agree,
    and a unit above U+007F never canonicalizes to an ASCII one, so an
    ASCII pattern only matches ASCII text.  Matching is the backtracking
    search of the ECMAScript specification: alternatives are tried from
    left to right, quantifiers are greedy. *)
(* ================================================================== *)

Module Regex.

Inductive regex :=
| REps
| RChar (c : N)                         (* a literal, case ignored *)
| RClass (p : N -> bool)                (* a class, given under the i flag *)
| RSeq (a b : regex)
| RAlt (a b : regex)
| ROpt (a : regex)                      (* a? *)
| RStar (p : N -> bool)                 (* [class]* *)
| RRep (p : N -> bool) (lo hi : nat)    (* [class]{lo,hi} *)
| RGroup (i : nat) (a : regex)          (* i-th capturing group *)
| RWordB.                               (* \b *)

(** Position of the matcher: the unit before it, the text after it, and
    the groups captured so far. *)
Record mstate := MState {
  m_prev : option N;
  m_rest : ustring;
  m_caps : list (nat * ustring)
}.

(** [\w] is [[A-Za-z0-9_]]. *)
Definition is_word (c : N) : bool :=
  (is_upper_az c || is_lower_az c || is_digit c || N.eqb c 95)%bool.

Definition is_word_opt (o : option N) : bool :=
  match o with Some c => is_word c | None => false end.

Definition ci_eq (c x : N) : bool :=
  (is_ascii x && N.eqb (ascii_upper c) (ascii_upper x))%bool.

Fixpoint star (p : N -> bool) (prev : option N) (rest : ustring)
  (caps : list (nat * ustring)) (k : mstate -> option mstate)
  : option mstate :=
  match rest with
  | x :: t =>
      if p x
      then match star p (Some x) t caps k with
           | Some r => Some r
           | None => k (MState prev rest caps)
           end
      else k (MState prev rest caps)
  | [] => k (MState prev rest caps)
  end.

Fixpoint rep (p : N -> bool) (hi lo : nat) (prev : option N) (rest : ustring)
  (caps : list (nat * ustring)) (k : mstate -> option mstate)
  : option mstate :=
  let stop := if Nat.eqb lo 0 then k (MState prev rest caps) else None in
  match hi with
  | O => stop
  | S hi' =>
      match rest with
      | x :: t =>
          if p x
          then match rep p hi' (Nat.pred lo) (Some x) t caps k with
               | Some r => Some r
               | None => stop
               end
          else stop
      | [] => stop
      end
  end.

Fixpoint rmatch (r : regex) (st : mstate) (k : mstate -> option mstate)
  : option mstate :=
  match r with
  | REps => k st
  | RChar c =>
      match m_rest st with
      | x :: t => if ci_eq c x then k (MState (Some x) t (m_caps st)) else None
      | [] => None
      end
  | RClass p =>
      match m_rest st with
      | x :: t => if p x then k (MState (Some x) t (m_caps st)) else None
      | [] => None
      end
  | RSeq a b => rmatch a st (fun st' => rmatch b st' k)
  | RAlt a b =>
      match rmatch a st k with
      | Some res => Some res
      | None => rmatch b st k
      end
  | ROpt a =>
      match rmatch a st k with
      | Some res => Some res
      | None => k st
      end
  | RStar p => star p (m_prev st) (m_rest st) (m_caps st) k
  | RRep p lo hi => rep p hi lo (m_prev st) (m_rest st) (m_caps st) k
  | RGroup i a =>
      rmatch a st (fun st' =>
        let n := length (m_rest st) - length (m_rest st') in
        k (MState (m_prev st') (m_rest st')
                  ((i, firstn n (m_rest st)) :: m_caps st')))
  | RWordB =>
      if xorb (is_word_opt (m_prev st)) (is_word_opt (hd_error (m_rest st)))
      then k st else None
  end.

(** The [RegExpExecArray] of one match: [m[0]], and [m[i]] for a group
    that took part in the match. *)
Record rmatched := RMatched {
  m_full : ustring;
  m_groups : list (nat * ustring)
}.

Fixpoint group (i : nat) (caps : list (nat * ustring)) : option ustring :=
  match caps with
  | [] => None
  | (j, s) :: r => if Nat.eqb i j then Some s else group i r
  end.

(** [while ((m = local.exec(text)) !== null)] with the [g] flag: the
    matches from left to right, each search resuming at the end of the
    previous match.  [skip] counts the units of the previous match that
    are still to be passed.  (No pattern of the file matches the empty
    string, so the loop of the source always advances.) *)
Fixpoint execAll (re : regex) (prev : option N) (s : ustring) (skip : nat)
  : list rmatched :=
  match s with
  | [] => []
  | x :: t =>
      match skip with
      | S n => execAll re (Some x) t n
      | O =>
          match rmatch re (MState prev s []) (fun st => Some st) with
          | Some st' =>
              let n := length s - length (m_rest st') in
              RMatched (firstn n s) (m_caps st')
                :: execAll re (Some x) t (n - 1)
          | None => execAll re (Some x) t 0
          end
      end
  end.

(** Pattern syntax helpers. *)
Definition rlit (s : string) : regex :=
  fold_right (fun c r => RSeq (RChar c) r) REps (lit s).

Fixpoint ralts (l : list regex) : regex :=
  match l with
  | [] => REps
  | [a] => a
  | a :: r => RAlt a (ralts r)
  end.

(** [\b( a1 | ... | an )\b] *)
Definition rwords (l : list regex) : regex :=
  RSeq RWordB (RSeq (RGroup 1 (ralts l)) RWordB).

(** [word s?] *)
Definition rplural (s : string) : regex :=
  RSeq (rlit s) (ROpt (RChar 115)).

End Regex.

Import Regex.

(* ================================================================== *)
(** * src/lib/extract/capabilities.ts *)
(* ================================================================== *)

Module Capabilities.

Record CapabilityHit := {
  category : ustring;
  name : ustring;
  normalized : ustring;
  mention : ustring
}.

Record CanonicalCapability := {
  cc_normalized : ustring;
  cc_display : ustring
}.

Definition RAW_SYNONYM_GROUPS : list (string * list string) :=
  [ ("Single Sign On",
     ["Single Sign On"; "Single Sign-On"; "SSO"; "Enterprise SSO";
      "SSO Support"]);
    ("Multi Factor Authentication",
     ["Multi Factor Authentication"; "Multi-Factor Authentication"; "MFA";
      "Two Factor Authentication"; "Two-Factor Authentication"; "2FA";
      "Two Step Verification"; "Two-Step Verification"]);
    ("Role Based Access Control",
     ["Role Based Access Control"; "Role-Based Access Control"; "RBAC";
      "Role Management"; "Role & Permission Management"]);
    ("Audit Logs",
     ["Audit Logs"; "Audit Log"; "Audit Trails"; "Audit Trail";
      "Activity Logs"; "Security Logs"]);
    ("User Provisioning",
     ["User Provisioning"; "Automated Provisioning"; "Directory Sync";
      "SCIM"; "SCIM Provisioning"]);
    ("API Access",
     ["API"; "APIs"; "REST API"; "RESTful API"; "GraphQL API"; "GraphQL";
      "Public API"; "Open API"; "OpenAPI"; "Developer API"; "API Access"]);
    ("Workflow Automation",
     ["Workflow Automation"; "Workflow Automations"; "Workflows";
      "Automation"; "Automations"; "Automation Builder";
      "Automated Workflows"]);
    ("Reporting & Analytics",
     ["Reporting"; "Analytics"; "Analytics Dashboard"; "Reporting Dashboard";
      "Insights"; "Analytics & Reporting"; "Reporting & Analytics";
      "Data Visualization"]);
    ("Integration Marketplace",
     ["Integration Marketplace"; "App Marketplace"; "Marketplace";
      "Integration Directory"; "Partner Integrations"]);
    ("User Management",
     ["User Management"; "User Administration"; "User Admin";
      "User Manager"]);
    ("Team Management",
     ["Team Management"; "Team Permissions"; "Team Roles";
      "Team Administration"]);
    ("Access Controls",
     ["Access Controls"; "Access Control"; "Permission Management";
      "Permissions Management"; "Permissions"]) ]%string.

Definition SINGULAR_EXCEPTIONS : list ustring :=
  map lit ["analytics"; "news"; "access"]%string.

Definition STOP_WORDS : list ustring :=
  map lit ["and"; "or"; "the"; "a"; "an"; "&"; "with"; "for"]%string.

Definition singularize (token : ustring) : ustring :=
  if (Nat.leb (length token) 3 || mem token SINGULAR_EXCEPTIONS)%bool
  then token
  else if endsWith (lit "ies") token
  then dropEnd 3 token ++ lit "y"
  else if (endsWith (lit "xes") token || endsWith (lit "ses") token
           || endsWith (lit "ches") token || endsWith (lit "shes") token)%bool
  then dropEnd 2 token
  else if (endsWith (lit "s") token && negb (endsWith (lit "ss") token))%bool
  then dropEnd 1 token
  else token.

(** The regular expressions of [CAT_PATTERNS]. *)
Definition is_letter_ci (c : N) : bool := (is_upper_az c || is_lower_az c)%bool.

(** [[\w \-+\.]] *)
Definition is_brand_unit (c : N) : bool :=
  (is_word c || N.eqb c 32 || N.eqb c 45 || N.eqb c 43 || N.eqb c 46)%bool.

(** [[-\s]] *)
Definition is_dash_or_space (c : N) : bool := (N.eqb c 45 || is_space c)%bool.

Definition re_integrate_with : regex :=
  RSeq (rlit "integrat")
    (RSeq (RGroup 1 (ralts [rlit "e"; rlit "ion"; rlit "ions"]))
       (RSeq (rlit " with ")
          (RGroup 2 (RSeq (RClass is_letter_ci) (RRep is_brand_unit 2 40))))).

Definition re_vendors : regex :=
  rwords (map rlit ["Shopify"; "Salesforce"; "HubSpot"; "Zapier"; "Stripe";
                    "Segment"; "Snowflake"; "Slack"; "Google Analytics"]%string).

Definition re_security : regex :=
  rwords (map rlit ["SSO"; "SAML"; "SCIM"; "RBAC"; "encryption at rest";
                    "encryption in transit"; "audit logs"; "MFA"; "2FA"]%string).

Definition re_compliance : regex :=
  rwords [ RSeq (rlit "SOC") (RSeq (RStar is_space) (rlit "2"));
           rlit "HIPAA"; rlit "GDPR";
           RSeq (rlit "PCI") (RSeq (ROpt (RClass is_dash_or_space)) (rlit "DSS"));
           RSeq (rlit "ISO") (RSeq (RStar is_space) (rlit "27001"));
           rlit "BAA" ].

Definition re_api : regex :=
  rwords [ rlit "OpenAPI"; rlit "Swagger"; rlit "REST"; rlit "GraphQL";
           rplural "webhook"; rplural "SDK" ].

Definition re_performance : regex :=
  rwords [ rlit "latency"; rlit "throughput";
           RSeq (rlit "99.9") (RSeq (RStar (N.eqb 57)) (rlit "%"));
           rlit "SLA"; rlit "RPS"; rlit "QPS"; rlit "cold start" ].

Definition re_automation : regex :=
  rwords [ rplural "workflow"; rplural "automation"; rplural "trigger";
           rlit "rules engine"; rplural "playbook" ].

Definition re_analytics : regex :=
  rwords [ rplural "dashboard"; rlit "reporting"; rlit "attribution";
           rlit "cohort"; rlit "funnel" ].

Definition re_permissions : regex :=
  rwords [ rlit "RBAC"; rlit "ABAC"; rplural "role"; rplural "permission";
           rplural "org"; rplural "team" ].

Definition re_growth : regex :=
  rwords [ rlit "referral"; rlit "invite"; rlit "waitlist"; rlit "viral";
           rlit "A/B"; rplural "experiment" ].

Definition CAT_PATTERNS : list (string * list regex) :=
  [ ("Integrations", [re_integrate_with; re_vendors]);
    ("Security", [re_security]);
    ("Compliance", [re_compliance]);
    ("API", [re_api]);
    ("Performance", [re_performance]);
    ("Automation", [re_automation]);
    ("Analytics", [re_analytics]);
    ("Permissions", [re_permissions]);
    ("Growth", [re_growth]) ]%string.

(** [`${h.category}|${h.normalized}`] *)
Definition hitKey (h : CapabilityHit) : ustring :=
  category h ++ 124%N :: normalized h.

(** [hits.filter(h => { if (seen.has(key)) return false; seen.add(key);
    return true; })] *)
Fixpoint dedupHits (seen : list ustring) (hits : list CapabilityHit)
  : list CapabilityHit :=
  match hits with
  | [] => []
  | h :: r =>
      if mem (hitKey h) seen then dedupHits seen r
      else h :: dedupHits (hitKey h :: seen) r
  end.

Section WithPlatform.
Context {P : Platform}.

Definition normalizeCapabilityTerm (term : ustring) : ustring :=
  let base := normalizeFeature term in
  match base with
  | [] => []
  | _ =>
      join [32%N]
        (map singularize
           (filter (fun token =>
                      (negb (ueqb token []) && negb (mem token STOP_WORDS))%bool)
                   (split 32 base)))
  end.

(** One iteration of [for (const group of RAW_SYNONYM_GROUPS)]. *)
Definition addGroup (m : list (ustring * CanonicalCapability))
  (g : string * list string) : list (ustring * CanonicalCapability) :=
  let norm := normalizeCapabilityTerm (lit (fst g)) in
  match norm with
  | [] => m
  | _ =>
      let canonical := {| cc_normalized := norm; cc_display := lit (fst g) |} in
      fold_left
        (fun m' variant =>
           let variantNorm := normalizeCapabilityTerm (lit variant) in
           match variantNorm with
           | [] => m'
           | _ => map_set variantNorm canonical m'
           end)
        (snd g) (map_set norm canonical m)
  end.

Definition CAPABILITY_SYNONYM_MAP : list (ustring * CanonicalCapability) :=
  fold_left addGroup RAW_SYNONYM_GROUPS [].

Definition canonicalizeCapability (norm mention : ustring)
  : CanonicalCapability :=
  match map_get norm CAPABILITY_SYNONYM_MAP with
  | Some mapped => mapped
  | None =>
      let generic :=
        let display :=
          match canonicalFeatureName norm with
          | [] => mention
          | d => d
          end in
        {| cc_normalized := norm; cc_display := display |} in
      match norm with
      | [] => {| cc_normalized := norm; cc_display := mention |}
      | _ =>
          if negb (includes [32%N] norm)
          then
            if (negb (ueqb mention []) && Nat.leb (length mention) 6
                && ueqb mention (toUpperCase mention))%bool
            then {| cc_normalized := norm; cc_display := mention |}
            else if Nat.leb (length norm) 5
            then {| cc_normalized := norm; cc_display := toUpperCase norm |}
            else generic
          else generic
      end
  end.

(** The body of the [while] loop for one match [m]. *)
Definition hitOfMatch (cat : ustring) (m : rmatched) : list CapabilityHit :=
  let raw :=
    match group 2 (m_groups m) with
    | Some g2 => g2
    | None => match group 1 (m_groups m) with
              | Some g1 => g1
              | None => m_full m
              end
    end in
  let mention := trim raw in
  let norm := normalizeCapabilityTerm mention in
  if Nat.ltb (length norm) 2 then []
  else
    let canonical := canonicalizeCapability norm mention in
    [ {| category := cat; name := cc_display canonical;
         normalized := cc_normalized canonical; mention := mention |} ].

Definition rawHits (text : ustring) : list CapabilityHit :=
  flat_map
    (fun cat =>
       flat_map
         (fun re => flat_map (hitOfMatch (lit (fst cat))) (execAll re None text 0))
         (snd cat))
    CAT_PATTERNS.

Definition extractCapabilities (text : ustring) : list CapabilityHit :=
  dedupHits [] (rawHits text).

End WithPlatform.
End Capabilities.

(* ================================================================== *)
(** * A platform instance to run the code on

    An excerpt of the Unicode tables: ASCII and the letters of the
    Latin-1 Supplement block.  Units outside the excerpt are left as they
    are.  It is used to evaluate the code on concrete inputs. *)
(* ================================================================== *)

Module Latin1.

Definition is_latin1_upper (c : N) : bool :=
  (between 192 222 c && negb (N.eqb c 215))%bool.
Definition is_latin1_lower (c : N) : bool :=
  (between 224 254 c && negb (N.eqb c 247))%bool.

Definition lower1 (c : N) : N :=
  if (is_upper_az c || is_latin1_upper c)%bool then (c + 32)%N else c.

Definition upper1 (c : N) : ustring :=
  if (is_lower_az c || is_latin1_lower c)%bool then [(c - 32)%N]
  else if N.eqb c 223 then [83%N; 83%N]
  else if N.eqb c 255 then [376%N]
  else if N.eqb c 181 then [924%N]
  else [c].

(** Base letter and combining mark of the precomposed capital letters
    U+00C0..U+00DD; the small letters U+00E0..U+00FD follow them at
    distance 32. *)
Definition decompUpper (c : N) : option (N * N) :=
  match c with
  | 192 => Some (65, 768) | 193 => Some (65, 769) | 194 => Some (65, 770)
  | 195 => Some (65, 771) | 196 => Some (65, 776) | 197 => Some (65, 778)
  | 199 => Some (67, 807)
  | 200 => Some (69, 768) | 201 => Some (69, 769) | 202 => Some (69, 770)
  | 203 => Some (69, 776)
  | 204 => Some (73, 768) | 205 => Some (73, 769) | 206 => Some (73, 770)
  | 207 => Some (73, 776)
  | 209 => Some (78, 771)
  | 210 => Some (79, 768) | 211 => Some (79, 769) | 212 => Some (79, 770)
  | 213 => Some (79, 771) | 214 => Some (79, 776)
  | 217 => Some (85, 768) | 218 => Some (85, 769) | 219 => Some (85, 770)
  | 220 => Some (85, 776)
  | 221 => Some (89, 769)
  | _ => None
  end%N.

Definition decomp (c : N) : ustring :=
  match decompUpper c with
  | Some (b, m) => [b; m]
  | None =>
      match decompUpper (c - 32) with
      | Some (b, m) => if is_latin1_lower c then [(b + 32)%N; m] else [c]
      | None => if N.eqb c 255 then [121%N; 776%N] else [c]
      end
  end.

#[export] Instance platform : Platform := {
  nfkd := flat_map decomp;
  toLowerCase := map lower1;
  toUpperCase := flat_map upper1
}.

End Latin1.

(* ================================================================== *)
(** * Effects: state and exceptions

    An [async] function of the source that reads and writes the database
    and may throw is a state transformer that returns [Ok] or [Throw];
    the writes made before a [throw] stay in the state, as they do in the
    source.  A thrown value is known by its message. *)
(* ================================================================== *)

Module Eff.

Inductive Res (A : Type) :=
| Ok (a : A)
| Throw (msg : ustring).
Arguments Ok {A} a.
Arguments Throw {A} msg.

Definition M (S A : Type) := S -> Res A * S.

Definition ret {S A} (a : A) : M S A := fun s => (Ok a, s).

Definition bind {S A B} (c : M S A) (f : A -> M S B) : M S B :=
  fun s =>
    match c s with
    | (Ok a, s') => f a s'
    | (Throw e, s') => (Throw e, s')
    end.

Definition throw {S A} (e : ustring) : M S A := fun s => (Throw e, s).

(** [try { c } catch (e) { h(e) }] *)
Definition tryCatch {S A} (c : M S A) (h : ustring -> M S A) : M S A :=
  fun s =>
    match c s with
    | (Ok a, s') => (Ok a, s')
    | (Throw e, s') => h e s'
    end.

Definition get {S} : M S S := fun s => (Ok s, s).
Definition modify {S} (f : S -> S) : M S unit := fun s => (Ok tt, f s).

(** [for (const x of xs) { await body(x) }] *)
Fixpoint forEach {S A} (xs : list A) (body : A -> M S unit) : M S unit :=
  match xs with
  | [] => ret tt
  | x :: r => bind (body x) (fun _ => forEach r body)
  end.

End Eff.

Import Eff.

Declare Scope eff_scope.
Delimit Scope eff_scope with eff.
Notation "x <- c ;; k" := (bind c (fun x => k))
  (at level 61, c at next level, right associativity) : eff_scope.
Notation "c ;;; k" := (bind c (fun _ => k))
  (at level 61, right associativity) : eff_scope.

(* ================================================================== *)
(** * src/unnamed/part_006 ([@/lib/features]) *)
(* ================================================================== *)

Module Features.

Inductive FeatureOrigin := USER | COMPETITOR | SYSTEM.

Record FeatureDefinition := {
  fd_id : ustring;
  fd_name : ustring;
  fd_normalized : ustring;
  fd_description : option ustring;
  fd_category : option ustring;
  fd_origin : FeatureOrigin;
  fd_aliases : list ustring
}.

(** The [FeatureDefinition] table and the counter that the generated ids
    are drawn from. *)
Record Catalog := {
  defs : list FeatureDefinition;
  nextDefId : nat
}.

Definition DEFAULT_ORIGIN : FeatureOrigin := COMPETITOR.

(** [featureDefinition.findMany({ where: { normalized: { in: keys } } })] *)
Definition findManyByNormalized (keys : list ustring)
  : M Catalog (list FeatureDefinition) :=
  fun c => (Ok (filter (fun d => mem (fd_normalized d) keys) (defs c)), c).

(** [featureDefinition.create({ data })]: the unique index on
    [normalized] rejects a second row with the same key. *)
Definition createDefinition (nm norm : ustring) (cat : option ustring)
  (origin : FeatureOrigin) (aliases : list ustring)
  : M Catalog FeatureDefinition :=
  fun c =>
    if existsb (fun d => ueqb (fd_normalized d) norm) (defs c)
    then (Throw (lit "Unique constraint failed on the fields: (`normalized`)"), c)
    else
      let d := {| fd_id := lit "fd_" ++ ofNat (nextDefId c);
                  fd_name := nm; fd_normalized := norm;
                  fd_description := None; fd_category := cat;
                  fd_origin := origin; fd_aliases := aliases |} in
      (Ok d, {| defs := defs c ++ [d]; nextDefId := S (nextDefId c) |}).

Definition setAliases (aliases : list ustring) (d : FeatureDefinition)
  : FeatureDefinition :=
  {| fd_id := fd_id d; fd_name := fd_name d; fd_normalized := fd_normalized d;
     fd_description := fd_description d; fd_category := fd_category d;
     fd_origin := fd_origin d; fd_aliases := aliases |}.

(** [featureDefinition.update({ where: { id }, data: { aliases: { set } } })] *)
Definition updateAliases (id : ustring) (aliases : list ustring)
  : M Catalog unit :=
  fun c =>
    if existsb (fun d => ueqb (fd_id d) id) (defs c)
    then (Ok tt,
          {| defs := map (fun d => if ueqb (fd_id d) id
                                   then setAliases aliases d else d) (defs c);
             nextDefId := nextDefId c |})
    else (Throw (lit "Record to update not found."), c).

Record Entry := {
  original : ustring;
  e_normalized : ustring;
  canonical : ustring
}.

(** [a || b] on strings *)
Definition orElse (a b : ustring) : ustring :=
  match a with [] => b | _ => a end.

Definition byNormalizedOf (ds : list FeatureDefinition)
  : list (ustring * FeatureDefinition) :=
  fold_left (fun m d => map_set (fd_normalized d) d m) ds [].

(** First loop: create the definitions that are missing. *)
Fixpoint createMissing (cat : option ustring) (origin : FeatureOrigin)
  (entries : list Entry) (byNormalized : list (ustring * FeatureDefinition))
  : M Catalog (list (ustring * FeatureDefinition)) :=
  match entries with
  | [] => ret byNormalized
  | entry :: rest =>
      if map_has (e_normalized entry) byNormalized
      then createMissing cat origin rest byNormalized
      else
        (created <- createDefinition
                      (orElse (canonical entry) (original entry))
                      (e_normalized entry) cat origin
                      (if (negb (ueqb (canonical entry) [])
                           && negb (ueqb (canonical entry) (original entry)))%bool
                       then [original entry] else []) ;;
         createMissing cat origin rest
           (map_set (fd_normalized created) created byNormalized))%eff
  end.

(** [aliases.add(x)] guarded by [!aliases.has(x)] *)
Definition addAlias (x : ustring) (aliases : list ustring) : list ustring :=
  if mem x aliases then aliases else aliases ++ [x].

(** Second loop: the alias sets to write, keyed by definition id. *)
Definition aliasUpdateFor (def : FeatureDefinition) (entry : Entry)
  (aliasUpdates : list (ustring * list ustring))
  : list (ustring * list ustring) :=
  let aliases0 := uniq (fd_aliases def) in
  let canon := orElse (canonical entry) (original entry) in
  let aliases1 :=
    if (negb (ueqb (fd_name def) canon) && negb (mem canon aliases0))%bool
    then aliases0 ++ [canon] else aliases0 in
  let aliases2 :=
    if (negb (ueqb (original entry) [])
        && negb (ueqb (original entry) canon)
        && negb (mem (original entry) aliases1))%bool
    then aliases1 ++ [original entry] else aliases1 in
  if negb (list_ueqb (sort aliases2) (sort (fd_aliases def)))
  then map_set (fd_id def) aliases2 aliasUpdates
  else aliasUpdates.

Definition collectAliasUpdates
  (byNormalized : list (ustring * FeatureDefinition)) (entries : list Entry)
  : list (ustring * list ustring) :=
  fold_left
    (fun acc entry =>
       match map_get (e_normalized entry) byNormalized with
       | Some def => aliasUpdateFor def entry acc
       | None => acc
       end)
    entries [].

Section WithPlatform.
Context {P : Platform}.

Definition entryOf (nm : ustring) : Entry :=
  {| original := nm;
     e_normalized := normalizeFeature nm;
     canonical := canonicalFeatureName nm |}.

Definition ensureFeatureDefinitions (names : list ustring)
  (origin : option FeatureOrigin) (cat : option ustring)
  : M Catalog (list FeatureDefinition) :=
  let origin := match origin with Some o => o | None => DEFAULT_ORIGIN end in
  let cleaned := filter (fun n => negb (ueqb n [])) (map trim names) in
  match cleaned with
  | [] => ret []
  | _ =>
      let normalizedEntries := map entryOf cleaned in
      let normalizedSet := uniq (map e_normalized normalizedEntries) in
      (existing <- findManyByNormalized normalizedSet ;;
       byNormalized <- createMissing cat origin normalizedEntries
                         (byNormalizedOf existing) ;;
       forEach (collectAliasUpdates byNormalized normalizedEntries)
               (fun u => updateAliases (fst u) (snd u)) ;;;
       ret (map snd byNormalized))%eff
  end.

End WithPlatform.
End Features.

(* ================================================================== *)
(** * src/app/api/runs/orchestrator.ts: the run and its state machine *)
(* ================================================================== *)

Module Orchestrator.

(** [RunStatus]; [PENDING] is the value the scheduler writes when it
    creates a run. *)
Inductive RunStatus :=
| NEW | DISCOVERING | EXTRACTING | SYNTHESIZING | QA | COMPLETE | ERROR
| SKIPPED | PENDING.

Definition RunStatus_eqb (a b : RunStatus) : bool :=
  match a, b with
  | NEW, NEW | DISCOVERING, DISCOVERING | EXTRACTING, EXTRACTING
  | SYNTHESIZING, SYNTHESIZING | QA, QA | COMPLETE, COMPLETE
  | ERROR, ERROR | SKIPPED, SKIPPED | PENDING, PENDING => true
  | _, _ => false
  end.

Record Run := {
  run_id : ustring;
  run_projectId : ustring;
  run_status : RunStatus;
  run_lastNote : option ustring;
  run_startedAt : option Z;
  run_completedAt : option Z;
  run_createdAt : Z
}.

Inductive SourceStatus := SrcOK | SrcERROR.

Record Source := {
  src_id : ustring;
  src_runId : ustring;
  src_url : ustring;
  src_status : SourceStatus;
  src_notes : option ustring
}.

Inductive FindingKind :=
| GAP | DIFFERENTIATOR | COMMON_FEATURE | RISK | RECOMMENDATION | INSIGHT.

Record Finding := {
  kind : FindingKind;
  text : ustring;
  confidence : Q;
  citations : list ustring
}.

Record Capability := {
  cap_runId : ustring;
  cap_category : ustring;
  cap_name : ustring;
  cap_normalized : ustring
}.

Record Competitor := {
  comp_id : ustring;
  comp_runId : ustring;
  comp_name : ustring
}.

(** The tables a run fills, apart from the [Run] rows themselves. *)
Record Tables := {
  sources : list Source;
  findings : list (ustring * Finding);          (* runId, finding *)
  capabilities : list Capability;
  competitors : list Competitor;
  runLogs : list (ustring * ustring)            (* runId, line *)
}.

(** Modelled from the spec: [@/lib/credits] is not part of the sources;
    the per-user credit budget is a [used] count against a [limit]. *)
Record CreditUsage := {
  used : nat;
  limit : nat
}.

(** The database, the clock, and the record of the statuses that
    [setStatus] has persisted (a ghost field: no code reads it). *)
Record World := {
  runs : list Run;
  tables : Tables;
  credits : list (ustring * CreditUsage);
  nextRunId : nat;
  now : Z;
  statusLog : list (ustring * RunStatus)
}.

Definition withRuns (rs : list Run) (w : World) : World :=
  {| runs := rs; tables := tables w; credits := credits w;
     nextRunId := nextRunId w; now := now w; statusLog := statusLog w |}.

Definition withTables (t : Tables) (w : World) : World :=
  {| runs := runs w; tables := t; credits := credits w;
     nextRunId := nextRunId w; now := now w; statusLog := statusLog w |}.

Definition withStatusLog (l : list (ustring * RunStatus)) (w : World) : World :=
  {| runs := runs w; tables := tables w; credits := credits w;
     nextRunId := nextRunId w; now := now w; statusLog := l |}.

(** [prisma.run.findUnique({ where: { id } })] *)
Definition findRun (runId : ustring) (w : World) : option Run :=
  find (fun r => ueqb (run_id r) runId) (runs w).

(** [prisma.run.update({ where: { id }, data })]: throws when no row has
    the id. *)
Definition runUpdate (runId : ustring) (f : Run -> Run) : M World unit :=
  fun w =>
    match findRun runId w with
    | Some _ =>
        (Ok tt,
         withRuns (map (fun r => if ueqb (run_id r) runId then f r else r)
                       (runs w)) w)
    | None => (Throw (lit "Record to update not found."), w)
    end.

(** [prisma.runLog.create({ data: { runId, line } })]: the foreign key
    needs the run. *)
Definition runLogCreate (runId line : ustring) : M World unit :=
  fun w =>
    match findRun runId w with
    | Some _ =>
        let t := tables w in
        (Ok tt,
         withTables {| sources := sources t; findings := findings t;
                       capabilities := capabilities t;
                       competitors := competitors t;
                       runLogs := runLogs t ++ [(runId, line)] |} w)
    | None => (Throw (lit "Foreign key constraint failed"), w)
    end.

(** The horizontal ellipsis U+2026 of the progress notes. *)
Definition ellipsis : ustring := [8230%N].

Definition isTerminal (s : RunStatus) : bool :=
  match s with COMPLETE | ERROR | SKIPPED => true | _ => false end.

Definition setStatus (runId : ustring) (status : RunStatus)
  (note : option ustring) (startedAtTs : option Z) : M World unit :=
  (w <- get ;;
   runUpdate runId
     (fun r =>
        {| run_id := run_id r; run_projectId := run_projectId r;
           run_status := status;
           run_lastNote := note;
           run_startedAt :=
             match status, startedAtTs with
             | DISCOVERING, Some ts =>
                 if Z.eqb ts 0 then run_startedAt r else Some ts
             | _, _ => run_startedAt r
             end;
           run_completedAt :=
             if isTerminal status then Some (now w) else run_completedAt r;
           run_createdAt := run_createdAt r |}) ;;;
   modify (fun w' => withStatusLog (statusLog w' ++ [(runId, status)]) w'))%eff.

Definition appendLog (runId line : ustring) : M World unit :=
  tryCatch (runLogCreate runId line)
    (fun _ =>
       tryCatch
         (runUpdate runId
            (fun r =>
               {| run_id := run_id r; run_projectId := run_projectId r;
                  run_status := run_status r; run_lastNote := Some line;
                  run_startedAt := run_startedAt r;
                  run_completedAt := run_completedAt r;
                  run_createdAt := run_createdAt r |}))
         (fun _ => ret tt)).

(** ** Guardrails *)

Record GuardrailResult := {
  summary : ustring;
  issues : list ustring
}.

Definition runGuardrails (runId : ustring) (stalenessDays : nat)
  : M World GuardrailResult :=
  fun w =>
    let t := tables w in
    let sources := filter (fun s => ueqb (src_runId s) runId) (sources t) in
    let findings :=
      map snd (filter (fun f => ueqb (fst f) runId) (findings t)) in
    let capabilities :=
      filter (fun c => ueqb (cap_runId c) runId) (capabilities t) in
    let competitors :=
      filter (fun c => ueqb (comp_runId c) runId) (competitors t) in
    let missing :=
      filter (fun f => match citations f with [] => true | _ => false end)
             findings in
    let staleSources :=
      filter (fun s => match src_notes s with
                       | Some n => includes (lit "Stale source") n
                       | None => false
                       end) sources in
    let failedSources :=
      filter (fun s => match src_status s with
                       | SrcERROR => true | SrcOK => false end) sources in
    let issues :=
      (if Nat.ltb 0 (length missing)
       then [lit "Findings without citations: " ++ ofNat (length missing)]
       else [])
      ++ (if Nat.ltb (length sources) 5
          then [lit "Low source count: Only " ++ ofNat (length sources)
                ++ lit " sources found. Consider expanding search queries."]
          else [])
      ++ (if Nat.ltb (length capabilities) 10
          then [lit "Low capability count: Only "
                ++ ofNat (length capabilities)
                ++ lit " capabilities extracted. May indicate limited source content."]
          else [])
      ++ (if Nat.eqb (length competitors) 0
          then [lit "No competitors identified. Consider adding competitor names to project inputs."]
          else [])
      ++ (if Nat.ltb 0 (length staleSources)
          then [lit "Stale sources detected: " ++ ofNat (length staleSources)
                ++ lit " sources are older than " ++ ofNat stalenessDays
                ++ lit " days"]
          else [])
      (* failedSources.length > sources.length * 0.3, in exact arithmetic *)
      ++ (if Nat.ltb (3 * length sources) (10 * length failedSources)
          then [lit "High source fetch failure rate: "
                ++ ofNat (length failedSources) ++ lit "/"
                ++ ofNat (length sources) ++ lit " sources failed to fetch"]
          else []) in
    (Ok {| summary := match issues with
                      | [] => lit "All checks passed"
                      | _ => lit "Guardrails found issues"
                      end;
           issues := issues |}, w).

(** ** The phases between two status writes

    The work between two calls of [setStatus] talks to the search, fetch
    and AI collaborators and writes the tables of the run.  For the state
    machine only its outcome matters: it ends normally or it throws past
    its own [try]/[catch] blocks.  Each phase is given by the collaborators
    as a function from the world it sees to its outcome and the tables it
    leaves. *)
Record Phases := {
  (* lines 49-245: settings, queries, search, persisting the sources;
     yields [sources.length] *)
  ph_discover : ustring -> World -> Res nat * Tables;
  (* lines 250-264: fetching the sources *)
  ph_fetch : ustring -> World -> Res unit * Tables;
  (* lines 268-547: extraction and persisting the entities *)
  ph_extract : ustring -> World -> Res unit * Tables;
  (* lines 552-910: findings *)
  ph_synthesize : ustring -> World -> Res unit * Tables;
  (* lines 915-940: the report; yields [report.id] *)
  ph_report : ustring -> World -> Res ustring * Tables;
  (* lines 946-981: change detection against the previous run; only the
     lookup of the previous run is outside a [try] *)
  ph_changes : ustring -> World -> Res unit * Tables;
  (* lines 996-1024: the notification, inside a [try] whose handler
     cannot throw *)
  ph_notify : ustring -> World -> Tables;
  (* the settings value [stalenessDays] *)
  ph_stalenessDays : nat;
  (* lines 1029-1030: what the [catch] block reads off the error it has
     caught besides the message: [String(error)] and [error?.stack] *)
  ph_errorString : ustring -> ustring;
  ph_errorStack : ustring -> option ustring
}.

Definition phase {A} (f : World -> Res A * Tables) : M World A :=
  fun w => let (r, t) := f w in (r, withTables t w).

(** Lines 983-993: guardrails, then COMPLETE. *)
Definition guardrailsAndComplete (runId : ustring) (stalenessDays : nat)
  (reportId : ustring) : M World unit :=
  (setStatus runId QA (Some (lit "Running guardrails" ++ ellipsis)) None ;;;
   guard <- runGuardrails runId stalenessDays ;;
   match issues guard with
   | [] => appendLog runId (lit "Guardrails: All checks passed")
   | _ => appendLog runId (lit "Guardrails: " ++ join (lit "; ") (issues guard))
   end ;;;
   setStatus runId COMPLETE (Some (lit "Report ready: " ++ reportId)) None)%eff.

(** The body of the [try] block once the run has been loaded. *)
Definition pipeline (ph : Phases) (runId : ustring) (startedAtTs : Z)
  : M World unit :=
  (setStatus runId DISCOVERING (Some (lit "Starting discovery" ++ ellipsis)) (Some startedAtTs) ;;;
   n <- phase (ph_discover ph runId) ;;
   setStatus runId EXTRACTING
     (Some (lit "Fetched " ++ ofNat n ++ lit " sources; extracting content" ++ ellipsis))
     None ;;;
   phase (ph_fetch ph runId) ;;;
   setStatus runId EXTRACTING
     (Some (lit "Extracting capabilities, integrations, compliance, pricing"
            ++ ellipsis))
     None ;;;
   phase (ph_extract ph runId) ;;;
   setStatus runId SYNTHESIZING (Some (lit "Synthesizing findings" ++ ellipsis)) None ;;;
   phase (ph_synthesize ph runId) ;;;
   setStatus runId SYNTHESIZING (Some (lit "Generating report" ++ ellipsis)) None ;;;
   reportId <- phase (ph_report ph runId) ;;
   setStatus runId QA (Some (lit "Running change detection" ++ ellipsis)) None ;;;
   phase (ph_changes ph runId) ;;;
   guardrailsAndComplete runId (ph_stalenessDays ph) reportId ;;;
   modify (fun w => withTables (ph_notify ph runId w) w))%eff.

(** [error?.message || String(error)]: the empty message is falsy. *)
Definition errorText (ph : Phases) (error : ustring) : ustring :=
  match error with
  | [] => ph_errorString ph error
  | _ => error
  end.

(** [error?.stack || ''] *)
Definition errorStack (ph : Phases) (error : ustring) : ustring :=
  match ph_errorStack ph error with
  | Some stack => stack
  | None => []
  end.

Definition orchestrateRun (ph : Phases) (runId : ustring) : M World unit :=
  (w0 <- get ;;
   let startedAtTs := now w0 in
   tryCatch
     (match findRun runId w0 with
      | None => throw (lit "Run not found: " ++ runId)
      | Some run =>
          match run_status run with
          | SKIPPED => ret tt
          | _ => pipeline ph runId startedAtTs
          end
      end)
     (fun error =>
        setStatus runId ERROR (Some (lit "Error: " ++ errorText ph error))
          None ;;;
        appendLog runId
          (lit "FATAL ERROR: " ++ errorText ph error
           ++ 10%N :: errorStack ph error) ;;;
        throw error))%eff.

(** [pickAnySource] *)
Definition pickAnySource (sources : list Source) : option ustring :=
  match sources with
  | s :: _ => Some (src_id s)
  | [] => None
  end.

End Orchestrator.

(* ================================================================== *)
(** * src/unnamed/part_004 (the task scheduler): the AUTO_RERUN handler *)
(* ================================================================== *)

Module Scheduler.
Import Orchestrator.

Inductive TaskType := AUTO_RERUN | EMAIL_NOTIFICATION | CLEANUP.

Record ScheduledTask := {
  task_id : ustring;
  task_type : TaskType;
  task_projectId : option ustring;
  task_runId : option ustring;
  task_scheduledFor : Z;
  task_priority : Z;
  (* [task.data?.userId] when it is a string *)
  task_userId : option ustring
}.












End Scheduler.

(* ================================================================== *)
(** * src/app/api/runs/orchestrator.ts: discovery, dedup, synthesis *)
(* ================================================================== *)

Module Stages.
Import Orchestrator Features.

(** ** Discovery: scoring and selection (lines 161-199) *)

Record SearchResult := {
  sr_title : ustring;
  sr_url : ustring;
  sr_snippet : option ustring;
  sr_publishedAt : option ustring;
  sr_source : option ustring
}.

Definition orEmpty (o : option ustring) : ustring :=
  match o with Some s => s | None => [] end.

Section Discovery.
Context {P : Platform}.
(** [new URL(url)] with the fragment removed, as [toString] prints it;
    [None] when the constructor throws. *)
Variable parseUrl : ustring -> option ustring.

Definition normalizeUrl (url : ustring) : ustring :=
  match url with
  | [] => []
  | _ => match parseUrl url with
         | Some u => u
         | None => []
         end
  end.

Definition bodyOf (r : SearchResult) : ustring :=
  toLowerCase (sr_title r ++ [32%N] ++ orEmpty (sr_snippet r) ++ [32%N]
               ++ sr_url r).

(** [relevanceTokens] is the list of the elements of the token set,
    [inputCompetitors] the declared competitor names. *)
Definition scoreOf (relevanceTokens inputCompetitors : list ustring)
  (r : SearchResult) : nat :=
  let body := bodyOf r in
  let tokenScore :=
    match relevanceTokens with
    | [] => 1
    | _ =>
        fold_left
          (fun score token =>
             if Nat.ltb (length token) 3 then score
             else if includes token body
             then score + (if Nat.leb 6 (length token) then 2 else 1)
             else score)
          relevanceTokens 0
    end in
  fold_left
    (fun score comp =>
       if includes (toLowerCase comp) body then score + 2 else score)
    inputCompetitors tokenScore.

(** A result enters the loop body when its URL parses and has not been
    taken by an earlier query. *)
Definition isNew (seen : list ustring) (r : SearchResult) : bool :=
  let url := normalizeUrl (sr_url r) in
  (negb (ueqb url []) && negb (mem url seen))%bool.

(** The loop over [results]: the pair [(relevant, fallback)]. *)
Fixpoint partitionResults (seen relevanceTokens inputCompetitors : list ustring)
  (results : list SearchResult) : list SearchResult * list SearchResult :=
  match results with
  | [] => ([], [])
  | r :: rest =>
      let (relevant, fallback) :=
        partitionResults seen relevanceTokens inputCompetitors rest in
      if isNew seen r
      then (if Nat.ltb 0 (scoreOf relevanceTokens inputCompetitors r)
            then r :: relevant else relevant,
            r :: fallback)
      else (relevant, fallback)
  end.

(** [relevant.length > 0 ? relevant : fallback.slice(0, 3)] *)
Definition selectedResults (seen relevanceTokens inputCompetitors : list ustring)
  (results : list SearchResult) : list SearchResult :=
  let (relevant, fallback) :=
    partitionResults seen relevanceTokens inputCompetitors results in
  match relevant with
  | [] => firstn 3 fallback
  | _ => relevant
  end.

(** The loop over [selectedResults]: the URLs pushed to [discovered] and
    the updated [seen] set. *)
Fixpoint acceptSelected (seen : list ustring) (selected : list SearchResult)
  : list ustring * list ustring :=
  match selected with
  | [] => (seen, [])
  | r :: rest =>
      let url := normalizeUrl (sr_url r) in
      if (ueqb url [] || mem url seen)%bool then acceptSelected seen rest
      else let (seen', urls) := acceptSelected (url :: seen) rest in
           (seen', url :: urls)
  end.

End Discovery.

(** ** Feature dedup and the rows sent to the database (lines 497-547) *)

Record FeatureCandidate := {
  fc_runId : ustring;
  fc_name : ustring;
  fc_normalized : ustring;
  fc_sourceId : ustring;
  fc_description : option ustring;
  fc_competitorId : option ustring
}.

Record FeatureRow := {
  fr_runId : ustring;
  fr_name : ustring;
  fr_normalized : ustring;
  fr_description : option ustring;
  fr_sourceId : ustring;
  fr_competitorId : option ustring;
  fr_featureDefinitionId : option ustring;
  fr_origin : FeatureOrigin;
  fr_confidence : Q
}.

(** [`${candidate.competitorId ?? 'global'}|${candidate.normalized}`] *)
Definition featureKey (c : FeatureCandidate) : ustring :=
  match fc_competitorId c with
  | Some id => id
  | None => lit "global"
  end ++ 124%N :: fc_normalized c.

Definition featureByKey (featureCandidates : list FeatureCandidate)
  : list (ustring * FeatureCandidate) :=
  fold_left
    (fun m candidate =>
       if map_has (featureKey candidate) m then m
       else map_set (featureKey candidate) candidate m)
    featureCandidates [].

Definition featureCreates (featureCandidates : list FeatureCandidate)
  : list FeatureCandidate :=
  map snd (featureByKey featureCandidates).

(** [Feature_runId_competitorId_normalized_key] of the migration: no two
    rows agree on run, competitor and normalized name (rows without a
    competitor never collide under a unique index). *)
Definition sameIndexKey (a b : FeatureRow) : bool :=
  match fr_competitorId a, fr_competitorId b with
  | Some x, Some y =>
      (ueqb (fr_runId a) (fr_runId b) && ueqb x y
       && ueqb (fr_normalized a) (fr_normalized b))%bool
  | _, _ => false
  end.

Fixpoint uniqueIndexHolds (rows : list FeatureRow) : bool :=
  match rows with
  | [] => true
  | r :: rest =>
      (negb (existsb (sameIndexKey r) rest) && uniqueIndexHolds rest)%bool
  end.

Section Dedup.
Context {P : Platform}.

Definition featureCreatesWithDefs (featureDefinitions : list FeatureDefinition)
  (creates : list FeatureCandidate) : list FeatureRow :=
  let featureDefByNormalized := byNormalizedOf featureDefinitions in
  map (fun f =>
         let normalized := normalizeFeature (fc_name f) in
         {| fr_runId := fc_runId f;
            fr_name := fc_name f;
            fr_normalized := normalized;
            fr_description := fc_description f;
            fr_sourceId := fc_sourceId f;
            fr_competitorId := fc_competitorId f;
            fr_featureDefinitionId :=
              option_map fd_id (map_get normalized featureDefByNormalized);
            fr_origin := COMPETITOR;
            fr_confidence := (6 # 10)%Q |})
      creates.

(** Lines 497-539: from the candidates to the rows of
    [prisma.feature.create]. *)
Definition featureRows (featureCandidates : list FeatureCandidate)
  : M Catalog (list FeatureRow) :=
  let creates := featureCreates featureCandidates in
  (featureDefinitions <-
     match creates with
     | [] => ret []
     | _ => ensureFeatureDefinitions (map fc_name creates) (Some COMPETITOR) None
     end ;;
   ret (featureCreatesWithDefs featureDefinitions creates))%eff.

End Dedup.

(** ** Synthesis: common features and differentiators (lines 576-606,
       760-772) *)

(** [groupBy]: the keys of the record in insertion order (no key built
    here is an integer index or a name that objects inherit). *)
Definition groupBy {A} (keyFn : A -> ustring) (xs : list A)
  : list (ustring * list A) :=
  fold_left
    (fun acc x =>
       let k := keyFn x in
       match map_get k acc with
       | Some l => map_set k (l ++ [x]) acc
       | None => map_set k [x] acc
       end)
    xs [].

(** [xs.sort((a, b) => f(b) - f(a))]: a stable sort, largest first. *)
Fixpoint insertDesc {A} (f : A -> nat) (x : A) (l : list A) : list A :=
  match l with
  | [] => [x]
  | y :: r => if Nat.leb (f y) (f x) then x :: l else y :: insertDesc f x r
  end.

Definition sortDesc {A} (f : A -> nat) (l : list A) : list A :=
  fold_right (insertDesc f) [] l.

(** [.filter(Boolean)] on [string | null] *)
Definition truthy (o : option ustring) : list ustring :=
  match o with
  | Some [] | None => []
  | Some s => [s]
  end.

(** [const [category, norm] = k.split('|')] *)
Definition keyParts (k : ustring) : ustring * ustring :=
  match split 124 k with
  | c :: n :: _ => (c, n)
  | [c] => (c, lit "undefined")
  | [] => (lit "undefined", lit "undefined")
  end.

Definition quote : ustring := [34%N].

(** [Math.min(0.9, 0.6 + instances.length * 0.05)], as decimal numbers *)
Definition commonConfidence (n : nat) : Q :=
  let c := ((6 # 10) + inject_Z (Z.of_nat n) * (5 # 100))%Q in
  if Qle_bool (9 # 10) c then (9 # 10)%Q else c.

Section Synthesis.
Context {P : Platform}.

Definition capKey (c : Capability) : ustring :=
  cap_category c ++ 124%N :: toLowerCase (cap_normalized c).

Definition capByKey (allCaps : list Capability)
  : list (ustring * list Capability) :=
  groupBy capKey allCaps.

Definition common (allCaps : list Capability)
  : list (ustring * list Capability) :=
  match allCaps with
  | [] => []
  | _ => firstn 15 (sortDesc (fun e => length (snd e)) (capByKey allCaps))
  end.

Definition rare (allCaps : list Capability)
  : list (ustring * list Capability) :=
  match allCaps with
  | [] => []
  | _ => firstn 10 (filter (fun e => Nat.eqb (length (snd e)) 1)
                           (capByKey allCaps))
  end.

Definition commonFeatureFindings (allCaps : list Capability)
  (allSources : list Source) : list Finding :=
  match allCaps with
  | [] => []
  | _ =>
      map (fun e =>
             let (category, norm) := keyParts (fst e) in
             let instances := snd e in
             let sourceIds :=
               flat_map (fun _ => truthy (pickAnySource allSources))
                        instances in
             {| kind := COMMON_FEATURE;
                text := category ++ lit ": " ++ quote ++ norm ++ quote
                        ++ lit " appears across " ++ ofNat (length instances)
                        ++ lit " sources, indicating this is a market standard.";
                confidence := commonConfidence (length instances);
                citations := firstn 3 sourceIds |})
          (firstn 10 (common allCaps))
  end.

Definition differentiatorFindings (allCaps : list Capability)
  (allSources : list Source) : list Finding :=
  if Nat.leb 5 (length allCaps)
  then
    map (fun e =>
           let (category, norm) := keyParts (fst e) in
           {| kind := DIFFERENTIATOR;
              text := lit "Potential differentiator: " ++ category
                      ++ [32%N; 8212%N; 32%N] ++ quote ++ norm ++ quote
                      ++ lit " appears uniquely in the market. This could be a competitive advantage.";
              confidence := (6 # 10)%Q;
              citations := truthy (pickAnySource allSources) |})
        (rare allCaps)
  else [].

End Synthesis.
End Stages.

(* ================================================================== *)
(** * src/app/api/runs/orchestrator.ts: feature opportunities
      (lines 558-574, 620-634, 658-758) *)
(* ================================================================== *)

Module Suggestions.
Import Orchestrator Features Stages.

(** A [Feature] row with the relations the queries include: its feature
    definition, the name of its competitor, and the industry of the
    project of its run. *)
Record Feature := {
  ft_runId : ustring;
  ft_name : ustring;
  ft_normalized : ustring;
  ft_sourceId : option ustring;
  ft_definition : option FeatureDefinition;
  ft_competitorName : option ustring;
  ft_industry : option ustring;
  ft_createdAt : Z
}.

Record Suggestion := {
  sg_name : ustring;
  sg_normalized : ustring;
  sg_competitors : list ustring;
  sg_citations : list ustring;
  currentCount : nat;
  historicalCount : nat
}.

Inductive Bucket := Current | Historical.






Definition truthyOpt (o : option ustring) : bool :=
  match o with
  | Some (_ :: _) => true
  | _ => false
  end.

Section WithPlatform.
Context {P : Platform}.

(** [declaredFeatureSet], from [def.normalized] of the project's feature
    definitions. *)
Definition declaredFeatureSet (projectFeatureDefs : list FeatureDefinition)
  : list ustring :=
  uniq (filter (fun n => negb (ueqb n []))
          (map (fun d => normalizeFeature (fd_normalized d))
               projectFeatureDefs)).

(** [recordFeatureEvidence]; both [normalized] and [name] are strings at
    the two call sites. *)
Definition recordFeatureEvidence
  (m : list (ustring * Suggestion))
  (normalized name : ustring) (competitorName sourceId : option ustring)
  (bucket : Bucket) : list (ustring * Suggestion) :=
  match normalized, name with
  | [], [] => m
  | _, _ =>
      let norm := normalizeFeature normalized in
      match norm with
      | [] => m
      | _ =>
          let display := canonicalFeatureName name in
          let entry :=
            match map_get norm m with
            | Some e => e
            | None =>
                {| sg_name := display; sg_normalized := norm;
                   sg_competitors := []; sg_citations := [];
                   currentCount := 0; historicalCount := 0 |}
            end in
          let comps :=
            match competitorName with
            | Some (c :: cs) => addAlias (c :: cs) (sg_competitors entry)
            | _ => sg_competitors entry
            end in
          let entry' :=
            match bucket with
            | Current =>
                {| sg_name := sg_name entry;
                   sg_normalized := sg_normalized entry;
                   sg_competitors := comps;
                   sg_citations :=
                     match sourceId with
                     | Some (c :: cs) => addAlias (c :: cs) (sg_citations entry)
                     | _ => sg_citations entry
                     end;
                   currentCount := currentCount entry + 1;
                   historicalCount := historicalCount entry |}
            | Historical =>
                {| sg_name := sg_name entry;
                   sg_normalized := sg_normalized entry;
                   sg_competitors := comps;
                   sg_citations := sg_citations entry;
                   currentCount := currentCount entry;
                   historicalCount := historicalCount entry + 1 |}
            end in
          map_set norm entry' m
      end
  end.

Definition evidenceNormalized (feat : Feature) : ustring :=
  match ft_definition feat with
  | Some d => fd_normalized d
  | None => ft_normalized feat
  end.

Definition evidenceName (feat : Feature) : ustring :=
  match ft_definition feat with
  | Some d => fd_name d
  | None => ft_name feat
  end.








End WithPlatform.
End Suggestions.

(* ================================================================== *)
(** * Properties *)
(* ================================================================== *)

(** ** Code units and strings *)

Lemma ueqb_eq (a b : ustring) : ueqb a b = true <-> a = b.
Proof.
  revert b; induction a as [|x a IH]; intros [|y b]; simpl;
    try (split; [discriminate | discriminate]); try tauto.
  rewrite andb_true_iff, N.eqb_eq, IH.
  split; [intros [-> ->]; reflexivity | intros H; inversion H; auto].
Qed.

Lemma ueqb_refl (a : ustring) : ueqb a a = true.
Proof. apply ueqb_eq; reflexivity. Qed.

Lemma ueqb_neq (a b : ustring) : ueqb a b = false <-> a <> b.
Proof.
  rewrite <- ueqb_eq. destruct (ueqb a b); split; congruence.
Qed.

Lemma mem_In (x : ustring) (l : list ustring) : mem x l = true <-> In x l.
Proof.
  unfold mem. rewrite existsb_exists. split.
  - intros [y [Hy E]]. apply ueqb_eq in E. subst; assumption.
  - intros H. exists x. split; [assumption | apply ueqb_refl].
Qed.

Lemma mem_not_In (x : ustring) (l : list ustring) :
  mem x l = false <-> ~ In x l.
Proof.
  rewrite <- mem_In. destruct (mem x l); split; congruence.
Qed.

(** A property of the ASCII units is decided by running it on all 128. *)
Lemma ascii_units_by_cases (p : N -> bool) :
  forallb p (map N.of_nat (seq 0 128)) = true ->
  forall c, is_ascii c = true -> p c = true.
Proof.
  intros H c Hc. rewrite forallb_forall in H. apply H.
  unfold is_ascii in Hc. apply N.ltb_lt in Hc.
  rewrite <- (N2Nat.id c). apply in_map. apply in_seq. lia.
Qed.

Ltac ascii_cases c H :=
  pattern c;
  match goal with
  | |- (fun x => ?b = true) _ =>
      apply (ascii_units_by_cases (fun x => b)); [vm_compute; reflexivity | exact H]
  end.

(** ** The excerpt platform obeys the laws *)

Lemma latin1_decomp_ascii c : is_ascii c = true -> Latin1.decomp c = [c].
Proof.
  intros H. apply ueqb_eq.
  apply (ascii_units_by_cases (fun x => ueqb (Latin1.decomp x) [x]));
    [vm_compute; reflexivity | exact H].
Qed.

Lemma latin1_lower_ascii c : is_ascii c = true -> Latin1.lower1 c = ascii_lower c.
Proof.
  intros H. apply N.eqb_eq.
  apply (ascii_units_by_cases (fun x => N.eqb (Latin1.lower1 x) (ascii_lower x)));
    [vm_compute; reflexivity | exact H].
Qed.

Lemma latin1_upper_ascii c :
  is_ascii c = true -> Latin1.upper1 c = [ascii_upper c].
Proof.
  intros H. apply ueqb_eq.
  apply (ascii_units_by_cases (fun x => ueqb (Latin1.upper1 x) [ascii_upper x]));
    [vm_compute; reflexivity | exact H].
Qed.

Lemma latin1_laws : PlatformLaws Latin1.platform.
Proof.
  constructor; simpl.
  - induction s as [|c s IH]; simpl; [reflexivity|].
    intros H. apply andb_true_iff in H as [Hc Hs].
    rewrite latin1_decomp_ascii by assumption. simpl. f_equal. auto.
  - induction s as [|c s IH]; simpl; [reflexivity|].
    intros H. apply andb_true_iff in H as [Hc Hs].
    rewrite latin1_lower_ascii by assumption. f_equal. auto.
  - induction s as [|c s IH]; simpl; [reflexivity|].
    intros H. apply andb_true_iff in H as [Hc Hs].
    rewrite latin1_upper_ascii by assumption. simpl. f_equal. auto.
Qed.

(** ** normalizeFeature *)

Module NormalizeFacts.

(** The units a normalized name is made of. *)
Definition okc (c : N) : bool := (is_alphanum_plus c || N.eqb c 32)%bool.

Fixpoint nodbl (s : ustring) : bool :=
  match s with
  | a :: (b :: _) as t => (negb (N.eqb a 32 && N.eqb b 32) && nodbl t)%bool
  | _ => true
  end.

Definition starts_nonspace (s : ustring) : bool :=
  match s with
  | c :: _ => negb (is_space c)
  | [] => true
  end.

(** Words of [a-z0-9+] separated by single spaces. *)
Definition tidy (s : ustring) : bool :=
  (forallb okc s && nodbl s && starts_nonspace s && starts_nonspace (rev s))%bool.

End NormalizeFacts.
Import NormalizeFacts.

Lemma okc_ascii c : okc c = true -> is_ascii c = true.
Proof.
  unfold okc, is_alphanum_plus, is_lower_az, is_digit, between, is_ascii.
  rewrite !orb_true_iff, !andb_true_iff, !N.leb_le, !N.eqb_eq, N.ltb_lt. lia.
Qed.

Lemma okc_space c : okc c = true -> is_space c = N.eqb c 32.
Proof.
  intros H. pose proof (okc_ascii _ H) as Ha.
  assert (E : (Bool.eqb (is_space c) (N.eqb c 32) || negb (okc c))%bool = true).
  { ascii_cases c Ha. }
  rewrite H in E. simpl in E. rewrite orb_false_r in E.
  apply Bool.eqb_prop. exact E.
Qed.

Lemma okc_fixed c :
  okc c = true ->
  ascii_lower c = c /\ is_combining_mark c = false
  /\ (if is_alphanum_plus c then c else 32%N) = c.
Proof.
  intros H. pose proof (okc_ascii _ H) as Ha.
  assert (E : (negb (okc c)
               || (N.eqb (ascii_lower c) c && negb (is_combining_mark c)
                   && N.eqb (if is_alphanum_plus c then c else 32%N) c))%bool
              = true).
  { ascii_cases c Ha. }
  rewrite H in E. simpl in E.
  apply andb_true_iff in E as [E E3]. apply andb_true_iff in E as [E1 E2].
  apply N.eqb_eq in E1, E3. apply negb_true_iff in E2. auto.
Qed.

Lemma forallb_okc_ascii s : forallb okc s = true -> forallb is_ascii s = true.
Proof.
  rewrite !forallb_forall. intros H c Hc. apply okc_ascii. auto.
Qed.

Lemma replaceNonAlphanum_okc s : forallb okc (replaceNonAlphanum s) = true.
Proof.
  induction s as [|c s IH]; simpl; [reflexivity|].
  rewrite IH, andb_true_r. unfold okc.
  destruct (is_alphanum_plus c) eqn:E; [rewrite E; reflexivity|].
  reflexivity.
Qed.

Lemma nodbl_cons a b t :
  nodbl (a :: b :: t) = (negb (N.eqb a 32 && N.eqb b 32) && nodbl (b :: t))%bool.
Proof. reflexivity. Qed.

Lemma replaceMultispace_okc s : forall b,
  forallb okc s = true ->
  forallb okc (replaceMultispace b s) = true
  /\ nodbl (replaceMultispace b s) = true
  /\ (b = true -> starts_nonspace (replaceMultispace b s) = true).
Proof.
  induction s as [|c s IH]; intros b H; [simpl; auto|].
  simpl in H. apply andb_true_iff in H as [Hc Hs].
  cbn [replaceMultispace]. rewrite (okc_space _ Hc).
  destruct (N.eqb_spec c 32) as [->|Hne].
  - destruct (IH true Hs) as (I1 & I2 & I3). destruct b.
    + auto.
    + cbn [forallb]. rewrite I1. repeat split; try discriminate.
      specialize (I3 eq_refl).
      destruct (replaceMultispace true s) as [|d r] eqn:E; [reflexivity|].
      cbn [forallb] in I1. apply andb_true_iff in I1 as [Hd _].
      cbn [starts_nonspace] in I3.
      rewrite (okc_space _ Hd) in I3. apply negb_true_iff in I3.
      rewrite nodbl_cons, I3, I2. reflexivity.
  - destruct (IH false Hs) as (I1 & I2 & _). cbn [forallb]. rewrite Hc, I1.
    apply N.eqb_neq in Hne. repeat split.
    + destruct (replaceMultispace false s) as [|d r] eqn:E; [reflexivity|].
      rewrite nodbl_cons, Hne, I2. reflexivity.
    + intros _. cbn [starts_nonspace]. rewrite (okc_space _ Hc), Hne.
      reflexivity.
Qed.

Lemma trimStart_suffix s : exists p, s = p ++ trimStart s.
Proof.
  induction s as [|c s [p IH]]; simpl; [exists []; reflexivity|].
  destruct (is_space c).
  - exists (c :: p). simpl. f_equal. exact IH.
  - exists []. reflexivity.
Qed.

Lemma trimStart_starts s : starts_nonspace (trimStart s) = true.
Proof.
  induction s as [|c s IH]; simpl; [reflexivity|].
  destruct (is_space c) eqn:E; [exact IH|]. simpl. rewrite E. reflexivity.
Qed.

Lemma trimStart_fixed s : starts_nonspace s = true -> trimStart s = s.
Proof.
  destruct s as [|c s]; simpl; [reflexivity|].
  intros H. apply negb_true_iff in H. rewrite H. reflexivity.
Qed.

Lemma trimEnd_prefix s : exists q, s = trimEnd s ++ q.
Proof.
  unfold trimEnd. destruct (trimStart_suffix (rev s)) as [p Hp].
  exists (rev p). rewrite <- rev_app_distr, <- Hp, rev_involutive. reflexivity.
Qed.

Lemma nodbl_app_r p s : nodbl (p ++ s) = true -> nodbl s = true.
Proof.
  induction p as [|a p IH]; simpl; [auto|].
  destruct (p ++ s) as [|b t] eqn:E.
  - destruct p; [simpl in E; subst; reflexivity | discriminate].
  - intros H. apply andb_true_iff in H as [_ H]. auto.
Qed.

Lemma nodbl_app_l p s : nodbl (p ++ s) = true -> nodbl p = true.
Proof.
  induction p as [|a p IH]; [reflexivity|].
  destruct p as [|b p]; [reflexivity|].
  change ((a :: b :: p) ++ s) with (a :: (b :: p) ++ s).
  simpl. intros H. apply andb_true_iff in H as [H1 H2].
  rewrite H1. simpl. apply IH. exact H2.
Qed.

Lemma forallb_app_inv (p : N -> bool) a b :
  forallb p (a ++ b) = true -> forallb p a = true /\ forallb p b = true.
Proof. rewrite forallb_app. apply andb_true_iff. Qed.

Lemma starts_nonspace_prefix s q :
  starts_nonspace (s ++ q) = true -> starts_nonspace s = true.
Proof. destruct s; simpl; auto. Qed.

(** What [normalizeFeature] returns is tidy, on every platform. *)
Lemma normalizeFeature_tidy {P : Platform} (x : ustring) :
  tidy (normalizeFeature x) = true.
Proof.
  unfold normalizeFeature.
  set (y := replaceNonAlphanum _).
  destruct (replaceMultispace_okc y false (replaceNonAlphanum_okc _))
    as (Z1 & Z2 & _). set (z := replaceMultispace false y) in *.
  unfold trim. set (u := trimStart z).
  destruct (trimStart_suffix z) as [p Hp]. fold u in Hp.
  destruct (trimEnd_prefix u) as [q Hq].
  assert (U1 : forallb okc u = true).
  { rewrite Hp in Z1. apply forallb_app_inv in Z1. tauto. }
  assert (U2 : nodbl u = true).
  { rewrite Hp in Z2. eapply nodbl_app_r; eauto. }
  assert (U3 : starts_nonspace u = true) by apply trimStart_starts.
  unfold tidy. rewrite !andb_true_iff. repeat split.
  - rewrite Hq in U1. apply forallb_app_inv in U1. tauto.
  - rewrite Hq in U2. eapply nodbl_app_l; eauto.
  - rewrite Hq in U3. eapply starts_nonspace_prefix; eauto.
  - unfold trimEnd. rewrite rev_involutive. apply trimStart_starts.
Qed.

Lemma replaceMultispace_fixed s : forall b,
  forallb okc s = true -> nodbl s = true ->
  (b = true -> starts_nonspace s = true) ->
  replaceMultispace b s = s.
Proof.
  induction s as [|c s IH]; intros b H1 H2 H3; simpl; [reflexivity|].
  simpl in H1. apply andb_true_iff in H1 as [Hc Hs].
  assert (N2 : nodbl s = true).
  { destruct s; [reflexivity|]. simpl in H2.
    apply andb_true_iff in H2 as [_ H2]. exact H2. }
  destruct (is_space c) eqn:E.
  - destruct b.
    + specialize (H3 eq_refl). simpl in H3. rewrite E in H3. discriminate.
    + rewrite (okc_space _ Hc) in E. apply N.eqb_eq in E. subst c.
      f_equal. apply IH; auto. intros _.
      destruct s as [|d s]; [reflexivity|]. simpl in *.
      apply andb_true_iff in H2 as [H2 _].
      apply andb_true_iff in Hs as [Hd _].
      rewrite (okc_space _ Hd). exact H2.
  - f_equal. apply IH; auto. discriminate.
Qed.

(** A tidy string is a fixed point of [normalizeFeature]. *)
Lemma normalizeFeature_fixed {P : Platform} {L : PlatformLaws P} (s : ustring) :
  tidy s = true -> normalizeFeature s = s.
Proof.
  unfold tidy. rewrite !andb_true_iff. intros [[[H1 H2] H3] H4].
  unfold normalizeFeature.
  rewrite nfkd_ascii by (apply forallb_okc_ascii; exact H1).
  assert (F : filter (fun c => negb (is_combining_mark c)) s = s).
  { clear H2 H3 H4. induction s as [|c s IH]; simpl; [reflexivity|].
    simpl in H1. apply andb_true_iff in H1 as [Hc Hs].
    destruct (okc_fixed _ Hc) as (_ & -> & _). simpl. f_equal. auto. }
  rewrite F.
  rewrite toLowerCase_ascii by (apply forallb_okc_ascii; exact H1).
  assert (G : map ascii_lower s = s).
  { clear H2 H3 H4 F. induction s as [|c s IH]; simpl; [reflexivity|].
    simpl in H1. apply andb_true_iff in H1 as [Hc Hs].
    destruct (okc_fixed _ Hc) as (-> & _ & _). f_equal. auto. }
  rewrite G.
  assert (R : replaceNonAlphanum s = s).
  { clear H2 H3 H4 F G. induction s as [|c s IH]; simpl; [reflexivity|].
    simpl in H1. apply andb_true_iff in H1 as [Hc Hs].
    destruct (okc_fixed _ Hc) as (_ & _ & ->). f_equal. auto. }
  rewrite R.
  rewrite replaceMultispace_fixed by (auto; discriminate).
  unfold trim. rewrite (trimStart_fixed _ H3).
  unfold trimEnd. rewrite (trimStart_fixed _ H4). apply rev_involutive.
Qed.

(** The string "Caf" followed by U+00E9, and its NFKD form. *)
Definition cafe_precomposed : ustring := [67; 97; 102; 233]%N.
Definition cafe_decomposed : ustring := [67; 97; 102; 101; 769]%N.

(** C6.  [normalizeFeature] is idempotent: for every string [x],
    [normalizeFeature (normalizeFeature x) = normalizeFeature x]; and it
    ignores case and diacritics: the name written "Caf" + U+00E9
    normalizes to the same key as "cafe".  This holds on every platform
    whose string built-ins treat ASCII as Unicode prescribes and whose
    NFKD form of U+00E9 is "e" followed by U+0301. *)
Theorem normalizeFeature_idempotent_cafe
  (P : Platform) (L : PlatformLaws P)
  (Hcafe : nfkd cafe_precomposed = cafe_decomposed) :
  (forall x, normalizeFeature (normalizeFeature x) = normalizeFeature x)
  /\ normalizeFeature cafe_precomposed = normalizeFeature (lit "cafe").
Proof.
  split.
  - intros x. apply normalizeFeature_fixed. apply normalizeFeature_tidy.
  - unfold normalizeFeature at 1. rewrite Hcafe.
    change (filter (fun c => negb (is_combining_mark c)) cafe_decomposed)
      with (lit "Cafe").
    rewrite toLowerCase_ascii by reflexivity.
    rewrite normalizeFeature_fixed by reflexivity.
    reflexivity.
Qed.

Lemma normalizeFeature_idempotent_cafe_witness :
  @normalizeFeature Latin1.platform
     (@normalizeFeature Latin1.platform (lit "  Single  Sign-On (SSO) "))
  = @normalizeFeature Latin1.platform (lit "  Single  Sign-On (SSO) ")
  /\ @normalizeFeature Latin1.platform cafe_precomposed
     = @normalizeFeature Latin1.platform (lit "cafe").
Proof.
  destruct (normalizeFeature_idempotent_cafe latin1_laws eq_refl) as [H1 H2].
  split; [apply H1 | exact H2].
Defined.

(** ** The code is platform independent on ASCII input *)

Lemma forallb_filter_keep (p q : N -> bool) s :
  forallb p s = true -> forallb p (filter q s) = true.
Proof.
  induction s as [|c s IH]; simpl; [reflexivity|].
  intros H. apply andb_true_iff in H as [Hc Hs].
  destruct (q c); simpl; [rewrite Hc|]; auto.
Qed.

Lemma normalizeFeature_ascii {P : Platform} {L : PlatformLaws P} s :
  forallb is_ascii s = true ->
  @normalizeFeature P s = @normalizeFeature Latin1.platform s.
Proof.
  intros H. unfold normalizeFeature.
  rewrite (@nfkd_ascii P L s H), (@nfkd_ascii _ latin1_laws s H).
  rewrite (@toLowerCase_ascii P L), (@toLowerCase_ascii _ latin1_laws);
    auto using forallb_filter_keep.
Qed.

Lemma split_forallb (p : N -> bool) sep s :
  forallb p s = true -> Forall (fun w => forallb p w = true) (split sep s).
Proof.
  induction s as [|c s IH]; simpl; intros H.
  - repeat constructor.
  - apply andb_true_iff in H as [Hc Hs]. specialize (IH Hs).
    destruct (N.eqb c sep).
    + constructor; [reflexivity | exact IH].
    + destruct (split sep s) as [|h r].
      * constructor; [simpl; rewrite Hc; reflexivity | constructor].
      * inversion IH; subst. constructor; [simpl; rewrite Hc; assumption|assumption].
Qed.

Lemma capitalize_ascii {P : Platform} {L : PlatformLaws P} w :
  forallb is_ascii w = true ->
  @capitalize P w = @capitalize Latin1.platform w.
Proof.
  destruct w as [|c w]; simpl; [reflexivity|].
  intros H. apply andb_true_iff in H as [Hc _].
  assert (H1 : forallb is_ascii [c] = true) by (simpl; rewrite Hc; reflexivity).
  rewrite (@toUpperCase_ascii P L [c] H1).
  pose proof (@toUpperCase_ascii _ latin1_laws [c] H1) as E. simpl in E.
  rewrite E. reflexivity.
Qed.

Lemma canonicalFeatureName_ascii {P : Platform} {L : PlatformLaws P} s :
  forallb is_ascii s = true ->
  @canonicalFeatureName P s = @canonicalFeatureName Latin1.platform s.
Proof.
  intros H. unfold canonicalFeatureName.
  rewrite (normalizeFeature_ascii s H).
  pose proof (@normalizeFeature_tidy Latin1.platform s) as T.
  destruct (@normalizeFeature Latin1.platform s) as [|c n] eqn:E; [reflexivity|].
  f_equal. unfold tidy in T. rewrite !andb_true_iff in T.
  destruct T as [[[T _] _] _]. apply forallb_okc_ascii in T.
  pose proof (split_forallb is_ascii 32 _ T) as F.
  induction F as [|w ws Hw F IH]; simpl; [reflexivity|].
  rewrite (capitalize_ascii w Hw). f_equal. exact IH.
Qed.

Lemma entryOf_ascii {P : Platform} {L : PlatformLaws P} s :
  forallb is_ascii s = true ->
  @Features.entryOf P s = @Features.entryOf Latin1.platform s.
Proof.
  intros H. unfold Features.entryOf.
  rewrite (normalizeFeature_ascii s H), (canonicalFeatureName_ascii s H).
  reflexivity.
Qed.

(** ** ensureFeatureDefinitions *)

Module FeaturesFacts.
Import Features.

Definition emptyCatalog : Catalog := {| defs := []; nextDefId := 0 |}.

(** The catalog has no definition under the normalized key [k]. *)
Definition lacks (k : ustring) (c : Catalog) : Prop :=
  forall d, In d (defs c) -> fd_normalized d <> k.

End FeaturesFacts.
Import FeaturesFacts.

Lemma lacks_existsb k c :
  lacks k c ->
  existsb (fun d => ueqb (Features.fd_normalized d) k) (Features.defs c) = false.
Proof.
  intros H. apply not_true_is_false. intros E.
  apply existsb_exists in E as [d [Hd E]]. apply ueqb_eq in E.
  exact (H d Hd E).
Qed.

Lemma lacks_findMany keys c :
  (forall k, In k keys -> lacks k c) ->
  filter (fun d => mem (Features.fd_normalized d) keys) (Features.defs c) = [].
Proof.
  intros H. unfold lacks in H.
  induction (Features.defs c) as [|d ds IH]; simpl; [reflexivity|].
  destruct (mem (Features.fd_normalized d) keys) eqn:E.
  - apply mem_In in E. exfalso. apply (H _ E d); [left; reflexivity|reflexivity].
  - apply IH. intros k Hk d' Hd'. apply (H k Hk). right. exact Hd'.
Qed.


Lemma bind_Ok {S A B} (m : M S A) (f : A -> M S B) s a s' :
  m s = (Ok a, s') -> bind m f s = f a s'.
Proof. intros H. unfold bind. rewrite H. reflexivity. Qed.

Lemma bind_Throw {S A B} (m : M S A) (f : A -> M S B) s e s' :
  m s = (Throw e, s') -> bind m f s = (Throw e, s').
Proof. intros H. unfold bind. rewrite H. reflexivity. Qed.

Lemma createDefinition_fresh nm norm cat origin aliases c :
  lacks norm c ->
  Features.createDefinition nm norm cat origin aliases c
  = (Ok {| Features.fd_id := lit "fd_" ++ ofNat (Features.nextDefId c);
           Features.fd_name := nm; Features.fd_normalized := norm;
           Features.fd_description := None; Features.fd_category := cat;
           Features.fd_origin := origin; Features.fd_aliases := aliases |},
     {| Features.defs :=
          Features.defs c
          ++ [{| Features.fd_id := lit "fd_" ++ ofNat (Features.nextDefId c);
                 Features.fd_name := nm; Features.fd_normalized := norm;
                 Features.fd_description := None; Features.fd_category := cat;
                 Features.fd_origin := origin;
                 Features.fd_aliases := aliases |}];
        Features.nextDefId := S (Features.nextDefId c) |}).
Proof.
  intros H. unfold Features.createDefinition.
  rewrite (lacks_existsb H). reflexivity.
Qed.

Lemma lacks_snoc k c d n :
  lacks k c -> Features.fd_normalized d <> k ->
  lacks k {| Features.defs := Features.defs c ++ [d]; Features.nextDefId := n |}.
Proof.
  intros H Hd d' Hin. simpl in Hin. apply in_app_or in Hin as [Hin|[<-|[]]].
  - apply H; assumption.
  - assumption.
Qed.

(** C2, as the code has it.  [ensureFeatureDefinitions(["SSO",
    "Single Sign-On"])] against a catalog that has neither name returns
    two definitions, one for each normalized key: "sso", named "Sso",
    with the alias "SSO", and "single sign on", named "Single Sign On",
    with the alias "Single Sign-On"; both are added to the catalog. *)
Theorem ensureFeatureDefinitions_sso_two
  (P : Platform) (L : PlatformLaws P) (c : Features.Catalog)
  (Hsso : lacks (lit "sso") c)
  (Hsingle : lacks (lit "single sign on") c) :
  exists d1 d2,
    Features.ensureFeatureDefinitions
      [lit "SSO"; lit "Single Sign-On"] None None c
    = (Ok [d1; d2],
       {| Features.defs := Features.defs c ++ [d1; d2];
          Features.nextDefId := S (S (Features.nextDefId c)) |})
    /\ Features.fd_normalized d1 = lit "sso"
    /\ Features.fd_name d1 = lit "Sso"
    /\ Features.fd_aliases d1 = [lit "SSO"]
    /\ Features.fd_normalized d2 = lit "single sign on"
    /\ Features.fd_name d2 = lit "Single Sign On"
    /\ Features.fd_aliases d2 = [lit "Single Sign-On"].
Proof.
  exists {| Features.fd_id := lit "fd_" ++ ofNat (Features.nextDefId c);
            Features.fd_name := lit "Sso";
            Features.fd_normalized := lit "sso";
            Features.fd_description := None;
            Features.fd_category := None;
            Features.fd_origin := Features.COMPETITOR;
            Features.fd_aliases := [lit "SSO"] |},
         {| Features.fd_id := lit "fd_" ++ ofNat (S (Features.nextDefId c));
            Features.fd_name := lit "Single Sign On";
            Features.fd_normalized := lit "single sign on";
            Features.fd_description := None;
            Features.fd_category := None;
            Features.fd_origin := Features.COMPETITOR;
            Features.fd_aliases := [lit "Single Sign-On"] |}.
  split; [|repeat split; reflexivity].
  unfold Features.ensureFeatureDefinitions.
  change (filter (fun n => negb (ueqb n []))
            (map trim [lit "SSO"; lit "Single Sign-On"]))
    with [lit "SSO"; lit "Single Sign-On"].
  cbn [map].
  rewrite (entryOf_ascii (lit "SSO") eq_refl).
  rewrite (entryOf_ascii (lit "Single Sign-On") eq_refl).
  change (@Features.entryOf Latin1.platform (lit "SSO"))
    with {| Features.original := lit "SSO";
            Features.e_normalized := lit "sso";
            Features.canonical := lit "Sso" |}.
  change (@Features.entryOf Latin1.platform (lit "Single Sign-On"))
    with {| Features.original := lit "Single Sign-On";
            Features.e_normalized := lit "single sign on";
            Features.canonical := lit "Single Sign On" |}.
  cbn [map Features.e_normalized].
  change (uniq [lit "sso"; lit "single sign on"])
    with [lit "sso"; lit "single sign on"].
  rewrite bind_Ok with (a := []) (s' := c).
  2:{ unfold Features.findManyByNormalized.
      rewrite lacks_findMany; [reflexivity|].
      intros k [<-|[<-|[]]]; assumption. }
  change (Features.byNormalizedOf [])
    with (@nil (ustring * Features.FeatureDefinition)).
  cbn [Features.createMissing Features.e_normalized Features.canonical
       Features.original].
  change (map_has (lit "sso") []) with false. cbv iota.
  erewrite bind_Ok.
  2:{ erewrite bind_Ok.
      2:{ apply createDefinition_fresh. assumption. }
      cbn [Features.fd_normalized].
      change (map_has (lit "single sign on") (map_set (lit "sso") _ []))
        with false.
      cbv iota.
      erewrite bind_Ok.
      2:{ apply createDefinition_fresh. apply lacks_snoc; [assumption|].
          discriminate. }
      reflexivity. }
  cbn [Features.fd_normalized Features.nextDefId Features.defs].
  erewrite bind_Ok.
  2:{ match goal with
      | |- forEach ?l _ _ = _ =>
          change l with (@nil (ustring * list ustring))
      end.
      reflexivity. }
  unfold ret. rewrite <- app_assoc. reflexivity.
Qed.

Lemma ensureFeatureDefinitions_sso_two_witness :
  exists d1 d2,
    @Features.ensureFeatureDefinitions Latin1.platform
      [lit "SSO"; lit "Single Sign-On"] None None emptyCatalog
    = (Ok [d1; d2],
       {| Features.defs := [d1; d2]; Features.nextDefId := 2 |})
    /\ Features.fd_normalized d1 = lit "sso"
    /\ Features.fd_name d1 = lit "Sso"
    /\ Features.fd_aliases d1 = [lit "SSO"]
    /\ Features.fd_normalized d2 = lit "single sign on"
    /\ Features.fd_name d2 = lit "Single Sign On"
    /\ Features.fd_aliases d2 = [lit "Single Sign-On"].
Proof.
  apply (@ensureFeatureDefinitions_sso_two Latin1.platform latin1_laws
           emptyCatalog);
    intros d [].
Defined.

(** C2, as the claim states it, fails: on the empty catalog the call does
    not return a single definition whose aliases hold both strings. *)
Lemma ensureFeatureDefinitions_sso_not_one :
  ~ exists d,
      fst (@Features.ensureFeatureDefinitions Latin1.platform
             [lit "SSO"; lit "Single Sign-On"] None None emptyCatalog)
      = Ok [d]
      /\ In (lit "SSO") (Features.fd_aliases d)
      /\ In (lit "Single Sign-On") (Features.fd_aliases d).
Proof.
  intros [d [H _]]. vm_compute in H. discriminate H.
Qed.

(** ** The regular-expression matcher returns pieces of the text *)

Module RegexFacts.




End RegexFacts.
Import RegexFacts.











(** ** capabilities.ts on ASCII text *)


Lemma join_forallb (p : N -> bool) sep l :
  forallb p sep = true -> Forall (fun w => forallb p w = true) l ->
  forallb p (join sep l) = true.
Proof.
  intros Hs. induction 1 as [|w ws Hw F IH]; simpl; [reflexivity|].
  destruct ws as [|w' ws']; [exact Hw|].
  rewrite !forallb_app, Hw, Hs, IH. reflexivity.
Qed.



Lemma normalizeCapabilityTerm_ascii {P : Platform} {L : PlatformLaws P} s :
  forallb is_ascii s = true ->
  @Capabilities.normalizeCapabilityTerm P s
  = @Capabilities.normalizeCapabilityTerm Latin1.platform s.
Proof.
  intros H. unfold Capabilities.normalizeCapabilityTerm.
  rewrite (normalizeFeature_ascii s H). reflexivity.
Qed.

Definition asciiGroup (g : string * list string) : bool :=
  (forallb is_ascii (lit (fst g))
   && forallb (fun v => forallb is_ascii (lit v)) (snd g))%bool.

Lemma addGroup_ascii {P : Platform} {L : PlatformLaws P} m g :
  asciiGroup g = true ->
  @Capabilities.addGroup P m g = @Capabilities.addGroup Latin1.platform m g.
Proof.
  intros Hg. apply andb_true_iff in Hg as [Hd Hv].
  unfold Capabilities.addGroup.
  rewrite (normalizeCapabilityTerm_ascii _ Hd).
  destruct (@Capabilities.normalizeCapabilityTerm Latin1.platform (lit (fst g)));
    [reflexivity|].
  generalize (map_set (n :: u)
                {| Capabilities.cc_normalized := n :: u;
                   Capabilities.cc_display := lit (fst g) |} m).
  induction (snd g) as [|v vs IH]; intros m0; simpl; [reflexivity|].
  simpl in Hv. apply andb_true_iff in Hv as [Hv1 Hv2].
  rewrite (normalizeCapabilityTerm_ascii _ Hv1). apply IH. exact Hv2.
Qed.

Lemma synonym_map_ascii {P : Platform} {L : PlatformLaws P} :
  @Capabilities.CAPABILITY_SYNONYM_MAP P
  = @Capabilities.CAPABILITY_SYNONYM_MAP Latin1.platform.
Proof.
  unfold Capabilities.CAPABILITY_SYNONYM_MAP.
  assert (A : forallb asciiGroup Capabilities.RAW_SYNONYM_GROUPS = true)
    by (vm_compute; reflexivity).
  revert A. generalize (@nil (ustring * Capabilities.CanonicalCapability)).
  induction Capabilities.RAW_SYNONYM_GROUPS as [|g gs IH]; intros m A; simpl;
    [reflexivity|].
  simpl in A. apply andb_true_iff in A as [Ag Ags].
  rewrite (addGroup_ascii m g Ag). apply IH. exact Ags.
Qed.





(** ** extractCapabilities *)

Module CapabilitiesFacts.
Import Capabilities.




End CapabilitiesFacts.
Import CapabilitiesFacts.

Lemma dedupHits_spec hits : forall seen,
  NoDup (map Capabilities.hitKey (Capabilities.dedupHits seen hits))
  /\ forall h, In h (Capabilities.dedupHits seen hits) ->
               ~ In (Capabilities.hitKey h) seen /\ In h hits.
Proof.
  induction hits as [|h hits IH]; intros seen; simpl.
  - split; [constructor | intros h []].
  - destruct (mem (Capabilities.hitKey h) seen) eqn:E.
    + destruct (IH seen) as [N I]. split; [exact N|].
      intros h' Hh'. destruct (I h' Hh'). auto.
    + destruct (IH (Capabilities.hitKey h :: seen)) as [N I].
      apply mem_not_In in E. split.
      * simpl. constructor; [|exact N].
        intros Hin. apply in_map_iff in Hin as [h' [Hk Hh']].
        destruct (I h' Hh') as [Hn _]. apply Hn. left. symmetry. exact Hk.
      * intros h' [<-|Hh']; [auto|].
        destruct (I h' Hh') as [Hn Hi]. split; [|auto].
        intros Hs. apply Hn. right. exact Hs.
Qed.






(** ** Discovery: the selection policy *)

Module DiscoveryFacts.
Import Stages.

(** The results of a query that reach the scoring: their URL parses and
    no earlier query has taken it. *)
Definition fresh {P : Platform} (parseUrl : ustring -> option ustring)
  (seen : list ustring) (results : list SearchResult) : list SearchResult :=
  filter (isNew parseUrl seen) results.

Definition scores {P : Platform} (relevanceTokens inputCompetitors : list ustring)
  (r : SearchResult) : bool :=
  Nat.ltb 0 (scoreOf relevanceTokens inputCompetitors r).

Definition result (url : string) : SearchResult :=
  {| sr_title := lit "Untitled"; sr_url := lit url; sr_snippet := None;
     sr_publishedAt := None; sr_source := None |}.

End DiscoveryFacts.
Import DiscoveryFacts.

Lemma partitionResults_filter {P : Platform} parseUrl seen tokens comps results :
  Stages.partitionResults parseUrl seen tokens comps results
  = (filter (scores tokens comps) (fresh parseUrl seen results),
     fresh parseUrl seen results).
Proof.
  unfold fresh. induction results as [|r rest IH]; simpl; [reflexivity|].
  rewrite IH. destruct (Stages.isNew parseUrl seen r); simpl; [|reflexivity].
  unfold scores. destruct (Nat.ltb 0 (Stages.scoreOf tokens comps r));
    reflexivity.
Qed.

Lemma filter_none {A} (p : A -> bool) l :
  (forall x, In x l -> p x = false) -> filter p l = [].
Proof.
  induction l as [|x l IH]; simpl; intros H; [reflexivity|].
  rewrite (H x (or_introl eq_refl)). apply IH. intros y Hy. apply H. right. exact Hy.
Qed.

(** C3, as the code has it.  Among the results of a query whose URL
    parses and has not been taken by an earlier query: when every one of
    them scores 0 the selection is the first three of them, and it is
    non-empty when there is one; when one of them scores above 0 the
    selection is exactly those that score above 0. *)
Theorem selectedResults_policy (P : Platform)
  (parseUrl : ustring -> option ustring)
  (seen relevanceTokens inputCompetitors : list ustring)
  (results : list Stages.SearchResult) :
  ((forall r, In r (fresh parseUrl seen results) ->
              Stages.scoreOf relevanceTokens inputCompetitors r = 0) ->
   Stages.selectedResults parseUrl seen relevanceTokens inputCompetitors results
   = firstn 3 (fresh parseUrl seen results)
   /\ (fresh parseUrl seen results <> [] ->
       Stages.selectedResults parseUrl seen relevanceTokens inputCompetitors
         results <> []))
  /\ ((exists r, In r (fresh parseUrl seen results)
                 /\ 0 < Stages.scoreOf relevanceTokens inputCompetitors r) ->
      Stages.selectedResults parseUrl seen relevanceTokens inputCompetitors
        results
      = filter (scores relevanceTokens inputCompetitors)
               (fresh parseUrl seen results)).
Proof.
  unfold Stages.selectedResults. rewrite partitionResults_filter. split.
  - intros H0. rewrite filter_none.
    + split; [reflexivity|].
      destruct (fresh parseUrl seen results); [congruence | discriminate].
    + intros r Hr. unfold scores. rewrite (H0 r Hr). reflexivity.
  - intros [r [Hr Hs]].
    destruct (filter (scores relevanceTokens inputCompetitors)
                (fresh parseUrl seen results)) as [|x l] eqn:E; [|reflexivity].
    exfalso.
    assert (Hin : In r (filter (scores relevanceTokens inputCompetitors)
                          (fresh parseUrl seen results))).
    { apply filter_In. split; [exact Hr|]. unfold scores.
      apply Nat.ltb_lt. exact Hs. }
    rewrite E in Hin. destruct Hin.
Qed.

Lemma selectedResults_policy_witness :
  let parseUrl := fun u : ustring => Some u in
  let seen := [lit "https://a.example/"] in
  let rs := [result "https://a.example/"; result "https://b.example/";
             result "https://c.example/"; result "https://d.example/";
             result "https://e.example/"] in
  @Stages.selectedResults Latin1.platform parseUrl seen [lit "payroll"] [] rs
  = [result "https://b.example/"; result "https://c.example/";
     result "https://d.example/"]
  /\ @Stages.selectedResults Latin1.platform parseUrl seen [lit "example"] [] rs
     = [result "https://b.example/"; result "https://c.example/";
        result "https://d.example/"; result "https://e.example/"].
Proof.
  intros parseUrl seen rs. split.
  - destruct (@selectedResults_policy Latin1.platform parseUrl seen
                [lit "payroll"] [] rs) as [H _].
    destruct H as [H _].
    + intros r Hr. vm_compute in Hr.
      repeat (destruct Hr as [<-|Hr]; [vm_compute; reflexivity|]).
      destruct Hr.
    + rewrite H. vm_compute. reflexivity.
  - destruct (@selectedResults_policy Latin1.platform parseUrl seen
                [lit "example"] [] rs) as [_ H].
    rewrite H.
    + vm_compute. reflexivity.
    + exists (result "https://b.example/"). split.
      * vm_compute. left. reflexivity.
      * vm_compute. lia.
Defined.

(** C3, as the claim states it, fails: a result whose URL an earlier query
    has taken is not part of the fallback, so the selection is not the
    first three raw results, and it is empty when nothing else came
    back. *)
Lemma selectedResults_not_first_raw :
  ~ forall (seen relevanceTokens inputCompetitors : list ustring)
           (results : list Stages.SearchResult),
      (forall r, In r results ->
                 @Stages.scoreOf Latin1.platform relevanceTokens
                   inputCompetitors r = 0) ->
      @Stages.selectedResults Latin1.platform (fun u => Some u) seen
        relevanceTokens inputCompetitors results
      = firstn 3 results
      /\ (results <> [] ->
          @Stages.selectedResults Latin1.platform (fun u => Some u) seen
            relevanceTokens inputCompetitors results <> []).
Proof.
  intros H.
  specialize (H [lit "https://a.example/"] [lit "payroll"] []
                [result "https://a.example/"]).
  destruct H as [_ H].
  - intros r [<-|[]]. vm_compute. reflexivity.
  - apply H; [discriminate | vm_compute; reflexivity].
Qed.

(** ** Citations of the deterministic findings *)

Lemma truthy_pickAnySource allSources c :
  In c (Stages.truthy (Orchestrator.pickAnySource allSources)) ->
  exists s rest, allSources = s :: rest /\ c = Orchestrator.src_id s.
Proof.
  destruct allSources as [|s rest]; simpl; [intros []|].
  destruct (Orchestrator.src_id s) as [|x i] eqn:E; simpl; [intros []|].
  intros [<-|[]]. exists s, rest. split; [reflexivity | symmetry; exact E].
Qed.

Lemma firstn_In {A} n (l : list A) x : In x (firstn n l) -> In x l.
Proof.
  revert n; induction l as [|y l IH]; intros [|n]; simpl; try tauto.
  intros [->|H]; eauto.
Qed.

(** C10.  Every citation of a COMMON_FEATURE or DIFFERENTIATOR finding is
    the id of the first source of the run's source list, so such a finding
    cites one source at most, whatever the length (at most 3) of its
    citation list. *)
Theorem deterministic_findings_cite_first_source (P : Platform)
  (allCaps : list Orchestrator.Capability)
  (allSources : list Orchestrator.Source) (f : Orchestrator.Finding) :
  In f (Stages.commonFeatureFindings allCaps allSources
        ++ Stages.differentiatorFindings allCaps allSources) ->
  length (Orchestrator.citations f) <= 3
  /\ (forall c, In c (Orchestrator.citations f) ->
        exists s rest, allSources = s :: rest /\ c = Orchestrator.src_id s)
  /\ (forall c1 c2, In c1 (Orchestrator.citations f) ->
        In c2 (Orchestrator.citations f) -> c1 = c2).
Proof.
  intros Hin.
  assert (Hc : length (Orchestrator.citations f) <= 3
               /\ forall c, In c (Orchestrator.citations f) ->
                    In c (Stages.truthy (Orchestrator.pickAnySource allSources))).
  { apply in_app_or in Hin as [Hin|Hin].
    - unfold Stages.commonFeatureFindings in Hin.
      destruct allCaps as [|c0 caps]; [destruct Hin|].
      apply in_map_iff in Hin as [e [<- _]].
      destruct (Stages.keyParts (fst e)) as [category norm].
      cbn [Orchestrator.citations]. split.
      + apply firstn_le_length.
      + intros c Hc. apply firstn_In in Hc.
        apply in_flat_map in Hc as [_ [_ Hc]]. exact Hc.
    - unfold Stages.differentiatorFindings in Hin.
      destruct (Nat.leb 5 (length allCaps)); [|destruct Hin].
      apply in_map_iff in Hin as [e [<- _]].
      destruct (Stages.keyParts (fst e)) as [category norm].
      cbn [Orchestrator.citations]. split; [|auto].
      destruct (Orchestrator.pickAnySource allSources) as [[|x i]|]; simpl; lia. }
  destruct Hc as [Hlen Hc]. split; [exact Hlen|]. split.
  - intros c H. apply truthy_pickAnySource. auto.
  - intros c1 c2 H1 H2.
    destruct (truthy_pickAnySource _ _ (Hc c1 H1)) as (s1 & r1 & E1 & ->).
    destruct (truthy_pickAnySource _ _ (Hc c2 H2)) as (s2 & r2 & E2 & ->).
    rewrite E1 in E2. inversion E2. reflexivity.
Qed.

Module CitationExample.
Import Orchestrator.

Definition src (id : string) : Source :=
  {| src_id := lit id; src_runId := lit "run_1";
     src_url := lit "https://" ++ lit id ++ lit ".example/";
     src_status := SrcOK; src_notes := None |}.

Definition cap (cat norm : string) : Capability :=
  {| cap_runId := lit "run_1"; cap_category := lit cat;
     cap_name := lit norm; cap_normalized := lit norm |}.

Definition caps : list Capability :=
  [cap "Security" "sso"; cap "Security" "sso"; cap "Security" "sso";
   cap "Security" "sso"; cap "API" "webhook"].

Definition srcs : list Source := [src "s1"; src "s2"; src "s3"].

End CitationExample.

Lemma deterministic_findings_cite_first_source_witness :
  let fs := @Stages.commonFeatureFindings Latin1.platform
              CitationExample.caps CitationExample.srcs
            ++ @Stages.differentiatorFindings Latin1.platform
                 CitationExample.caps CitationExample.srcs in
  map Orchestrator.citations fs
  = [[lit "s1"; lit "s1"; lit "s1"]; [lit "s1"]; [lit "s1"]]
  /\ forall c, In c (concat (map Orchestrator.citations fs)) -> c = lit "s1".
Proof.
  intros fs. split; [vm_compute; reflexivity|].
  intros c Hc. apply in_concat in Hc as [cs [Hcs Hc]].
  apply in_map_iff in Hcs as [f [<- Hf]].
  destruct (@deterministic_findings_cite_first_source Latin1.platform
              CitationExample.caps CitationExample.srcs f Hf) as (_ & H & _).
  destruct (H c Hc) as (s & rest & E & ->).
  inversion E. reflexivity.
Defined.

(** ** The run state machine *)

Lemma bind_inv {S A B} (c : M S A) (f : A -> M S B) s r s'' :
  bind c f s = (r, s'') ->
  (exists a s', c s = (Ok a, s') /\ f a s' = (r, s''))
  \/ (exists e, c s = (Throw e, s'') /\ r = Throw e).
Proof.
  unfold bind. destruct (c s) as [[a|e] s'].
  - intros H. left. exists a, s'. auto.
  - intros H. inversion H; subst. right. exists e. auto.
Qed.

Lemma tryCatch_inv {S A} (c : M S A) (h : ustring -> M S A) s r s'' :
  tryCatch c h s = (r, s'') ->
  (exists a, c s = (Ok a, s'') /\ r = Ok a)
  \/ (exists e s', c s = (Throw e, s') /\ h e s' = (r, s'')).
Proof.
  unfold tryCatch. destruct (c s) as [[a|e] s'].
  - intros H. inversion H; subst. left. exists a. auto.
  - intros H. right. exists e, s'. auto.
Qed.

Ltac bind_ok H a w' H1 :=
  apply bind_inv in H;
  destruct H as [(a & w' & H1 & H) | (? & _ & ?)]; [|discriminate].

Module RunFacts.
Import Orchestrator.

(** What no step of a run changes: the ids of the [Run] rows, the credit
    budgets, the id counter and the clock. *)
Definition Frame (w w' : World) : Prop :=
  map run_id (runs w') = map run_id (runs w)
  /\ credits w' = credits w
  /\ nextRunId w' = nextRunId w
  /\ now w' = now w.

Definition Framed {A} (c : M World A) : Prop :=
  forall w r w', c w = (r, w') -> Frame w w'.

(** The statuses a step persists through [setStatus] for the run. *)
Definition Logged {A} (runId : ustring) (c : M World A)
  (l : list RunStatus) : Prop :=
  forall w a w', c w = (Ok a, w') ->
    statusLog w' = statusLog w ++ map (pair runId) l.

Definition successChain : list RunStatus :=
  [DISCOVERING; EXTRACTING; EXTRACTING; SYNTHESIZING; SYNTHESIZING;
   QA; QA; COMPLETE].

(** A list without its immediate repetitions. *)
Fixpoint collapse (l : list RunStatus) : list RunStatus :=
  match l with
  | a :: (b :: _) as t =>
      if RunStatus_eqb a b then collapse t else a :: collapse t
  | _ => l
  end.

End RunFacts.
Import RunFacts.

Lemma Frame_refl w : Frame w w.
Proof. repeat split. Qed.

Lemma Frame_trans w1 w2 w3 : Frame w1 w2 -> Frame w2 w3 -> Frame w1 w3.
Proof.
  intros (A1 & A2 & A3 & A4) (B1 & B2 & B3 & B4).
  repeat split; congruence.
Qed.

Lemma Framed_ret {A} (a : A) : Framed (ret a).
Proof. intros w r w' H. inversion H; subst. apply Frame_refl. Qed.




Lemma Framed_tryCatch {A} (c : M Orchestrator.World A) h :
  Framed c -> (forall e, Framed (h e)) -> Framed (tryCatch c h).
Proof.
  intros Hc Hh w r w'' H. apply tryCatch_inv in H.
  destruct H as [(a & H1 & _) | (e & w' & H1 & H2)].
  - eapply Hc; eauto.
  - eapply Frame_trans; [eapply Hc | eapply Hh]; eauto.
Qed.

Lemma map_run_id_update runId (f : Orchestrator.Run -> Orchestrator.Run) l :
  (forall r, Orchestrator.run_id (f r) = Orchestrator.run_id r) ->
  map Orchestrator.run_id
    (map (fun r => if ueqb (Orchestrator.run_id r) runId then f r else r) l)
  = map Orchestrator.run_id l.
Proof.
  intros Hf. induction l as [|r l IH]; simpl; [reflexivity|].
  rewrite IH. destruct (ueqb (Orchestrator.run_id r) runId); [rewrite Hf|];
    reflexivity.
Qed.

Lemma Framed_runUpdate runId f :
  (forall r, Orchestrator.run_id (f r) = Orchestrator.run_id r) ->
  Framed (Orchestrator.runUpdate runId f).
Proof.
  intros Hf w r w' H. unfold Orchestrator.runUpdate in H.
  destruct (Orchestrator.findRun runId w); inversion H; subst;
    [|apply Frame_refl].
  repeat split. simpl. apply map_run_id_update. exact Hf.
Qed.

Lemma Framed_runLogCreate runId line :
  Framed (Orchestrator.runLogCreate runId line).
Proof.
  intros w r w' H. unfold Orchestrator.runLogCreate in H.
  destruct (Orchestrator.findRun runId w); inversion H; subst;
    repeat split.
Qed.


Lemma Framed_appendLog runId line :
  Framed (Orchestrator.appendLog runId line).
Proof.
  unfold Orchestrator.appendLog.
  apply Framed_tryCatch; [apply Framed_runLogCreate|]. intros _.
  apply Framed_tryCatch; [apply Framed_runUpdate; reflexivity|]. intros _.
  apply Framed_ret.
Qed.


Lemma runGuardrails_pure runId days w :
  exists g, Orchestrator.runGuardrails runId days w = (Ok g, w).
Proof. unfold Orchestrator.runGuardrails. eexists. reflexivity. Qed.





Lemma Logged_bind {A B} runId (c : M Orchestrator.World A)
  (f : A -> M Orchestrator.World B) l1 l2 :
  Logged runId c l1 -> (forall a, Logged runId (f a) l2) ->
  Logged runId (bind c f) (l1 ++ l2).
Proof.
  intros Hc Hf w b w'' H. bind_ok H a w' H1.
  rewrite (Hf a _ _ _ H), (Hc _ _ _ H1), map_app, app_assoc. reflexivity.
Qed.

Lemma runUpdate_statusLog runId f w r w' :
  Orchestrator.runUpdate runId f w = (r, w') ->
  Orchestrator.statusLog w' = Orchestrator.statusLog w.
Proof.
  unfold Orchestrator.runUpdate.
  destruct (Orchestrator.findRun runId w); intros H; inversion H; reflexivity.
Qed.

Lemma setStatus_Logged runId st note ts :
  Logged runId (Orchestrator.setStatus runId st note ts) [st].
Proof.
  intros w a w' H. unfold Orchestrator.setStatus in H.
  bind_ok H w0 w1 H0. inversion H0; subst.
  bind_ok H u w2 H1. inversion H; subst. simpl.
  rewrite (runUpdate_statusLog _ _ _ H1). reflexivity.
Qed.

Lemma appendLog_statusLog runId line w r w' :
  Orchestrator.appendLog runId line w = (r, w') ->
  r = Ok tt
  /\ Orchestrator.statusLog w' = Orchestrator.statusLog w
  /\ Orchestrator.runs w' = Orchestrator.runs w.
Proof.
  unfold Orchestrator.appendLog, tryCatch, Orchestrator.runLogCreate,
    Orchestrator.runUpdate.
  destruct (Orchestrator.findRun runId w) eqn:E; cbv beta iota;
    rewrite ?E; intros H; inversion H; subst; repeat split.
Qed.

Lemma appendLog_Logged runId line :
  Logged runId (Orchestrator.appendLog runId line) [].
Proof.
  intros w a w' H. apply appendLog_statusLog in H as (_ & -> & _).
  simpl. rewrite app_nil_r. reflexivity.
Qed.

Lemma phase_Logged {A} runId
  (f : Orchestrator.World -> Res A * Orchestrator.Tables) :
  Logged runId (Orchestrator.phase f) [].
Proof.
  intros w a w' H. unfold Orchestrator.phase in H.
  destruct (f w) as [r t]. inversion H; subst. simpl.
  rewrite app_nil_r. reflexivity.
Qed.

Lemma runGuardrails_Logged runId days :
  Logged runId (Orchestrator.runGuardrails runId days) [].
Proof.
  intros w a w' H. destruct (runGuardrails_pure runId days w) as [g E].
  rewrite E in H. inversion H; subst. simpl. rewrite app_nil_r. reflexivity.
Qed.

Lemma guardrailsAndComplete_Logged runId days reportId :
  Logged runId (Orchestrator.guardrailsAndComplete runId days reportId)
    [Orchestrator.QA; Orchestrator.COMPLETE].
Proof.
  unfold Orchestrator.guardrailsAndComplete.
  change [Orchestrator.QA; Orchestrator.COMPLETE]
    with ([Orchestrator.QA] ++ [] ++ [] ++ [Orchestrator.COMPLETE]).
  apply Logged_bind; [apply setStatus_Logged|]. intros _.
  apply Logged_bind; [apply runGuardrails_Logged|]. intros g.
  apply Logged_bind; [|intros _; apply setStatus_Logged].
  destruct (Orchestrator.issues g); apply appendLog_Logged.
Qed.

Lemma pipeline_Logged ph runId ts :
  Logged runId (Orchestrator.pipeline ph runId ts) successChain.
Proof.
  unfold Orchestrator.pipeline.
  change successChain
    with ([Orchestrator.DISCOVERING] ++ [] ++ [Orchestrator.EXTRACTING] ++ []
          ++ [Orchestrator.EXTRACTING] ++ [] ++ [Orchestrator.SYNTHESIZING]
          ++ [] ++ [Orchestrator.SYNTHESIZING] ++ [] ++ [Orchestrator.QA]
          ++ [] ++ [Orchestrator.QA; Orchestrator.COMPLETE] ++ []).
  repeat (apply Logged_bind;
          [first [apply setStatus_Logged | apply phase_Logged
                 | apply guardrailsAndComplete_Logged] | intros ?]).
  intros ? ? ? H. inversion H; subst. simpl. rewrite app_nil_r.
  reflexivity.
Qed.

(** The [catch] block of [orchestrateRun] always rethrows. *)
Lemma errorHandler_throws runId note line error w a w' :
  (Orchestrator.setStatus runId Orchestrator.ERROR note None ;;;
   Orchestrator.appendLog runId line ;;;
   @throw Orchestrator.World unit error)%eff w <> (Ok a, w').
Proof.
  intros H. bind_ok H u w1 H1. bind_ok H u2 w2 H2. discriminate H.
Qed.

(** C1, as the code has it.  A run of [orchestrateRun] that returns
    without an exception either found the run SKIPPED and persisted no
    status at all, or persisted, in this order, DISCOVERING, EXTRACTING,
    EXTRACTING, SYNTHESIZING, SYNTHESIZING, QA, QA, COMPLETE: the order
    NEW -> DISCOVERING -> EXTRACTING -> SYNTHESIZING -> QA -> COMPLETE
    with no status left out and none out of order, the three middle
    statuses being written twice. *)
Theorem orchestrateRun_status_sequence
  (ph : Orchestrator.Phases) (runId : ustring) (w w' : Orchestrator.World)
  (H : Orchestrator.orchestrateRun ph runId w = (Ok tt, w')) :
  exists run,
    Orchestrator.findRun runId w = Some run
    /\ ((Orchestrator.run_status run = Orchestrator.SKIPPED
         /\ Orchestrator.statusLog w' = Orchestrator.statusLog w)
        \/ (Orchestrator.run_status run <> Orchestrator.SKIPPED
            /\ Orchestrator.statusLog w'
               = Orchestrator.statusLog w ++ map (pair runId) successChain
            /\ collapse successChain
               = [Orchestrator.DISCOVERING; Orchestrator.EXTRACTING;
                  Orchestrator.SYNTHESIZING; Orchestrator.QA;
                  Orchestrator.COMPLETE])).
Proof.
  unfold Orchestrator.orchestrateRun in H.
  bind_ok H w0 w1 H0. inversion H0; subst w0 w1. clear H0.
  apply tryCatch_inv in H.
  destruct H as [(a & H & _) | (e & w1 & _ & H)];
    [|exfalso; exact (errorHandler_throws _ _ _ _ _ H)].
  destruct (Orchestrator.findRun runId w) as [run|]; [|discriminate H].
  exists run. split; [reflexivity|].
  destruct (Orchestrator.run_status run) eqn:E;
    try (right; split; [discriminate|]; split;
         [exact (pipeline_Logged _ _ _ _ H) | reflexivity]).
  left. inversion H; subst. auto.
Qed.

Module RunExample.
Import Orchestrator.

Definition emptyTables : Tables :=
  {| sources := []; findings := []; capabilities := []; competitors := [];
     runLogs := [] |}.

Definition run1 (st : RunStatus) : Run :=
  {| run_id := lit "run_1"; run_projectId := lit "proj_1"; run_status := st;
     run_lastNote := None; run_startedAt := None; run_completedAt := None;
     run_createdAt := 1000 |}.

Definition world (st : RunStatus) : World :=
  {| runs := [run1 st]; tables := emptyTables;
     credits := [(lit "user_1", {| used := 1; limit := 5 |})];
     nextRunId := 2; now := 700000000; statusLog := [] |}.

(** Collaborators that find nothing and never fail. *)
Definition quietPhases : Phases :=
  {| ph_discover := fun _ w => (Ok 0, tables w);
     ph_fetch := fun _ w => (Ok tt, tables w);
     ph_extract := fun _ w => (Ok tt, tables w);
     ph_synthesize := fun _ w => (Ok tt, tables w);
     ph_report := fun _ w => (Ok (lit "report_1"), tables w);
     ph_changes := fun _ w => (Ok tt, tables w);
     ph_notify := fun _ w => tables w;
     ph_stalenessDays := 180;
     ph_errorString := fun _ => lit "Error";
     ph_errorStack := fun e => Some (lit "Error: " ++ e) |}.

(** Collaborators whose extraction fails. *)
Definition failingPhases : Phases :=
  {| ph_discover := fun _ w => (Ok 0, tables w);
     ph_fetch := fun _ w => (Ok tt, tables w);
     ph_extract := fun _ w => (Throw (lit "Transaction failed"), tables w);
     ph_synthesize := fun _ w => (Ok tt, tables w);
     ph_report := fun _ w => (Ok (lit "report_1"), tables w);
     ph_changes := fun _ w => (Ok tt, tables w);
     ph_notify := fun _ w => tables w;
     ph_stalenessDays := 180;
     ph_errorString := fun _ => lit "Error";
     ph_errorStack := fun e => Some (lit "Error: " ++ e) |}.

End RunExample.

Lemma orchestrateRun_status_sequence_witness :
  exists run,
    Orchestrator.findRun (lit "run_1") (RunExample.world Orchestrator.NEW)
    = Some run
    /\ ((Orchestrator.run_status run = Orchestrator.SKIPPED
         /\ Orchestrator.statusLog
              (snd (Orchestrator.orchestrateRun RunExample.quietPhases
                      (lit "run_1") (RunExample.world Orchestrator.NEW)))
            = [])
        \/ (Orchestrator.run_status run <> Orchestrator.SKIPPED
            /\ Orchestrator.statusLog
                 (snd (Orchestrator.orchestrateRun RunExample.quietPhases
                         (lit "run_1") (RunExample.world Orchestrator.NEW)))
               = [] ++ map (pair (lit "run_1")) successChain
            /\ collapse successChain
               = [Orchestrator.DISCOVERING; Orchestrator.EXTRACTING;
                  Orchestrator.SYNTHESIZING; Orchestrator.QA;
                  Orchestrator.COMPLETE])).
Proof.
  apply (@orchestrateRun_status_sequence RunExample.quietPhases (lit "run_1")
           (RunExample.world Orchestrator.NEW)
           (snd (Orchestrator.orchestrateRun RunExample.quietPhases
                   (lit "run_1") (RunExample.world Orchestrator.NEW)))).
  vm_compute. reflexivity.
Defined.

(** C1, as the claim states it, fails: a run that is SKIPPED at entry
    returns without an exception and has persisted none of the
    statuses. *)
Lemma orchestrateRun_skipped_persists_nothing :
  ~ forall ph runId w w',
      Orchestrator.orchestrateRun ph runId w = (Ok tt, w') ->
      collapse (map snd (skipn (length (Orchestrator.statusLog w))
                           (Orchestrator.statusLog w')))
      = [Orchestrator.DISCOVERING; Orchestrator.EXTRACTING;
         Orchestrator.SYNTHESIZING; Orchestrator.QA; Orchestrator.COMPLETE].
Proof.
  intros H.
  specialize (H RunExample.quietPhases (lit "run_1")
                (RunExample.world Orchestrator.SKIPPED)
                (RunExample.world Orchestrator.SKIPPED) eq_refl).
  vm_compute in H. discriminate H.
Qed.

(** ** Guardrails *)

Lemma find_update runId (f : Orchestrator.Run -> Orchestrator.Run) l r :
  (forall x, Orchestrator.run_id (f x) = Orchestrator.run_id x) ->
  find (fun x => ueqb (Orchestrator.run_id x) runId) l = Some r ->
  find (fun x => ueqb (Orchestrator.run_id x) runId)
       (map (fun x => if ueqb (Orchestrator.run_id x) runId then f x else x) l)
  = Some (f r).
Proof.
  intros Hf. induction l as [|x l IH]; simpl; [discriminate|].
  destruct (ueqb (Orchestrator.run_id x) runId) eqn:E.
  - intros H. inversion H; subst. simpl. rewrite Hf, E. reflexivity.
  - intros H. simpl. rewrite E. apply IH. exact H.
Qed.

Lemma setStatus_found runId st note ts w run :
  Orchestrator.findRun runId w = Some run ->
  exists w' run',
    Orchestrator.setStatus runId st note ts w = (Ok tt, w')
    /\ Orchestrator.findRun runId w' = Some run'
    /\ Orchestrator.run_status run' = st.
Proof.
  intros Hrun. unfold Orchestrator.setStatus, bind, get, modify,
    Orchestrator.runUpdate.
  rewrite Hrun. eexists. eexists. split; [reflexivity|].
  unfold Orchestrator.findRun in *. simpl. split.
  - apply find_update; [reflexivity | exact Hrun].
  - reflexivity.
Qed.

Lemma appendLog_found runId line w run :
  Orchestrator.findRun runId w = Some run ->
  exists w',
    Orchestrator.appendLog runId line w = (Ok tt, w')
    /\ Orchestrator.findRun runId w' = Some run.
Proof.
  intros Hrun.
  destruct (Orchestrator.appendLog runId line w) as [r w'] eqn:E.
  destruct (appendLog_statusLog _ _ _ E) as (-> & _ & Hr).
  exists w'. split; [reflexivity|].
  unfold Orchestrator.findRun in *. rewrite Hr. exact Hrun.
Qed.

Module GuardrailFacts.
Import Orchestrator.

Definition sourcesOf (runId : ustring) (w : World) : list Source :=
  filter (fun s => ueqb (src_runId s) runId) (sources (tables w)).

Definition lowSourceCount3 : ustring :=
  lit "Low source count: Only 3 sources found. Consider expanding search queries.".

End GuardrailFacts.
Import GuardrailFacts.

(** C8.  [runGuardrails] returns normally on every state of the database
    and leaves it as it was, the status of the run included; with exactly
    3 sources its issue list has the "Low source count" entry; and
    whatever the guardrails find, the steps that follow them in
    [orchestrateRun] bring a run that exists to COMPLETE. *)
Theorem runGuardrails_nonfatal (runId : ustring) (stalenessDays : nat)
  (w : Orchestrator.World) :
  (exists g,
     Orchestrator.runGuardrails runId stalenessDays w = (Ok g, w)
     /\ (length (sourcesOf runId w) = 3 ->
         In lowSourceCount3 (Orchestrator.issues g)))
  /\ (forall reportId run,
        Orchestrator.findRun runId w = Some run ->
        exists w' run',
          Orchestrator.guardrailsAndComplete runId stalenessDays reportId w
          = (Ok tt, w')
          /\ Orchestrator.findRun runId w' = Some run'
          /\ Orchestrator.run_status run' = Orchestrator.COMPLETE).
Proof.
  split.
  - unfold Orchestrator.runGuardrails. eexists. split; [reflexivity|].
    unfold sourcesOf. intros H3. cbn [Orchestrator.issues]. rewrite H3.
    apply in_or_app. right. apply in_or_app. left. left. reflexivity.
  - intros reportId run Hrun. unfold Orchestrator.guardrailsAndComplete.
    destruct (@setStatus_found runId Orchestrator.QA
                (Some (lit "Running guardrails" ++ Orchestrator.ellipsis))
                None w run Hrun) as (w1 & run1 & E1 & Hrun1 & _).
    erewrite bind_Ok; [|exact E1].
    destruct (runGuardrails_pure runId stalenessDays w1) as [g Eg].
    erewrite bind_Ok; [|exact Eg].
    assert (A : exists w2,
               (match Orchestrator.issues g with
                | [] => Orchestrator.appendLog runId
                          (lit "Guardrails: All checks passed")
                | _ :: _ => Orchestrator.appendLog runId
                              (lit "Guardrails: "
                               ++ join (lit "; ") (Orchestrator.issues g))
                end) w1 = (Ok tt, w2)
               /\ Orchestrator.findRun runId w2 = Some run1).
    { destruct (Orchestrator.issues g); apply appendLog_found; exact Hrun1. }
    destruct A as (w2 & E2 & Hrun2).
    erewrite bind_Ok; [|exact E2].
    apply setStatus_found with (run := run1). exact Hrun2.
Qed.

Module GuardrailExample.
Import Orchestrator.

Definition src (id : string) (st : SourceStatus) : Source :=
  {| src_id := lit id; src_runId := lit "run_1";
     src_url := lit "https://" ++ lit id ++ lit ".example/";
     src_status := st; src_notes := None |}.

Definition world : World :=
  {| runs := [RunExample.run1 QA];
     tables := {| sources := [src "s1" SrcOK; src "s2" SrcERROR;
                              src "s3" SrcOK];
                  findings := []; capabilities := []; competitors := [];
                  runLogs := [] |};
     credits := []; nextRunId := 2; now := 700000000; statusLog := [] |}.

End GuardrailExample.

Lemma runGuardrails_nonfatal_witness :
  (exists g,
     Orchestrator.runGuardrails (lit "run_1") 180 GuardrailExample.world
     = (Ok g, GuardrailExample.world)
     /\ In lowSourceCount3 (Orchestrator.issues g))
  /\ (exists w' run',
        Orchestrator.guardrailsAndComplete (lit "run_1") 180 (lit "report_1")
          GuardrailExample.world = (Ok tt, w')
        /\ Orchestrator.findRun (lit "run_1") w' = Some run'
        /\ Orchestrator.run_status run' = Orchestrator.COMPLETE).
Proof.
  destruct (runGuardrails_nonfatal (lit "run_1") 180 GuardrailExample.world)
    as [[g [Hg Hlow]] Hc].
  split.
  - exists g. split; [exact Hg | apply Hlow; reflexivity].
  - apply (Hc (lit "report_1") (RunExample.run1 Orchestrator.QA)).
    reflexivity.
Defined.

(** ** The AUTO_RERUN handler *)

Module SchedulerFacts.
Import Orchestrator Scheduler.




End SchedulerFacts.
Import SchedulerFacts.




Module SchedulerExample.
Import Orchestrator Scheduler.

Definition task : ScheduledTask :=
  {| task_id := lit "task_1"; task_type := AUTO_RERUN;
     task_projectId := Some (lit "proj_1"); task_runId := None;
     task_scheduledFor := 699999999; task_priority := 1;
     task_userId := Some (lit "user_1") |}.


End SchedulerExample.


(** ** Feature dedup and the rows sent to the database *)

Lemma map_get_In {V} k (m : list (ustring * V)) v :
  map_get k m = Some v -> In (k, v) m.
Proof.
  induction m as [|[k' v'] m IH]; simpl; [discriminate|].
  destruct (ueqb k k') eqn:E.
  - intros H. inversion H; subst. apply ueqb_eq in E. subst. left. reflexivity.
  - intros H. right. auto.
Qed.

Lemma map_get_None {V} k (m : list (ustring * V)) :
  map_get k m = None <-> ~ In k (map fst m).
Proof.
  induction m as [|[k' v'] m IH]; simpl; [tauto|].
  destruct (ueqb k k') eqn:E.
  - apply ueqb_eq in E. subst. split; [discriminate | intros H; exfalso; auto].
  - apply ueqb_neq in E. rewrite IH. split.
    + intros H [H1|H1]; [congruence | auto].
    + intros H H1. apply H. auto.
Qed.

Lemma map_set_absent {V} k (v : V) m :
  map_get k m = None -> map_set k v m = m ++ [(k, v)].
Proof.
  induction m as [|[k' v'] m IH]; simpl; [reflexivity|].
  destruct (ueqb k k'); [discriminate|]. intros H. rewrite IH; auto.
Qed.

Module DedupFacts.
Import Stages.

(** One step of the loop that fills [featureByKey]. *)
Definition keepFirst (m : list (ustring * FeatureCandidate))
  (candidate : FeatureCandidate) : list (ustring * FeatureCandidate) :=
  if map_has (featureKey candidate) m then m
  else map_set (featureKey candidate) candidate m.

(** [c] is the first candidate of [cs] with its key. *)
Definition firstWithKey (cs : list FeatureCandidate) (c : FeatureCandidate)
  : Prop :=
  exists l1 l2, cs = l1 ++ c :: l2
                /\ forall c', In c' l1 -> featureKey c' <> featureKey c.

End DedupFacts.
Import DedupFacts.

Lemma keepFirst_fold cs : forall m c,
  In c (map snd (fold_left keepFirst cs m)) <->
  In c (map snd m)
  \/ (~ In (Stages.featureKey c) (map fst m) /\ firstWithKey cs c).
Proof.
  induction cs as [|x cs IH]; intros m c; simpl.
  - split; [auto|]. intros [H|[_ (l1 & l2 & E & _)]]; [exact H|].
    destruct l1; discriminate E.
  - rewrite IH. unfold keepFirst, map_has.
    destruct (map_get (Stages.featureKey x) m) as [v|] eqn:G.
    + (* the key of x is taken: x is dropped *)
      apply map_get_In in G.
      assert (Kx : In (Stages.featureKey x) (map fst m))
        by (apply in_map_iff; exists (Stages.featureKey x, v); auto).
      split.
      * intros [H|[Hn (l1 & l2 & E & F)]]; [auto|].
        right. split; [exact Hn|].
        exists (x :: l1), l2. split; [simpl; rewrite E; reflexivity|].
        intros c' [<-|Hc']; [|auto]. intros Ek. apply Hn. rewrite <- Ek. exact Kx.
      * intros [H|[Hn (l1 & l2 & E & F)]]; [auto|].
        destruct l1 as [|y l1].
        -- simpl in E. inversion E; subst. contradiction.
        -- simpl in E. inversion E; subst. right. split; [exact Hn|].
           exists l1, l2. split; [reflexivity|]. intros c' Hc'. apply F. right. exact Hc'.
    + (* the key of x is new: x is appended *)
      rewrite (map_set_absent _ _ _ G).
      apply map_get_None in G.
      rewrite !map_app. simpl. rewrite !in_app_iff. simpl. split.
      * intros [[H|[<-|[]]]|[Hn (l1 & l2 & E & F)]].
        -- auto.
        -- right. split; [exact G|]. exists [], cs. split; [reflexivity|].
           intros c' [].
        -- right. split; [tauto|].
           exists (x :: l1), l2. split; [simpl; rewrite E; reflexivity|].
           intros c' [<-|Hc']; [|auto]. intros Ek. apply Hn. right. left.
           exact Ek.
      * intros [H|[Hn (l1 & l2 & E & F)]]; [auto|].
        destruct l1 as [|y l1].
        -- simpl in E. inversion E; subst. left. right. left. reflexivity.
        -- simpl in E. inversion E; subst. right. split.
           ++ intros [H|[H|[]]]; [auto|]. apply (F y); [left; reflexivity|exact H].
           ++ exists l1, l2. split; [reflexivity|]. intros c' Hc'. apply F.
              right. exact Hc'.
Qed.

(** The dedup itself is first-wins on the key built from the candidate's
    [competitorId] and [normalized]: a candidate is kept exactly when no
    earlier candidate has its key. *)
Lemma featureCreates_first_wins cs c :
  In c (Stages.featureCreates cs) <-> firstWithKey cs c.
Proof.
  unfold Stages.featureCreates, Stages.featureByKey.
  change (fun m candidate =>
            if map_has (Stages.featureKey candidate) m then m
            else map_set (Stages.featureKey candidate) candidate m)
    with keepFirst.
  rewrite keepFirst_fold. simpl. tauto.
Qed.

Module DedupExample.
Import Stages.

(** A page of competitor [comp_1] read by the regular expressions: the
    synonym table names the hit "Audit Logs" and gives it the singular
    key "audit log". *)
Definition regexCandidate : FeatureCandidate :=
  {| fc_runId := lit "run_1"; fc_name := lit "Audit Logs";
     fc_normalized := lit "audit log"; fc_sourceId := lit "s1";
     fc_description := None; fc_competitorId := Some (lit "comp_1") |}.

(** Another page of the same competitor read by the AI extraction, which
    reports the capability "Audit Logs"; its key is
    [normalizeFeature("Audit Logs")]. *)
Definition aiCandidate : FeatureCandidate :=
  {| fc_runId := lit "run_1"; fc_name := lit "Audit Logs";
     fc_normalized := lit "audit logs"; fc_sourceId := lit "s2";
     fc_description := None; fc_competitorId := Some (lit "comp_1") |}.

End DedupExample.

(** The regex path does produce the first candidate. *)
Lemma regexCandidate_from_text :
  map (fun h => (Capabilities.name h, Capabilities.normalized h))
      (@Capabilities.extractCapabilities Latin1.platform
         (lit "Tamper-proof audit logs for every change"))
  = [(Stages.fc_name DedupExample.regexCandidate,
      Stages.fc_normalized DedupExample.regexCandidate)]
  /\ @normalizeFeature Latin1.platform (lit "Audit Logs")
     = Stages.fc_normalized DedupExample.aiCandidate.
Proof. split; vm_compute; reflexivity. Qed.

(** C7 at the failing input.  The two candidates have different dedup
    keys, so both are kept; the rows built from them carry the same
    competitor and the same [normalized] value, recomputed from the name,
    and violate the unique index of the [Feature] table. *)
Theorem featureRows_same_pair_twice :
  exists r1 r2 catalog',
    @Stages.featureRows Latin1.platform
      [DedupExample.regexCandidate; DedupExample.aiCandidate] emptyCatalog
    = (Ok [r1; r2], catalog')
    /\ Stages.fr_competitorId r1 = Some (lit "comp_1")
    /\ Stages.fr_competitorId r2 = Some (lit "comp_1")
    /\ Stages.fr_normalized r1 = lit "audit logs"
    /\ Stages.fr_normalized r2 = lit "audit logs"
    /\ Stages.fr_sourceId r1 = lit "s1"
    /\ Stages.fr_sourceId r2 = lit "s2"
    /\ Stages.uniqueIndexHolds [r1; r2] = false.
Proof.
  eexists. eexists. eexists. split; [vm_compute; reflexivity|].
  repeat split.
Qed.

(** ** Feature opportunities *)

Lemma map_get_set_same {V} k (v : V) m : map_get k (map_set k v m) = Some v.
Proof.
  induction m as [|[k' v'] m IH]; simpl.
  - rewrite ueqb_refl. reflexivity.
  - destruct (ueqb k k') eqn:E; simpl; rewrite E; [reflexivity | exact IH].
Qed.

Lemma map_get_set_other {V} k k' (v : V) m :
  k' <> k -> map_get k' (map_set k v m) = map_get k' m.
Proof.
  intros Hne. induction m as [|[k0 v0] m IH]; simpl.
  - apply ueqb_neq in Hne. rewrite Hne. reflexivity.
  - destruct (ueqb k k0) eqn:E; simpl.
    + apply ueqb_eq in E. subst k0. apply ueqb_neq in Hne. rewrite Hne.
      reflexivity.
    + rewrite IH. reflexivity.
Qed.

Lemma map_set_keys {V} k (v : V) m :
  map fst (map_set k v m)
  = if map_has k m then map fst m else map fst m ++ [k].
Proof.
  unfold map_has. induction m as [|[k' v'] m IH]; simpl; [reflexivity|].
  destruct (ueqb k k') eqn:E; simpl; [reflexivity|].
  rewrite IH. destruct (map_get k m); reflexivity.
Qed.

Lemma NoDup_map_set {V} k (v : V) m :
  NoDup (map fst m) -> NoDup (map fst (map_set k v m)).
Proof.
  intros N. rewrite map_set_keys. unfold map_has.
  destruct (map_get k m) eqn:G; [exact N|].
  apply map_get_None in G.
  apply NoDup_app; [exact N | repeat constructor; intros [] | ].
  intros x Hx [<-|[]]. exact (G Hx).
Qed.

Lemma In_map_get {V} k (v : V) m :
  NoDup (map fst m) -> In (k, v) m -> map_get k m = Some v.
Proof.
  induction m as [|[k' v'] m IH]; simpl; [intros _ []|].
  intros N [H|H].
  - inversion H; subst. rewrite ueqb_refl. reflexivity.
  - inversion N as [|? ? Hn N']; subst.
    destruct (ueqb k k') eqn:E; [|auto].
    apply ueqb_eq in E. subst k'. exfalso. apply Hn.
    apply in_map_iff. exists (k, v). auto.
Qed.

Module SuggestionFacts.
Import Suggestions.

Section WithPlatform.
Context {P : Platform}.





Definition step (bucket : Bucket) (m : list (ustring * Suggestion))
  (feat : Feature) : list (ustring * Suggestion) :=
  recordFeatureEvidence m (evidenceNormalized feat) (evidenceName feat)
    (ft_competitorName feat)
    (match bucket with Current => ft_sourceId feat | Historical => None end)
    bucket.

End WithPlatform.
End SuggestionFacts.
Import SuggestionFacts.








(** ** The stable sort and its first elements *)

Lemma insertDesc_In {A} (f : A -> nat) a l x :
  In x (Stages.insertDesc f a l) <-> x = a \/ In x l.
Proof.
  induction l as [|y l IH]; simpl; [intuition|].
  destruct (Nat.leb (f y) (f a)); simpl; [intuition|].
  rewrite IH. intuition.
Qed.

Lemma sortDesc_In {A} (f : A -> nat) l x :
  In x (Stages.sortDesc f l) <-> In x l.
Proof.
  unfold Stages.sortDesc. induction l as [|y l IH]; simpl; [tauto|].
  rewrite insertDesc_In, IH. intuition.
Qed.

Lemma insertDesc_length {A} (f : A -> nat) a l :
  length (Stages.insertDesc f a l) = S (length l).
Proof.
  induction l as [|y l IH]; simpl; [reflexivity|].
  destruct (Nat.leb (f y) (f a)); simpl; [reflexivity|]. rewrite IH. reflexivity.
Qed.

Lemma insertDesc_sorted {A} (f : A -> nat) a l :
  StronglySorted (fun x y => f y <= f x) l ->
  StronglySorted (fun x y => f y <= f x) (Stages.insertDesc f a l).
Proof.
  induction 1 as [|y l S IH F]; simpl.
  - constructor; constructor.
  - destruct (Nat.leb_spec (f y) (f a)) as [Hle|Hgt].
    + constructor; [constructor; assumption|].
      constructor; [exact Hle|].
      rewrite Forall_forall in *. intros z Hz. specialize (F z Hz). lia.
    + constructor; [exact IH|].
      rewrite Forall_forall in *. intros z Hz.
      apply insertDesc_In in Hz as [->|Hz]; [lia | auto].
Qed.

Lemma sortDesc_sorted {A} (f : A -> nat) l :
  StronglySorted (fun x y => f y <= f x) (Stages.sortDesc f l).
Proof.
  unfold Stages.sortDesc. induction l as [|y l IH]; simpl;
    [constructor | apply insertDesc_sorted; exact IH].
Qed.

Lemma firstn_sorted {A} (R : A -> A -> Prop) n l :
  StronglySorted R l -> StronglySorted R (firstn n l).
Proof.
  intros S. revert n. induction S as [|y l S IH F]; intros [|n]; simpl;
    try constructor.
  - apply IH.
  - rewrite Forall_forall in *. intros z Hz. apply F.
    eapply firstn_In. exact Hz.
Qed.


(** An element of a sorted list is among its first [n] or comes after
    each of them in the order. *)
Lemma firstn_top {A} (R : A -> A -> Prop) n l e :
  StronglySorted R l -> In e l ->
  In e (firstn n l) \/ forall s, In s (firstn n l) -> R s e.
Proof.
  intros S. revert n. induction S as [|y l S IH F]; intros n He;
    [destruct He|].
  destruct n as [|n]; [right; intros s []|]. simpl.
  destruct He as [->|He]; [auto|].
  destruct (IH n He) as [H|H]; [auto|]. right.
  intros s [<-|Hs]; [|auto].
  rewrite Forall_forall in F. auto.
Qed.







Module CitationFacts.
Import Suggestions.
Section WithPlatform.
Context {P : Platform}.



End WithPlatform.
End CitationFacts.
Import CitationFacts.

Lemma addAlias_In x l y : In y (Features.addAlias x l) <-> In y l \/ y = x.
Proof.
  unfold Features.addAlias. destruct (mem x l) eqn:M.
  - apply mem_In in M. split; [auto|]. intros [H| ->]; auto.
  - rewrite in_app_iff. simpl. intuition auto.
Qed.














Module SuggestionExample.
Import Features Suggestions.

Definition def (nm norm : string) : FeatureDefinition :=
  {| fd_id := lit "fd_" ++ lit norm; fd_name := lit nm;
     fd_normalized := lit norm; fd_description := None;
     fd_category := None; fd_origin := COMPETITOR; fd_aliases := [] |}.

Definition row (runId : string) (d : FeatureDefinition)
  (sourceId comp : option string) (t : Z) : Feature :=
  {| ft_runId := lit runId; ft_name := fd_name d;
     ft_normalized := fd_normalized d;
     ft_sourceId := option_map lit sourceId; ft_definition := Some d;
     ft_competitorName := option_map lit comp;
     ft_industry := Some (lit "fintech"); ft_createdAt := t |}.

Definition sso := def "Single Sign On" "single sign on".
Definition audit := def "Audit Logs" "audit logs".
Definition hooks := def "Webhooks" "webhooks".

(** The run [run_1] saw single sign-on on two sources and audit logs on
    one; an earlier run of the industry saw webhooks twice.  The project
    declares audit logs. *)
Definition table : list Feature :=
  [ row "run_0" hooks (Some "s8"%string) (Some "Acme"%string) 10;
    row "run_0" hooks (Some "s9"%string) (Some "Bolt"%string) 11;
    row "run_1" sso (Some "s1"%string) (Some "Acme"%string) 20;
    row "run_1" sso (Some "s2"%string) (Some "Bolt"%string) 21;
    row "run_1" audit (Some "s1"%string) (Some "Acme"%string) 22 ].


End SuggestionExample.



(* ================================================================== *)
(** * Further properties of the code *)
(* ================================================================== *)

From Stdlib Require Import Permutation.

(* ================================================================== *)
(** * Further properties of the canonicalization engine *)
(* ================================================================== *)

(** X1.  The shape of a normalized key, on every platform: only the units
    [a-z0-9+] and the space, no space at either end and no two spaces in
    a row. *)
Theorem normalizeFeature_shape (P : Platform) (x : ustring) :
  let k := normalizeFeature x in
  (forall c, In c k -> is_alphanum_plus c = true \/ c = 32%N)
  /\ (forall t, k <> 32%N :: t)
  /\ (forall t, k <> t ++ [32%N])
  /\ (forall a b, k <> a ++ 32%N :: 32%N :: b).
Proof.
  intros k. pose proof (normalizeFeature_tidy x) as T. fold k in T.
  unfold tidy in T. rewrite !andb_true_iff in T.
  destruct T as [[[T1 T2] T3] T4]. repeat split.
  - intros c Hc. rewrite forallb_forall in T1. specialize (T1 c Hc).
    unfold okc in T1. apply orb_true_iff in T1 as [H|H]; [auto|].
    right. apply N.eqb_eq. exact H.
  - intros t E. rewrite E in T3. discriminate T3.
  - intros t E. rewrite E, rev_app_distr in T4. discriminate T4.
  - intros a b E. rewrite E in T2. apply nodbl_app_r in T2. discriminate T2.
Qed.

Lemma ascii_lower_facts c :
  is_ascii c = true ->
  is_ascii (ascii_lower c) = true /\ is_ascii (ascii_upper c) = true
  /\ ascii_lower (ascii_upper c) = ascii_lower c
  /\ ascii_lower (ascii_lower c) = ascii_lower c
  /\ is_combining_mark c = false.
Proof.
  intros Ha.
  assert (E : (is_ascii (ascii_lower c) && is_ascii (ascii_upper c)
               && N.eqb (ascii_lower (ascii_upper c)) (ascii_lower c)
               && N.eqb (ascii_lower (ascii_lower c)) (ascii_lower c)
               && negb (is_combining_mark c))%bool = true).
  { ascii_cases c Ha. }
  rewrite !andb_true_iff in E. destruct E as [[[[E1 E2] E3] E4] E5].
  apply N.eqb_eq in E3, E4. apply negb_true_iff in E5. auto.
Qed.

Lemma forallb_map_ascii (f : N -> N) s :
  (forall c, is_ascii c = true -> is_ascii (f c) = true) ->
  forallb is_ascii s = true -> forallb is_ascii (map f s) = true.
Proof.
  intros Hf. induction s as [|c s IH]; simpl; [reflexivity|].
  intros H. apply andb_true_iff in H as [Hc Hs]. rewrite (Hf c Hc). auto.
Qed.

Lemma filter_marks_ascii s :
  forallb is_ascii s = true ->
  filter (fun c => negb (is_combining_mark c)) s = s.
Proof.
  induction s as [|c s IH]; simpl; [reflexivity|].
  intros H. apply andb_true_iff in H as [Hc Hs].
  destruct (ascii_lower_facts c Hc) as (_ & _ & _ & _ & ->). simpl.
  f_equal. auto.
Qed.

(** On ASCII input the key is computed from the lower-cased string. *)
Lemma normalizeFeature_ascii_core {P : Platform} {L : PlatformLaws P} s :
  forallb is_ascii s = true ->
  normalizeFeature s
  = trim (replaceMultispace false (replaceNonAlphanum (map ascii_lower s))).
Proof.
  intros H. unfold normalizeFeature.
  rewrite nfkd_ascii, filter_marks_ascii, toLowerCase_ascii by assumption.
  reflexivity.
Qed.

(** On ASCII input, a map on the units that keeps them ASCII and keeps
    their lower case does not change the key. *)
Lemma normalizeFeature_ascii_map {P : Platform} {L : PlatformLaws P}
  (f : N -> N) (s : ustring) :
  (forall c, is_ascii c = true ->
     is_ascii (f c) = true /\ ascii_lower (f c) = ascii_lower c) ->
  forallb is_ascii s = true ->
  normalizeFeature (map f s) = normalizeFeature s.
Proof.
  intros Hf H.
  rewrite (normalizeFeature_ascii_core (map f s)),
          (normalizeFeature_ascii_core s); auto.
  - do 3 f_equal. rewrite map_map. clear -H Hf.
    induction s as [|c s IH]; simpl; [reflexivity|].
    simpl in H. apply andb_true_iff in H as [Hc Hs].
    destruct (Hf c Hc) as [_ ->]. f_equal. auto.
  - apply forallb_map_ascii; [|exact H]. intros c Hc. apply Hf. exact Hc.
Qed.

(** X2.  [normalizeFeature] ignores the case of ASCII letters. *)
Theorem normalizeFeature_ascii_case (P : Platform) (L : PlatformLaws P)
  (s : ustring) (H : forallb is_ascii s = true) :
  normalizeFeature (map ascii_upper s) = normalizeFeature s
  /\ normalizeFeature (map ascii_lower s) = normalizeFeature s.
Proof.
  split; apply normalizeFeature_ascii_map; try exact H; intros c Hc;
    destruct (ascii_lower_facts c Hc) as (A1 & A2 & A3 & A4 & _); auto.
Qed.

Lemma normalizeFeature_ascii_case_witness :
  @normalizeFeature Latin1.platform (map ascii_upper (lit "Single Sign-On"))
  = @normalizeFeature Latin1.platform (lit "Single Sign-On")
  /\ @normalizeFeature Latin1.platform (map ascii_lower (lit "Single Sign-On"))
     = @normalizeFeature Latin1.platform (lit "Single Sign-On").
Proof.
  apply (@normalizeFeature_ascii_case Latin1.platform latin1_laws).
  reflexivity.
Defined.

Lemma join_split sep s : join [sep] (split sep s) = s.
Proof.
  induction s as [|c s IH]; simpl; [reflexivity|].
  destruct (N.eqb_spec c sep) as [->|Hne].
  - destruct (split sep s) as [|h r] eqn:E; simpl in *.
    + destruct s; [discriminate E|]. simpl in E.
      destruct (N.eqb n sep); [discriminate E|].
      destruct (split sep s); discriminate E.
    + f_equal. exact IH.
  - destruct (split sep s) as [|h r] eqn:E.
    + destruct s; [discriminate E|]. simpl in E.
      destruct (N.eqb n sep); [discriminate E|].
      destruct (split sep s); discriminate E.
    + simpl in *. destruct r; simpl in *; f_equal; exact IH.
Qed.

Lemma map_join (f : N -> N) sep l :
  map f (join sep l) = join (map f sep) (map (map f) l).
Proof.
  induction l as [|x l IH]; simpl; [reflexivity|].
  destruct l as [|y l]; [reflexivity|].
  change (map (map f) (y :: l)) with (map f y :: map (map f) l) in *.
  rewrite !map_app, IH. reflexivity.
Qed.

Lemma capitalize_lower {P : Platform} {L : PlatformLaws P} w :
  forallb okc w = true ->
  forallb is_ascii (capitalize w) = true
  /\ map ascii_lower (capitalize w) = w.
Proof.
  destruct w as [|c w]; simpl; [auto|].
  intros H. apply andb_true_iff in H as [Hc Hw].
  pose proof (okc_ascii _ Hc) as Ha.
  rewrite (@toUpperCase_ascii P L [c]) by (simpl; rewrite Ha; reflexivity).
  simpl. destruct (ascii_lower_facts c Ha) as (_ & A2 & A3 & _).
  rewrite A2, A3. destruct (okc_fixed _ Hc) as (-> & _).
  split; [apply forallb_okc_ascii; exact Hw|].
  f_equal. clear -Hw. induction w as [|d w IH]; simpl; [reflexivity|].
  simpl in Hw. apply andb_true_iff in Hw as [Hd Hw].
  destruct (okc_fixed _ Hd) as (-> & _). f_equal. auto.
Qed.

(** X3.  The display name leads back to the key it was made from, and making
    a display name of a display name changes nothing. *)
Theorem canonicalFeatureName_stable (P : Platform) (L : PlatformLaws P)
  (x : ustring) :
  normalizeFeature (canonicalFeatureName x) = normalizeFeature x
  /\ canonicalFeatureName (canonicalFeatureName x) = canonicalFeatureName x.
Proof.
  assert (A : normalizeFeature (canonicalFeatureName x) = normalizeFeature x).
  { unfold canonicalFeatureName at 1.
    pose proof (normalizeFeature_tidy x) as T.
    destruct (normalizeFeature x) as [|c0 t0] eqn:E.
    - apply normalizeFeature_fixed. reflexivity.
    - rewrite <- E in *. set (t := normalizeFeature x) in *.
      assert (Tk : forallb okc t = true).
      { unfold tidy in T. rewrite !andb_true_iff in T. tauto. }
      pose proof (split_forallb okc 32 _ Tk) as F.
      assert (W : forallb is_ascii (join [32%N] (map capitalize (split 32 t)))
                  = true
                  /\ map ascii_lower (join [32%N] (map capitalize (split 32 t)))
                     = t).
      { split.
        - apply join_forallb; [reflexivity|].
          induction F as [|w ws Hw F IH]; simpl; constructor; auto.
          apply (capitalize_lower w Hw).
        - rewrite map_join. rewrite map_map.
          rewrite <- (join_split 32 t) at 2. f_equal.
          induction F as [|w ws Hw F IH]; simpl; [reflexivity|].
          rewrite (proj2 (capitalize_lower w Hw)). f_equal. exact IH. }
      destruct W as [W1 W2].
      assert (C : normalizeFeature
                    (map ascii_lower
                       (join [32%N] (map capitalize (split 32 t))))
                  = normalizeFeature
                      (join [32%N] (map capitalize (split 32 t)))).
      { apply normalizeFeature_ascii_map; [|exact W1]. intros c Hc.
        destruct (ascii_lower_facts c Hc) as (A1 & _ & _ & A4 & _). auto. }
      rewrite <- C, W2. apply normalizeFeature_fixed. exact T. }
  split; [exact A|].
  unfold canonicalFeatureName at 1. rewrite A. reflexivity.
Qed.

Lemma canonicalFeatureName_stable_witness :
  @normalizeFeature Latin1.platform
    (@canonicalFeatureName Latin1.platform (lit "  role-based  ACCESS control "))
  = lit "role based access control"
  /\ @canonicalFeatureName Latin1.platform
       (@canonicalFeatureName Latin1.platform
          (lit "  role-based  ACCESS control "))
     = lit "Role Based Access Control".
Proof.
  destruct (@canonicalFeatureName_stable Latin1.platform latin1_laws
              (lit "  role-based  ACCESS control ")) as [H1 H2].
  rewrite H1, H2. split; vm_compute; reflexivity.
Defined.

(* ================================================================== *)
(** * Further properties of capability extraction *)
(* ================================================================== *)

Module CapabilityTable.
Import Capabilities.

(** The entry of the synonym table that the variant [v] of the group [g]
    is looked up under holds the group's own canonical capability. *)
Definition variantOk {P : Platform} (g : string * list string) (v : string)
  : bool :=
  match map_get (normalizeCapabilityTerm (lit v)) CAPABILITY_SYNONYM_MAP with
  | Some c =>
      (ueqb (cc_normalized c) (normalizeCapabilityTerm (lit (fst g)))
       && ueqb (cc_display c) (lit (fst g)))%bool
  | None => false
  end.

Definition pairOf (h : CapabilityHit) : ustring * ustring :=
  (category h, normalized h).

Definition categoryNames : list ustring :=
  map (fun cat => lit (fst cat)) CAT_PATTERNS.

End CapabilityTable.

Lemma dedupHits_complete hits : forall seen h,
  In h hits ->
  In (Capabilities.hitKey h) seen
  \/ exists h', In h' (Capabilities.dedupHits seen hits)
                /\ Capabilities.hitKey h' = Capabilities.hitKey h.
Proof.
  induction hits as [|x r IH]; intros seen h Hin; [destruct Hin|].
  simpl. destruct (mem (Capabilities.hitKey x) seen) eqn:M.
  - destruct Hin as [->|Hin]; [left; apply mem_In; exact M|].
    apply IH. exact Hin.
  - destruct Hin as [->|Hin]; [right; exists h; simpl; auto|].
    destruct (IH (Capabilities.hitKey x :: seen) h Hin) as [[E|S]|(h' & H1 & H2)].
    + right. exists x. simpl. auto.
    + left. exact S.
    + right. exists h'. simpl. auto.
Qed.

Lemma NoDup_map_factor {A B C} (f : A -> B) (g : B -> C) l :
  NoDup (map (fun x => g (f x)) l) -> NoDup (map f l).
Proof.
  induction l as [|x l IH]; simpl; intros H; [constructor|].
  inversion H as [|? ? Hn Hd]; subst. constructor; [|auto].
  intros Hin. apply Hn. apply in_map_iff in Hin as (y & Ey & Hy).
  apply in_map_iff. exists y. split; [rewrite Ey; reflexivity|exact Hy].
Qed.

Lemma app_sep_inj (s : N) (a a' b b' : ustring) :
  ~ In s a -> ~ In s a' -> a ++ s :: b = a' ++ s :: b' -> a = a' /\ b = b'.
Proof.
  revert a'. induction a as [|x a IH]; intros [|y a'] Ha Ha' E; simpl in *.
  - injection E as <-. auto.
  - injection E as <- _. exfalso. apply Ha'. auto.
  - injection E as -> _. exfalso. apply Ha. auto.
  - injection E as <- E.
    destruct (IH a') as [-> ->]; auto.
Qed.

Lemma rawHits_category {P : Platform} text h :
  In h (Capabilities.rawHits text) ->
  In (Capabilities.category h) CapabilityTable.categoryNames.
Proof.
  unfold Capabilities.rawHits. intros H.
  apply in_flat_map in H as [cat [Hc H]].
  apply in_flat_map in H as [re [_ H]].
  apply in_flat_map in H as [m [_ H]].
  unfold Capabilities.hitOfMatch in H.
  destruct (Nat.ltb _ 2); [destruct H|].
  destruct H as [<-|[]]. cbn [Capabilities.category].
  unfold CapabilityTable.categoryNames.
  apply in_map_iff. exists cat. split; [reflexivity|exact Hc].
Qed.

Lemma categoryNames_no_bar c :
  In c CapabilityTable.categoryNames -> ~ In 124%N c.
Proof.
  intros Hc.
  assert (A : forallb (fun c => negb (existsb (N.eqb 124) c))
                CapabilityTable.categoryNames = true)
    by (vm_compute; reflexivity).
  rewrite forallb_forall in A. specialize (A c Hc).
  apply negb_true_iff in A. intros Hin.
  assert (B : existsb (N.eqb 124) c = true).
  { apply existsb_exists. exists 124%N. split; [exact Hin|reflexivity]. }
  congruence.
Qed.

(** X4.  The hits returned for a text never hold the same (category,
    normalized) pair twice; each of them was matched in the text, under
    one of the nine category names; and every pair matched in the text is
    among them. *)
Theorem extractCapabilities_distinct (P : Platform) (text : ustring) :
  let hits := Capabilities.extractCapabilities text in
  NoDup (map CapabilityTable.pairOf hits)
  /\ (forall h, In h hits ->
        In h (Capabilities.rawHits text)
        /\ In (Capabilities.category h) CapabilityTable.categoryNames)
  /\ (forall h, In h (Capabilities.rawHits text) ->
        exists h', In h' hits
                   /\ CapabilityTable.pairOf h' = CapabilityTable.pairOf h).
Proof.
  intros hits. unfold hits, Capabilities.extractCapabilities.
  destruct (dedupHits_spec (Capabilities.rawHits text) []) as [N I].
  repeat split.
  - apply (NoDup_map_factor CapabilityTable.pairOf
             (fun p => fst p ++ 124%N :: snd p)). exact N.
  - apply I. assumption.
  - apply (rawHits_category text). apply I. assumption.
  - intros h Hh.
    destruct (dedupHits_complete (Capabilities.rawHits text) [] h Hh)
      as [[]|(h' & H1 & H2)].
    exists h'. split; [exact H1|].
    unfold Capabilities.hitKey in H2.
    apply app_sep_inj in H2 as [E1 E2].
    + unfold CapabilityTable.pairOf. rewrite E1, E2. reflexivity.
    + apply categoryNames_no_bar, (rawHits_category text), I, H1.
    + apply categoryNames_no_bar, (rawHits_category text), Hh.
Qed.

(** X5.  Every variant listed in [RAW_SYNONYM_GROUPS] canonicalizes to the
    capability of its own group, whatever the mention: no variant is
    shadowed by another group's entry. *)
Theorem canonicalizeCapability_variant (P : Platform) (L : PlatformLaws P)
  (g : string * list string) (v : string) (mention : ustring)
  (Hg : In g Capabilities.RAW_SYNONYM_GROUPS) (Hv : In v (snd g)) :
  Capabilities.canonicalizeCapability
    (Capabilities.normalizeCapabilityTerm (lit v)) mention
  = {| Capabilities.cc_normalized :=
         Capabilities.normalizeCapabilityTerm (lit (fst g));
       Capabilities.cc_display := lit (fst g) |}.
Proof.
  assert (A : forallb (fun g => forallb (@CapabilityTable.variantOk
                                           Latin1.platform g) (snd g))
                Capabilities.RAW_SYNONYM_GROUPS = true)
    by (vm_compute; reflexivity).
  assert (B : forallb asciiGroup Capabilities.RAW_SYNONYM_GROUPS = true)
    by (vm_compute; reflexivity).
  rewrite forallb_forall in A, B. specialize (A g Hg). specialize (B g Hg).
  rewrite forallb_forall in A. specialize (A v Hv).
  apply andb_true_iff in B as [Bd Bv].
  rewrite forallb_forall in Bv. specialize (Bv v Hv).
  unfold Capabilities.canonicalizeCapability.
  rewrite synonym_map_ascii, (normalizeCapabilityTerm_ascii _ Bv),
          (normalizeCapabilityTerm_ascii _ Bd).
  unfold CapabilityTable.variantOk in A.
  destruct (map_get _ _) as [[cn cd]|]; [|discriminate A].
  apply andb_true_iff in A as [A1 A2].
  apply ueqb_eq in A1, A2. simpl in A1, A2. rewrite A1, A2. reflexivity.
Qed.

Lemma canonicalizeCapability_variant_witness :
  @Capabilities.canonicalizeCapability Latin1.platform
    (@Capabilities.normalizeCapabilityTerm Latin1.platform
       (lit "Two-Step Verification")) (lit "two step verification")
  = {| Capabilities.cc_normalized := lit "multi factor authentication";
       Capabilities.cc_display := lit "Multi Factor Authentication" |}.
Proof.
  rewrite (@canonicalizeCapability_variant Latin1.platform latin1_laws
             ("Multi Factor Authentication",
              ["Multi Factor Authentication"; "Multi-Factor Authentication";
               "MFA"; "Two Factor Authentication";
               "Two-Factor Authentication"; "2FA"; "Two Step Verification";
               "Two-Step Verification"])%string
             "Two-Step Verification"%string).
  - vm_compute. reflexivity.
  - vm_compute. tauto.
  - vm_compute. tauto.
Defined.

(** X6.  The normalized key of a capability does not depend on the ASCII case
    of the mention it was found as. *)
Theorem capability_key_ascii_case (P : Platform) (L : PlatformLaws P)
  (m : ustring) (H : forallb is_ascii m = true) :
  let key := fun mention =>
    Capabilities.cc_normalized
      (Capabilities.canonicalizeCapability
         (Capabilities.normalizeCapabilityTerm mention) mention) in
  key (map ascii_upper m) = key m /\ key (map ascii_lower m) = key m.
Proof.
  intros key.
  assert (K : forall norm m1 m2,
             Capabilities.cc_normalized
               (Capabilities.canonicalizeCapability norm m1)
             = Capabilities.cc_normalized
                 (Capabilities.canonicalizeCapability norm m2)).
  { intros norm m1 m2. unfold Capabilities.canonicalizeCapability.
    destruct (map_get norm _); [reflexivity|].
    destruct norm; [reflexivity|].
    destruct (negb _); [|reflexivity].
    destruct (_ && _ && _)%bool, (_ && _ && _)%bool; try reflexivity;
      destruct (Nat.leb _ 5); reflexivity. }
  assert (U : normalizeFeature (map ascii_upper m) = normalizeFeature m).
  { apply normalizeFeature_ascii_map; [|exact H]. intros c Hc.
    destruct (ascii_lower_facts c Hc) as (_ & A2 & A3 & _). auto. }
  assert (W : normalizeFeature (map ascii_lower m) = normalizeFeature m).
  { apply normalizeFeature_ascii_map; [|exact H]. intros c Hc.
    destruct (ascii_lower_facts c Hc) as (A1 & _ & _ & A4 & _). auto. }
  unfold key, Capabilities.normalizeCapabilityTerm.
  rewrite U, W. split; apply K.
Qed.

Lemma capability_key_ascii_case_witness :
  let key := fun mention =>
    Capabilities.cc_normalized
      (@Capabilities.canonicalizeCapability Latin1.platform
         (@Capabilities.normalizeCapabilityTerm Latin1.platform mention)
         mention) in
  key (map ascii_upper (lit "Audit Logs")) = key (lit "Audit Logs")
  /\ key (map ascii_lower (lit "Audit Logs")) = key (lit "Audit Logs").
Proof.
  apply (@capability_key_ascii_case Latin1.platform latin1_laws).
  reflexivity.
Defined.

Lemma dropEnd_length n (t : ustring) : length (dropEnd n t) = length t - n.
Proof. unfold dropEnd. rewrite length_firstn. lia. Qed.
(** X7.  [singularize] leaves tokens of three units or fewer alone, never
    lengthens a token and removes at most two units. *)
Theorem singularize_length (t : ustring) :
  (length t <= 3 -> Capabilities.singularize t = t)
  /\ length (Capabilities.singularize t) <= length t
  /\ length t - 2 <= length (Capabilities.singularize t).
Proof.
  unfold Capabilities.singularize.
  destruct (Nat.leb (length t) 3) eqn:E; cbn [orb].
  - repeat split; intros; try reflexivity; lia.
  - apply Nat.leb_gt in E. split; [intros; lia|].
    destruct (mem t Capabilities.SINGULAR_EXCEPTIONS).
    lia.
    destruct (endsWith (lit "ies") t).
    rewrite length_app, dropEnd_length.
       change (length (lit "y")) with 1. lia.
    destruct (_ || _ || _ || _)%bool. rewrite dropEnd_length. lia.
    destruct (_ && _)%bool. rewrite dropEnd_length. lia. lia.
Qed.

(* ================================================================== *)
(** * The feature catalog *)
(* ================================================================== *)

Module CatalogFacts.
Import Features.

(** [names.map(trim).filter(Boolean)] *)
Definition cleanedOf (names : list ustring) : list ustring :=
  filter (fun n => negb (ueqb n [])) (map trim names).

(** Every entry of the map holds a row of the catalog under that row's
    key, every row of the catalog with a key in [keys] has an entry, and
    no key has two entries. *)
Definition Covers (bn : list (ustring * FeatureDefinition))
  (keys : list ustring) (c : Catalog) : Prop :=
  (forall k d, In (k, d) bn -> fd_normalized d = k /\ In d (defs c))
  /\ (forall d, In d (defs c) -> In (fd_normalized d) keys ->
        In (fd_normalized d) (map fst bn))
  /\ NoDup (map fst bn).

(** The rows of [c'] are the rows of [c] up to their aliases. *)
Definition SameRows (c c' : Catalog) : Prop :=
  map (setAliases []) (defs c') = map (setAliases []) (defs c)
  /\ nextDefId c' = nextDefId c.

End CatalogFacts.
Import CatalogFacts.

Lemma In_map_set {V} k (v : V) m k' v' :
  In (k', v') (map_set k v m) -> (k' = k /\ v' = v) \/ In (k', v') m.
Proof.
  induction m as [|[k0 v0] m IH]; simpl.
  - intros [E|[]]. injection E as <- <-. auto.
  - destruct (ueqb k k0) eqn:E.
    + apply ueqb_eq in E. subst k0. intros [H|H]; [|auto].
      injection H as <- <-. auto.
    + intros [H|H]; [auto|]. destruct (IH H); auto.
Qed.

Lemma map_set_key_In {V} k (v : V) m k' :
  In k' (map fst (map_set k v m)) <-> In k' (map fst m) \/ k' = k.
Proof.
  rewrite map_set_keys. unfold map_has.
  destruct (map_get k m) eqn:E.
  - apply map_get_In in E. apply (in_map fst) in E. simpl in E.
    split; [auto|]. intros [H| ->]; auto.
  - rewrite in_app_iff. simpl. intuition auto.
Qed.

Lemma uniqFrom_In xs : forall seen x,
  In x (uniqFrom seen xs) -> In x xs.
Proof.
  induction xs as [|y r IH]; intros seen x; simpl; [auto|].
  destruct (mem y seen); [intros H; right; eapply IH; eauto|].
  intros [H|H]; [auto|right; eapply IH; eauto].
Qed.

Lemma uniqFrom_complete xs : forall seen x,
  In x xs -> In x seen \/ In x (uniqFrom seen xs).
Proof.
  induction xs as [|y r IH]; intros seen x; simpl; [tauto|].
  intros [->|H].
  - destruct (mem x seen) eqn:M; [left; apply mem_In; exact M|].
    right. simpl. auto.
  - destruct (mem y seen) eqn:M; [apply IH; exact H|].
    destruct (IH (y :: seen) x H) as [[->|S]|U]; simpl; auto.
Qed.

Lemma uniq_In xs x : In x (uniq xs) <-> In x xs.
Proof.
  split; [apply uniqFrom_In|].
  intros H. destruct (uniqFrom_complete xs [] x H) as [[]|U]. exact U.
Qed.

Lemma byNormalizedOf_spec ds : forall m (Q : Features.FeatureDefinition -> Prop),
  NoDup (map fst m) ->
  (forall k d, In (k, d) m -> Features.fd_normalized d = k /\ Q d) ->
  (forall d, In d ds -> Q d) ->
  let m' := fold_left (fun m d => map_set (Features.fd_normalized d) d m) ds m in
  NoDup (map fst m')
  /\ (forall k d, In (k, d) m' -> Features.fd_normalized d = k /\ Q d)
  /\ (forall k, In k (map fst m') <->
                In k (map fst m) \/ In k (map Features.fd_normalized ds)).
Proof.
  induction ds as [|d ds IH]; intros m Q N V HQ; simpl.
  - split; [exact N|split; [exact V|]].
    intros k. split; [auto|intros [H|[]]; exact H].
  - destruct (IH (map_set (Features.fd_normalized d) d m) Q) as (N' & V' & K').
    + apply NoDup_map_set. exact N.
    + intros k x Hx. apply In_map_set in Hx as [[-> ->]|Hx]; [|auto].
      split; [reflexivity|apply HQ; simpl; auto].
    + intros x Hx. apply HQ. simpl. auto.
    + split; [exact N'|split; [exact V'|]].
      intros k. rewrite K', map_set_key_In. intuition (subst; auto).
Qed.

Lemma createMissing_total cat origin keys entries : forall bn c,
  Covers bn keys c ->
  (forall e, In e entries -> In (Features.e_normalized e) keys) ->
  exists bn' c' created,
    Features.createMissing cat origin entries bn c = (Ok bn', c')
    /\ Covers bn' keys c'
    /\ (forall k, In k (map fst bn') <->
                  In k (map fst bn) \/ In k (map Features.e_normalized entries))
    /\ Features.defs c' = Features.defs c ++ created
    /\ Features.nextDefId c' = Features.nextDefId c + length created
    /\ (forall d, In d created ->
          In (Features.fd_normalized d) keys
          /\ ~ In (Features.fd_normalized d)
                 (map Features.fd_normalized (Features.defs c))).
Proof.
  induction entries as [|e es IH]; intros bn c Cv Hk.
  - exists bn, c, []. simpl. rewrite app_nil_r, Nat.add_0_r.
    split; [reflexivity|]. split; [exact Cv|]. split; [intros k; tauto|].
    split; [reflexivity|]. split; [reflexivity|]. intros d [].
  - cbn [Features.createMissing]. unfold map_has.
    destruct (map_get (Features.e_normalized e) bn) eqn:G.
    + destruct (IH bn c Cv) as (bn' & c' & cr & E & Cv' & K & D & Nx & Fr).
      { intros x Hx. apply Hk. simpl. auto. }
      exists bn', c', cr.
      split; [exact E|]. split; [exact Cv'|]. split; [|auto].
      intros k. rewrite K. simpl. split; [tauto|].
      intros [H|[<-|H]]; auto.
      left. apply map_get_In in G. apply (in_map fst) in G. exact G.
    + assert (Lk : lacks (Features.e_normalized e) c).
      { intros d Hd Ed. apply map_get_None in G. apply G.
        destruct Cv as (_ & C2 & _). rewrite <- Ed. apply C2; [exact Hd|].
        rewrite Ed. apply Hk. simpl. auto. }
      erewrite bind_Ok; [|apply createDefinition_fresh; exact Lk].
      cbn [Features.fd_normalized].
      match goal with
      | |- context [Features.createMissing _ _ _ (map_set _ ?d _) ?c1] =>
          set (created := d); set (c1' := c1)
      end.
      destruct (IH (map_set (Features.e_normalized e) created bn) c1')
        as (bn' & c' & cr & E & Cv' & K & D & Nx & Fr).
      { destruct Cv as (C1 & C2 & C3). split; [|split].
        - intros k d Hd. apply In_map_set in Hd as [[-> ->]|Hd].
          + split; [reflexivity|]. unfold c1'. simpl.
            apply in_or_app. right. simpl. auto.
          + destruct (C1 k d Hd) as [? ?]. split; [assumption|].
            unfold c1'. simpl. apply in_or_app. auto.
        - intros d Hd Hkeys. apply map_set_key_In.
          unfold c1' in Hd. simpl in Hd. apply in_app_iff in Hd as [Hd|[<-|[]]].
          + left. apply C2; assumption.
          + right. reflexivity.
        - apply NoDup_map_set. exact C3. }
      { intros x Hx. apply Hk. simpl. auto. }
      exists bn', c', (created :: cr).
      split; [exact E|]. split; [exact Cv'|]. split; [|split; [|split]].
      * intros k. rewrite K, map_set_key_In. simpl. intuition (subst; auto).
      * rewrite D. unfold c1'. simpl. rewrite <- app_assoc. reflexivity.
      * rewrite Nx. unfold c1'. simpl. lia.
      * intros d [<-|H].
        -- split; [simpl; apply Hk; simpl; auto|].
           simpl. intros Hin. apply in_map_iff in Hin as (d & Ed & Hd).
           exact (Lk d Hd Ed).
        -- destruct (Fr d H) as [F1 F]. split; [exact F1|].
           intros Hin. apply F.
           unfold c1'. simpl. rewrite map_app. apply in_or_app. auto.
Qed.

Lemma SameRows_refl c : SameRows c c.
Proof. split; reflexivity. Qed.

Lemma SameRows_trans a b c : SameRows a b -> SameRows b c -> SameRows a c.
Proof. intros [H1 H2] [H3 H4]. split; congruence. Qed.

Lemma SameRows_ids c c' :
  SameRows c c' ->
  map Features.fd_id (Features.defs c') = map Features.fd_id (Features.defs c)
  /\ map Features.fd_normalized (Features.defs c')
     = map Features.fd_normalized (Features.defs c)
  /\ map Features.fd_name (Features.defs c')
     = map Features.fd_name (Features.defs c).
Proof.
  intros [H _].
  assert (A : forall (f : Features.FeatureDefinition -> ustring),
             (forall d, f (Features.setAliases [] d) = f d) ->
             map f (Features.defs c') = map f (Features.defs c)).
  { intros f Hf.
    transitivity (map f (map (Features.setAliases []) (Features.defs c'))).
    - rewrite map_map. apply map_ext. intros d. symmetry. apply Hf.
    - rewrite H, map_map. apply map_ext. exact Hf. }
  repeat split; apply A; reflexivity.
Qed.

Lemma updateAliases_total id aliases c :
  In id (map Features.fd_id (Features.defs c)) ->
  exists c', Features.updateAliases id aliases c = (Ok tt, c') /\ SameRows c c'.
Proof.
  intros H. unfold Features.updateAliases.
  assert (E : existsb (fun d => ueqb (Features.fd_id d) id) (Features.defs c)
              = true).
  { apply in_map_iff in H as (d & Ed & Hd). apply existsb_exists.
    exists d. split; [exact Hd|]. apply ueqb_eq. exact Ed. }
  rewrite E. eexists. split; [reflexivity|]. split; [|reflexivity].
  simpl. rewrite map_map. apply map_ext. intros d.
  destruct (ueqb (Features.fd_id d) id); reflexivity.
Qed.

Lemma forEach_updateAliases_total us : forall c,
  (forall u, In u us -> In (fst u) (map Features.fd_id (Features.defs c))) ->
  exists c',
    forEach us (fun u => Features.updateAliases (fst u) (snd u)) c = (Ok tt, c')
    /\ SameRows c c'.
Proof.
  induction us as [|u us IH]; intros c H.
  - exists c. split; [reflexivity|apply SameRows_refl].
  - destruct (updateAliases_total (fst u) (snd u) c) as (c1 & E1 & S1).
    { apply H. simpl. auto. }
    destruct (IH c1) as (c2 & E2 & S2).
    { intros x Hx. rewrite (proj1 (SameRows_ids S1)). apply H. simpl. auto. }
    exists c2. split; [|eapply SameRows_trans; eauto].
    cbn [forEach]. erewrite bind_Ok; [|exact E1]. exact E2.
Qed.

Lemma collectAliasUpdates_ids bn entries u :
  In u (Features.collectAliasUpdates bn entries) ->
  exists k d, In (k, d) bn /\ Features.fd_id d = fst u.
Proof.
  unfold Features.collectAliasUpdates.
  assert (G : forall acc,
             (forall x, In x acc ->
                exists k d, In (k, d) bn /\ Features.fd_id d = fst x) ->
             forall x,
               In x (fold_left
                       (fun acc entry =>
                          match map_get (Features.e_normalized entry) bn with
                          | Some def => Features.aliasUpdateFor def entry acc
                          | None => acc
                          end) entries acc) ->
               exists k d, In (k, d) bn /\ Features.fd_id d = fst x).
  { induction entries as [|e es IH]; intros acc Ha x; simpl; [apply Ha|].
    apply IH. destruct (map_get (Features.e_normalized e) bn) as [def|] eqn:E;
      [|exact Ha].
    unfold Features.aliasUpdateFor. destruct (negb _); [|exact Ha].
    intros [k0 v0] Hy. apply In_map_set in Hy as [[-> ->]|Hy]; [|auto].
    exists (Features.e_normalized e), def. split; [|reflexivity].
    apply map_get_In. exact E. }
  apply G. intros x [].
Qed.
Lemma Covers_values bn keys c :
  Covers bn keys c -> map Features.fd_normalized (map snd bn) = map fst bn.
Proof.
  intros (C1 & _ & _). induction bn as [|[k d] bn IH]; simpl; [reflexivity|].
  rewrite IH.
  - destruct (C1 k d) as [-> _]; simpl; auto.
  - intros k' d' H. apply C1. simpl. auto.
Qed.

(** The three steps of [ensureFeatureDefinitions] on any catalog [c]:
    the map [bn] after the first loop covers the keys in the catalog [c1]
    that the creations leave, and the alias updates lead from [c1] to
    the final catalog without touching anything but aliases. *)
Lemma ensureFeatureDefinitions_steps {P : Platform} (names : list ustring)
  (origin : option Features.FeatureOrigin) (cat : option ustring)
  (c : Features.Catalog) :
  let keys := map normalizeFeature (cleanedOf names) in
  exists bn c1 c2 created,
    Features.ensureFeatureDefinitions names origin cat c = (Ok (map snd bn), c2)
    /\ Covers bn keys c1
    /\ (forall k, In k (map fst bn) <-> In k keys)
    /\ Features.defs c1 = Features.defs c ++ created
    /\ SameRows c1 c2
    /\ (forall d, In d created ->
          In (Features.fd_normalized d) keys
          /\ ~ In (Features.fd_normalized d)
                 (map Features.fd_normalized (Features.defs c))).
Proof.
  intros keys. unfold Features.ensureFeatureDefinitions.
  fold (cleanedOf names). subst keys.
  destruct (cleanedOf names) as [|n0 ns] eqn:Ec.
  - exists [], c, c, []. simpl. rewrite app_nil_r.
    split; [reflexivity|]. split.
    { split; [intros k d []|]. split; [intros d _ []|constructor]. }
    split; [tauto|]. split; [reflexivity|]. split; [apply SameRows_refl|].
    intros ? [].
  - rewrite <- Ec. clear Ec n0 ns. set (cl := cleanedOf names).
    set (entries := map Features.entryOf cl).
    assert (Ek : map Features.e_normalized entries = map normalizeFeature cl).
    { unfold entries. rewrite map_map. reflexivity. }
    rewrite Ek. set (ks := map normalizeFeature cl) in *.
    unfold Features.findManyByNormalized.
    erewrite bind_Ok; [|reflexivity].
    set (existing := filter (fun d => mem (Features.fd_normalized d) (uniq ks))
                       (Features.defs c)).
    destruct (byNormalizedOf_spec existing []
                (fun d => In d (Features.defs c)
                          /\ In (Features.fd_normalized d) ks))
      as (N0 & V0 & K0).
    { constructor. }
    { intros k d []. }
    { intros d Hd. apply filter_In in Hd as [Hd Hm]. split; [exact Hd|].
      apply (proj1 (mem_In _ _)) in Hm. apply (proj1 (uniq_In _ _)) in Hm.
      exact Hm. }
    fold (Features.byNormalizedOf existing) in N0, V0, K0.
    assert (Cv : Covers (Features.byNormalizedOf existing) ks c).
    { split; [|split; [|exact N0]].
      - intros k d H. destruct (V0 k d H) as (? & ? & ?). auto.
      - intros d Hd Hk. apply K0. right.
        apply in_map. apply filter_In. split; [exact Hd|].
        apply mem_In. apply uniq_In. exact Hk. }
    destruct (@createMissing_total cat
                (match origin with Some o => o | None => Features.DEFAULT_ORIGIN end)
                ks entries (Features.byNormalizedOf existing) c Cv)
      as (bn & c1 & created & E1 & Cv1 & K1 & D1 & _ & Fr).
    { intros e He. rewrite <- Ek. apply in_map. exact He. }
    erewrite bind_Ok; [|exact E1].
    destruct (forEach_updateAliases_total
                (Features.collectAliasUpdates bn entries) c1)
      as (c2 & E2 & S2).
    { intros u Hu. apply collectAliasUpdates_ids in Hu as (k & d & Hd & <-).
      apply in_map. destruct Cv1 as (C1 & _). apply (C1 k d Hd). }
    erewrite bind_Ok; [|exact E2].
    exists bn, c1, c2, created. split; [reflexivity|].
    split; [exact Cv1|]. split; [|auto].
    intros k. rewrite K1, K0, Ek. simpl. split; [|auto].
    intros [[[]|H]|H]; [|exact H].
    apply in_map_iff in H as (d & <- & Hd).
    apply filter_In in Hd as [_ Hm].
    apply (proj1 (mem_In _ _)) in Hm. apply (proj1 (uniq_In _ _)) in Hm.
    exact Hm.
Qed.

(** X8.  [ensureFeatureDefinitions] never throws, whatever the catalog holds.
    It returns one definition for each distinct normalized key of the
    non-blank names and no other; the rows the catalog had stay in place,
    changed at most in their aliases; rows are added only for keys the
    catalog lacked; afterwards every key has a row, and every definition
    returned is a row of the catalog. *)
Theorem ensureFeatureDefinitions_total (P : Platform) (names : list ustring)
  (origin : option Features.FeatureOrigin) (cat : option ustring)
  (c : Features.Catalog) :
  let keys := map normalizeFeature (cleanedOf names) in
  exists ds c' created,
    Features.ensureFeatureDefinitions names origin cat c = (Ok ds, c')
    /\ NoDup (map Features.fd_normalized ds)
    /\ (forall k, In k (map Features.fd_normalized ds) <-> In k keys)
    /\ map (Features.setAliases []) (Features.defs c')
       = map (Features.setAliases []) (Features.defs c ++ created)
    /\ (forall d, In d created ->
          In (Features.fd_normalized d) keys
          /\ ~ In (Features.fd_normalized d)
                 (map Features.fd_normalized (Features.defs c)))
    /\ (forall k, In k keys ->
          In k (map Features.fd_normalized (Features.defs c')))
    /\ (forall d, In d ds ->
          In (Features.fd_id d) (map Features.fd_id (Features.defs c'))).
Proof.
  intros keys.
  destruct (ensureFeatureDefinitions_steps names origin cat c)
    as (bn & c1 & c2 & created & E & Cv & Kb & D1 & S2 & Fr).
  fold keys in Cv, Kb, Fr.
  exists (map snd bn), c2, created. split; [exact E|].
  rewrite (Covers_values Cv).
  split; [apply Cv|]. split; [exact Kb|].
  split; [rewrite <- D1; apply S2|]. split; [exact Fr|].
  destruct Cv as (C1 & _). split.
  - intros k Hk. rewrite (proj1 (proj2 (SameRows_ids S2))).
    apply Kb in Hk. apply in_map_iff in Hk as ([k' d] & <- & Hd).
    destruct (C1 k' d Hd) as [<- Hin]. simpl. apply in_map. exact Hin.
  - intros d Hd. rewrite (proj1 (SameRows_ids S2)).
    apply in_map_iff in Hd as ([k' d'] & <- & Hd).
    destruct (C1 k' d' Hd) as [_ Hin]. simpl. apply in_map. exact Hin.
Qed.

(** X9.  Names that are empty or blank are dropped: a call with no other name
    returns the empty list and leaves the catalog as it was. *)
Theorem ensureFeatureDefinitions_blank (P : Platform) (names : list ustring)
  (origin : option Features.FeatureOrigin) (cat : option ustring)
  (c : Features.Catalog) (H : forall n, In n names -> trim n = []) :
  Features.ensureFeatureDefinitions names origin cat c = (Ok [], c).
Proof.
  unfold Features.ensureFeatureDefinitions.
  assert (E : filter (fun n => negb (ueqb n [])) (map trim names) = []).
  { induction names as [|n ns IH]; simpl; [reflexivity|].
    rewrite (H n) by (simpl; auto). simpl. apply IH.
    intros x Hx. apply H. simpl. auto. }
  rewrite E. reflexivity.
Qed.

Lemma ensureFeatureDefinitions_blank_witness :
  @Features.ensureFeatureDefinitions Latin1.platform
    [lit "   "; []; [9%N; 10%N]] (Some Features.USER) None emptyCatalog
  = (Ok [], emptyCatalog).
Proof.
  apply ensureFeatureDefinitions_blank.
  intros n [<-|[<-|[<-|[]]]]; vm_compute; reflexivity.
Defined.

(* ================================================================== *)
(** * The Run row through [orchestrateRun] *)
(* ================================================================== *)

Module RunRowFacts.
Import Orchestrator.

(** [rows.map(r => r.id === runId ? g(r) : r)] *)
Definition onRun (runId : ustring) (g : Run -> Run) (rs : list Run)
  : list Run :=
  map (fun r => if ueqb (run_id r) runId then g r else r) rs.

(** The row of a run that started at [ts] and has not ended, under the
    status and note written last. *)
Definition started (ts : Z) (st : RunStatus) (note : option ustring)
  (r : Run) : Run :=
  {| run_id := run_id r; run_projectId := run_projectId r;
     run_status := st; run_lastNote := note;
     run_startedAt := if Z.eqb ts 0 then run_startedAt r else Some ts;
     run_completedAt := run_completedAt r;
     run_createdAt := run_createdAt r |}.

(** The row of a run that started at [ts] and ended at [ts'] with the
    status [st]. *)
Definition ended (ts ts' : Z) (st : RunStatus) (note : option ustring)
  (r : Run) : Run :=
  {| run_id := run_id r; run_projectId := run_projectId r;
     run_status := st; run_lastNote := note;
     run_startedAt := if Z.eqb ts 0 then run_startedAt r else Some ts;
     run_completedAt := Some ts';
     run_createdAt := run_createdAt r |}.

(** The run is under way: against [w0], only its row has changed, and
    that to a [started] row. *)
Definition Mid (runId : ustring) (w0 w : World) : Prop :=
  now w = now w0
  /\ exists st note, runs w = onRun runId (started (now w0) st note) (runs w0).

Definition Final (runId : ustring) (st : RunStatus) (note : option ustring)
  (w0 w : World) : Prop :=
  now w = now w0
  /\ runs w = onRun runId (ended (now w0) (now w0) st note) (runs w0).

Definition KeepsMid (runId : ustring) (w0 : World) {A} (c : M World A)
  : Prop :=
  forall w r w', Mid runId w0 w -> c w = (r, w') -> Mid runId w0 w'.

(** From a run under way, [c] ends with the run COMPLETE or throws with
    the run still under way. *)
Definition Completes (runId : ustring) (w0 : World) {A} (c : M World A)
  : Prop :=
  forall w r w', Mid runId w0 w -> c w = (r, w') ->
    match r with
    | Ok _ => exists reportId,
        Final runId COMPLETE (Some (lit "Report ready: " ++ reportId)) w0 w'
    | Throw _ => Mid runId w0 w'
    end.

End RunRowFacts.
Import RunRowFacts.

Lemma onRun_onRun runId (g h : Orchestrator.Run -> Orchestrator.Run) rs :
  (forall r, Orchestrator.run_id (g r) = Orchestrator.run_id r) ->
  onRun runId h (onRun runId g rs) = onRun runId (fun r => h (g r)) rs.
Proof.
  intros Hg. unfold onRun. rewrite map_map. apply map_ext. intros r.
  destruct (ueqb (Orchestrator.run_id r) runId) eqn:E.
  - rewrite Hg, E. reflexivity.
  - rewrite E. reflexivity.
Qed.

Lemma onRun_ext runId (g h : Orchestrator.Run -> Orchestrator.Run) rs :
  (forall r, g r = h r) -> onRun runId g rs = onRun runId h rs.
Proof.
  intros E. unfold onRun. apply map_ext. intros r.
  destruct (ueqb _ _); [apply E|reflexivity].
Qed.

(** What a status write does to the rows. *)
Lemma setStatus_runs runId st note ts w r w' :
  Orchestrator.setStatus runId st note ts w = (r, w') ->
  Orchestrator.now w' = Orchestrator.now w
  /\ Orchestrator.tables w' = Orchestrator.tables w
  /\ match r with
     | Ok _ =>
         Orchestrator.runs w'
         = onRun runId
             (fun x =>
                {| Orchestrator.run_id := Orchestrator.run_id x;
                   Orchestrator.run_projectId := Orchestrator.run_projectId x;
                   Orchestrator.run_status := st;
                   Orchestrator.run_lastNote := note;
                   Orchestrator.run_startedAt :=
                     match st, ts with
                     | Orchestrator.DISCOVERING, Some t =>
                         if Z.eqb t 0 then Orchestrator.run_startedAt x
                         else Some t
                     | _, _ => Orchestrator.run_startedAt x
                     end;
                   Orchestrator.run_completedAt :=
                     if Orchestrator.isTerminal st
                     then Some (Orchestrator.now w)
                     else Orchestrator.run_completedAt x;
                   Orchestrator.run_createdAt := Orchestrator.run_createdAt x |})
             (Orchestrator.runs w)
     | Throw _ => w' = w /\ Orchestrator.findRun runId w = None
     end.
Proof.
  unfold Orchestrator.setStatus, bind, get, modify, Orchestrator.runUpdate.
  destruct (Orchestrator.findRun runId w) eqn:E; intros H; inversion H; subst;
    simpl; auto.
Qed.

Lemma KeepsMid_setStatus runId w0 st note :
  Orchestrator.isTerminal st = false ->
  KeepsMid runId w0 (Orchestrator.setStatus runId st note None).
Proof.
  intros T w r w' (Mn & st0 & note0 & Mr) H.
  apply setStatus_runs in H as (Hn & _ & H).
  destruct r as [u|e].
  - split; [congruence|]. exists st, note. rewrite H, Mr.
    rewrite onRun_onRun by reflexivity. apply onRun_ext. intros x.
    unfold started. rewrite T. destruct st; reflexivity.
  - destruct H as [-> _]. split; [exact Mn|]. exists st0, note0. exact Mr.
Qed.

Lemma KeepsMid_same runId w0 {A} (c : M Orchestrator.World A) :
  (forall w r w', c w = (r, w') ->
     Orchestrator.runs w' = Orchestrator.runs w
     /\ Orchestrator.now w' = Orchestrator.now w) ->
  KeepsMid runId w0 c.
Proof.
  intros Hc w r w' (Mn & st0 & note0 & Mr) H.
  destruct (Hc _ _ _ H) as [Hr Hn]. split; [congruence|].
  exists st0, note0. congruence.
Qed.

Lemma KeepsMid_phase runId w0 {A}
  (f : Orchestrator.World -> Res A * Orchestrator.Tables) :
  KeepsMid runId w0 (Orchestrator.phase f).
Proof.
  apply KeepsMid_same. intros w r w' H. unfold Orchestrator.phase in H.
  destruct (f w) as [r0 t]. inversion H; subst. split; reflexivity.
Qed.

Lemma KeepsMid_appendLog runId w0 line :
  KeepsMid runId w0 (Orchestrator.appendLog runId line).
Proof.
  apply KeepsMid_same. intros w r w' H.
  split; [apply (appendLog_statusLog _ _ _ H)|].
  apply (@Framed_appendLog runId line w r w' H).
Qed.

Lemma KeepsMid_runGuardrails runId w0 days :
  KeepsMid runId w0 (Orchestrator.runGuardrails runId days).
Proof.
  apply KeepsMid_same. intros w r w' H.
  destruct (runGuardrails_pure runId days w) as [g E].
  rewrite E in H. inversion H; subst. split; reflexivity.
Qed.

Lemma Completes_bind runId w0 {A B} (c : M Orchestrator.World A)
  (f : A -> M Orchestrator.World B) :
  KeepsMid runId w0 c -> (forall a, Completes runId w0 (f a)) ->
  Completes runId w0 (bind c f).
Proof.
  intros Hc Hf w r w'' M H. apply bind_inv in H.
  destruct H as [(a & w' & H1 & H2) | (e & H1 & ->)].
  - eapply Hf; [eapply Hc|]; eauto.
  - eapply Hc; eauto.
Qed.

Lemma Completes_setStatus runId w0 reportId :
  Completes runId w0
    (Orchestrator.setStatus runId Orchestrator.COMPLETE
       (Some (lit "Report ready: " ++ reportId)) None).
Proof.
  intros w r w' (Mn & st0 & note0 & Mr) H.
  apply setStatus_runs in H as (Hn & _ & H).
  destruct r as [u|e].
  - exists reportId. split; [congruence|]. rewrite H, Mr.
    rewrite onRun_onRun by reflexivity. apply onRun_ext. intros x.
    unfold ended. simpl. rewrite Mn. reflexivity.
  - destruct H as [-> _]. split; [exact Mn|]. exists st0, note0. exact Mr.
Qed.

Lemma Completes_guardrailsAndComplete runId w0 days reportId :
  Completes runId w0 (Orchestrator.guardrailsAndComplete runId days reportId).
Proof.
  unfold Orchestrator.guardrailsAndComplete.
  apply Completes_bind; [apply KeepsMid_setStatus; reflexivity|]. intros _.
  apply Completes_bind; [apply KeepsMid_runGuardrails|]. intros g.
  apply Completes_bind; [|intros _; apply Completes_setStatus].
  destruct (Orchestrator.issues g); apply KeepsMid_appendLog.
Qed.

Lemma Completes_then_tables runId w0 {A} (c : M Orchestrator.World A)
  (f : Orchestrator.World -> Orchestrator.Tables) :
  Completes runId w0 c ->
  Completes runId w0
    (bind c (fun _ => modify (fun w => Orchestrator.withTables (f w) w))).
Proof.
  intros Hc w r w'' M H. apply bind_inv in H.
  destruct H as [(a & w' & H1 & H2) | (e & H1 & ->)].
  - specialize (Hc _ _ _ M H1). cbv beta iota in Hc.
    inversion H2; subst. exact Hc.
  - exact (Hc _ _ _ M H1).
Qed.

(** The pipeline, entered with the run in the table: it ends with the
    row COMPLETE, or throws with the row started and not ended. *)
Lemma pipeline_row ph runId w0 run r w' :
  Orchestrator.findRun runId w0 = Some run ->
  Orchestrator.pipeline ph runId (Orchestrator.now w0) w0 = (r, w') ->
  match r with
  | Ok _ => exists reportId,
      Final runId Orchestrator.COMPLETE
        (Some (lit "Report ready: " ++ reportId)) w0 w'
  | Throw _ => Mid runId w0 w'
  end.
Proof.
  intros Hrun H. unfold Orchestrator.pipeline in H.
  apply bind_inv in H.
  destruct H as [(a & w1 & H1 & H) | (e & H1 & _)].
  - assert (M1 : Mid runId w0 w1).
    { apply setStatus_runs in H1 as (Hn & _ & H1). split; [exact Hn|].
      eexists. eexists. rewrite H1. apply onRun_ext. intros x.
      unfold started. reflexivity. }
    cbv beta in H.
    match type of H with
    | ?c w1 = _ => assert (C : Completes runId w0 c)
    end.
    { repeat (apply Completes_bind;
              [first [apply KeepsMid_setStatus; reflexivity
                     | apply KeepsMid_phase] | intros ?]).
      apply Completes_then_tables. apply Completes_guardrailsAndComplete. }
    exact (C _ _ _ M1 H).
  - exfalso. destruct (@setStatus_found runId Orchestrator.DISCOVERING
                         (Some (lit "Starting discovery" ++ Orchestrator.ellipsis))
                         (Some (Orchestrator.now w0)) w0 run Hrun)
      as (w2 & run' & E & _).
    rewrite E in H1. discriminate H1.
Qed.
Module RunLogFacts.
Import Orchestrator.

(** The tables with one more line in the log of the run. *)
Definition withLogLine (runId line : ustring) (t : Tables) : Tables :=
  {| sources := sources t; findings := findings t;
     capabilities := capabilities t; competitors := competitors t;
     runLogs := runLogs t ++ [(runId, line)] |}.

End RunLogFacts.
Import RunLogFacts.

Lemma appendLog_effect runId line w :
  Orchestrator.appendLog runId line w
  = (Ok tt,
     match Orchestrator.findRun runId w with
     | Some _ =>
         Orchestrator.withTables
           (withLogLine runId line (Orchestrator.tables w)) w
     | None => w
     end).
Proof.
  unfold Orchestrator.appendLog, tryCatch, Orchestrator.runLogCreate,
    Orchestrator.runUpdate.
  destruct (Orchestrator.findRun runId w) eqn:E; cbv beta iota;
    rewrite ?E; reflexivity.
Qed.

(** X10.  [appendLog] never throws.  With the run in the table it adds the one
    line to the run's log and changes nothing else; without it, it
    changes nothing at all: the fallback that would write the line to
    [lastNote] fails for the same missing row and is swallowed. *)
Theorem appendLog_never_throws (runId line : ustring)
  (w : Orchestrator.World) :
  exists w',
    Orchestrator.appendLog runId line w = (Ok tt, w')
    /\ Orchestrator.runs w' = Orchestrator.runs w
    /\ (Orchestrator.findRun runId w = None -> w' = w)
    /\ (Orchestrator.findRun runId w <> None ->
        w' = Orchestrator.withTables
               (withLogLine runId line (Orchestrator.tables w)) w).
Proof.
  rewrite appendLog_effect. eexists. split; [reflexivity|].
  destruct (Orchestrator.findRun runId w); repeat split; try reflexivity;
    intros H; try reflexivity; try discriminate H. exfalso. apply H. reflexivity.
Qed.

Lemma findRun_onRun runId g w0 w run :
  (forall x, Orchestrator.run_id (g x) = Orchestrator.run_id x) ->
  Orchestrator.runs w = onRun runId g (Orchestrator.runs w0) ->
  Orchestrator.findRun runId w0 = Some run ->
  Orchestrator.findRun runId w = Some (g run).
Proof.
  intros Hg Hr Hrun. unfold Orchestrator.findRun in *. rewrite Hr.
  apply find_update; assumption.
Qed.

(** X11.  A run that [orchestrateRun] carries to the end: the row of the run is
    COMPLETE with the note "Report ready: <report id>", [completedAt] is
    set and [startedAt] is the time read at entry (unless that is 0); its
    id, project and creation time, and the rows of all other runs, are as
    before. *)
Theorem orchestrateRun_completes (ph : Orchestrator.Phases) (runId : ustring)
  (w w' : Orchestrator.World) (run : Orchestrator.Run)
  (Hrun : Orchestrator.findRun runId w = Some run)
  (Hst : Orchestrator.run_status run <> Orchestrator.SKIPPED)
  (H : Orchestrator.orchestrateRun ph runId w = (Ok tt, w')) :
  exists reportId completedAt,
    Orchestrator.runs w'
    = onRun runId
        (ended (Orchestrator.now w) completedAt Orchestrator.COMPLETE
           (Some (lit "Report ready: " ++ reportId)))
        (Orchestrator.runs w)
    /\ Orchestrator.findRun runId w'
       = Some (ended (Orchestrator.now w) completedAt
                 Orchestrator.COMPLETE
                 (Some (lit "Report ready: " ++ reportId)) run).
Proof.
  unfold Orchestrator.orchestrateRun in H.
  bind_ok H w0 w1 H0. inversion H0; subst w0 w1. clear H0.
  apply tryCatch_inv in H.
  destruct H as [(a & H & _) | (e & w1 & _ & H)];
    [|exfalso; exact (errorHandler_throws _ _ _ _ _ H)].
  rewrite Hrun in H.
  assert (P : Orchestrator.pipeline ph runId (Orchestrator.now w) w = (Ok a, w')).
  { destruct (Orchestrator.run_status run); try exact H.
    exfalso. apply Hst. reflexivity. }
  destruct (@pipeline_row ph runId w run (Ok a) w' Hrun P) as (reportId & _ & Hr).
  exists reportId, (Orchestrator.now w). split; [exact Hr|].
  apply (@findRun_onRun runId _ w w' run); [reflexivity|exact Hr|exact Hrun].
Qed.

Lemma orchestrateRun_completes_witness :
  exists reportId completedAt,
    Orchestrator.runs
      (snd (Orchestrator.orchestrateRun RunExample.quietPhases (lit "run_1")
              (RunExample.world Orchestrator.NEW)))
    = onRun (lit "run_1")
        (ended 700000000 completedAt Orchestrator.COMPLETE
           (Some (lit "Report ready: " ++ reportId)))
        [RunExample.run1 Orchestrator.NEW]
    /\ Orchestrator.findRun (lit "run_1")
         (snd (Orchestrator.orchestrateRun RunExample.quietPhases (lit "run_1")
                 (RunExample.world Orchestrator.NEW)))
       = Some (ended 700000000 completedAt Orchestrator.COMPLETE
                 (Some (lit "Report ready: " ++ reportId))
                 (RunExample.run1 Orchestrator.NEW)).
Proof.
  apply (@orchestrateRun_completes RunExample.quietPhases (lit "run_1")
           (RunExample.world Orchestrator.NEW)
           (snd (Orchestrator.orchestrateRun RunExample.quietPhases
                   (lit "run_1") (RunExample.world Orchestrator.NEW)))
           (RunExample.run1 Orchestrator.NEW)).
  - vm_compute. reflexivity.
  - vm_compute. discriminate.
  - vm_compute. reflexivity.
Defined.

(** X12.  A run that fails: when [orchestrateRun] throws for a run that is in
    the table, the error is the one that stopped the pipeline.  The row
    of the run is ERROR with [completedAt] set and the note "Error: "
    followed by the text of the error, which is its message, or
    [String(error)] when the message is empty; [startedAt] is the time
    read at entry; the last line of the log is "FATAL ERROR: ", that
    text, a line feed and the stack of the error; the last status
    persisted is ERROR; and the rows of all other runs are as before. *)
Theorem orchestrateRun_fails (ph : Orchestrator.Phases) (runId : ustring)
  (w w' : Orchestrator.World) (run : Orchestrator.Run) (e : ustring)
  (Hrun : Orchestrator.findRun runId w = Some run)
  (H : Orchestrator.orchestrateRun ph runId w = (Throw e, w')) :
  exists text completedAt,
    (e <> [] -> text = e)
    /\ (e = [] -> text = Orchestrator.ph_errorString ph e)
    /\ (exists w1,
          Orchestrator.pipeline ph runId (Orchestrator.now w) w
          = (Throw e, w1))
    /\ Orchestrator.runs w'
       = onRun runId
           (ended (Orchestrator.now w) completedAt Orchestrator.ERROR
              (Some (lit "Error: " ++ text)))
           (Orchestrator.runs w)
    /\ Orchestrator.findRun runId w'
       = Some (ended (Orchestrator.now w) completedAt
                 Orchestrator.ERROR (Some (lit "Error: " ++ text)) run)
    /\ (exists logs,
          Orchestrator.runLogs (Orchestrator.tables w')
          = logs ++ [(runId,
                      lit "FATAL ERROR: " ++ text
                      ++ 10%N :: match Orchestrator.ph_errorStack ph e with
                                 | Some stack => stack
                                 | None => []
                                 end)])
    /\ (exists l,
          Orchestrator.statusLog w' = l ++ [(runId, Orchestrator.ERROR)]).
Proof.
  exists (Orchestrator.errorText ph e), (Orchestrator.now w).
  split; [destruct e; [intros N; exfalso; apply N|]; reflexivity|].
  split; [intros ->; reflexivity|].
  unfold Orchestrator.orchestrateRun in H.
  apply bind_inv in H.
  destruct H as [(w0 & w1 & H0 & H) | (e0 & H0 & _)]; [|discriminate H0].
  inversion H0; subst w0 w1. clear H0.
  apply tryCatch_inv in H.
  destruct H as [(a & _ & Hr) | (e0 & w1 & H1 & H2)]; [discriminate Hr|].
  rewrite Hrun in H1.
  assert (P1 : Orchestrator.pipeline ph runId (Orchestrator.now w) w
               = (Throw e0, w1)).
  { destruct (Orchestrator.run_status run); try exact H1. discriminate H1. }
  clear H1.
  pose proof (@pipeline_row ph runId w run (Throw e0) w1 Hrun P1) as M.
  destruct M as (Mn & st0 & note0 & Mr).
  apply bind_inv in H2.
  destruct H2 as [(u & w2 & S1 & H2) | (e1 & S1 & _)].
  - pose proof (@setStatus_Logged runId _ _ _ _ _ _ S1) as L1.
    apply setStatus_runs in S1 as (Sn & St & Sr).
    unfold bind in H2. rewrite appendLog_effect in H2.
    unfold throw in H2. inversion H2; subst e w'. clear H2.
    split; [exists w1; exact P1|].
    assert (R2 : Orchestrator.runs w2
                 = onRun runId
                     (ended (Orchestrator.now w) (Orchestrator.now w)
                        Orchestrator.ERROR
                        (Some (lit "Error: " ++ Orchestrator.errorText ph e0)))
                     (Orchestrator.runs w)).
    { rewrite Sr, Mr. rewrite onRun_onRun by reflexivity.
      apply onRun_ext. intros x. unfold ended. simpl. rewrite Mn.
      reflexivity. }
    assert (F2 : Orchestrator.findRun runId w2
                 = Some (ended (Orchestrator.now w) (Orchestrator.now w)
                           Orchestrator.ERROR
                           (Some (lit "Error: "
                                  ++ Orchestrator.errorText ph e0)) run)).
    { apply (@findRun_onRun runId _ w w2 run); [reflexivity|exact R2|exact Hrun]. }
    rewrite F2. simpl. split; [exact R2|]. split; [|split].
    + unfold Orchestrator.findRun in *. simpl. exact F2.
    + eexists. reflexivity.
    + eexists. exact L1.
  - exfalso. apply setStatus_runs in S1 as (_ & _ & _ & S1).
    rewrite (@findRun_onRun runId (started (Orchestrator.now w) st0 note0)
               w w1 run) in S1;
      [discriminate S1|reflexivity|exact Mr|exact Hrun].
Qed.

Lemma orchestrateRun_fails_witness :
  let w' := snd (Orchestrator.orchestrateRun RunExample.failingPhases
                   (lit "run_1") (RunExample.world Orchestrator.NEW)) in
  exists completedAt,
    Orchestrator.runs w'
    = [ended 700000000 completedAt Orchestrator.ERROR
         (Some (lit "Error: Transaction failed"))
         (RunExample.run1 Orchestrator.NEW)]
    /\ Orchestrator.runLogs (Orchestrator.tables w')
       = [(lit "run_1",
           lit "FATAL ERROR: Transaction failed"
           ++ 10%N :: lit "Error: Transaction failed")].
Proof.
  destruct (@orchestrateRun_fails RunExample.failingPhases (lit "run_1")
              (RunExample.world Orchestrator.NEW)
              (snd (Orchestrator.orchestrateRun RunExample.failingPhases
                      (lit "run_1") (RunExample.world Orchestrator.NEW)))
              (RunExample.run1 Orchestrator.NEW)
              (lit "Transaction failed"))
    as (text & t & T & _ & _ & R & _).
  - vm_compute. reflexivity.
  - vm_compute. reflexivity.
  - rewrite (T ltac:(discriminate)) in R.
    exists t. split; [rewrite R; vm_compute; reflexivity|vm_compute; reflexivity].
Defined.

(** X13.  The two ways [orchestrateRun] ends before it starts.  A run that is
    SKIPPED makes it return at once; a run that is not in the table makes
    it throw, and what the caller sees is the error of the status write
    in the [catch] block, not "Run not found".  Either way nothing is
    written. *)
Theorem orchestrateRun_before_start (ph : Orchestrator.Phases)
  (runId : ustring) (w : Orchestrator.World) :
  (Orchestrator.findRun runId w = None ->
   Orchestrator.orchestrateRun ph runId w
   = (Throw (lit "Record to update not found."), w))
  /\ (forall run,
        Orchestrator.findRun runId w = Some run ->
        Orchestrator.run_status run = Orchestrator.SKIPPED ->
        Orchestrator.orchestrateRun ph runId w = (Ok tt, w)).
Proof.
  split.
  - intros Hn. unfold Orchestrator.orchestrateRun, bind, get, tryCatch, throw,
      Orchestrator.setStatus, Orchestrator.runUpdate.
    rewrite Hn. cbv beta iota. unfold bind, get. rewrite Hn. reflexivity.
  - intros run Hr Hs. unfold Orchestrator.orchestrateRun, bind, get, tryCatch.
    rewrite Hr, Hs. reflexivity.
Qed.

Lemma orchestrateRun_before_start_witness :
  Orchestrator.orchestrateRun RunExample.quietPhases (lit "run_9")
    (RunExample.world Orchestrator.NEW)
  = (Throw (lit "Record to update not found."),
     RunExample.world Orchestrator.NEW)
  /\ Orchestrator.orchestrateRun RunExample.quietPhases (lit "run_1")
       (RunExample.world Orchestrator.SKIPPED)
     = (Ok tt, RunExample.world Orchestrator.SKIPPED).
Proof.
  split.
  - apply (proj1 (orchestrateRun_before_start RunExample.quietPhases
                    (lit "run_9") (RunExample.world Orchestrator.NEW))).
    vm_compute. reflexivity.
  - apply (proj2 (orchestrateRun_before_start RunExample.quietPhases
                    (lit "run_1") (RunExample.world Orchestrator.SKIPPED))
             (RunExample.run1 Orchestrator.SKIPPED)).
    + vm_compute. reflexivity.
    + reflexivity.
Defined.

(* ================================================================== *)
(** * The task queue of the scheduler *)
(* ================================================================== *)

Module TaskQueue.
Import Scheduler.

(** The fields of [TaskScheduler]. *)
Record TaskScheduler := {
  tasks : list ScheduledTask;
  isRunning : bool
}.

(** [{ id, ...task }] *)
Definition withId (id : ustring) (t : ScheduledTask) : ScheduledTask :=
  {| task_id := id; task_type := task_type t;
     task_projectId := task_projectId t; task_runId := task_runId t;
     task_scheduledFor := task_scheduledFor t;
     task_priority := task_priority t; task_userId := task_userId t |}.

(** [tasks.sort((a, b) => a.scheduledFor.getTime() -
    b.scheduledFor.getTime())]: the sort of an array is stable, so the
    result is the insertion sort that keeps the order of equal times. *)
Fixpoint insertByTime (t : ScheduledTask) (l : list ScheduledTask)
  : list ScheduledTask :=
  match l with
  | [] => [t]
  | x :: r =>
      if Z.leb (task_scheduledFor t) (task_scheduledFor x)
      then t :: l else x :: insertByTime t r
  end.

Definition sortByTime (l : list ScheduledTask) : list ScheduledTask :=
  fold_right insertByTime [] l.

(** [tasks.findIndex(task => task.id === taskId)] *)
Fixpoint findIndex (taskId : ustring) (l : list ScheduledTask) : option nat :=
  match l with
  | [] => None
  | x :: r =>
      if ueqb (task_id x) taskId then Some 0
      else match findIndex taskId r with
           | Some i => Some (S i)
           | None => None
           end
  end.

(** [cancel(taskId)], with [tasks.splice(index, 1)]. *)
Definition cancel (taskId : ustring) (s : TaskScheduler)
  : TaskScheduler * bool :=
  match findIndex taskId (tasks s) with
  | None => (s, false)
  | Some index =>
      ({| tasks := firstn index (tasks s) ++ skipn (S index) (tasks s);
          isRunning := isRunning s |}, true)
  end.

Definition getTasksCount (s : TaskScheduler) : nat := length (tasks s).

Definition getNextTaskTime (s : TaskScheduler) : option Z :=
  match tasks s with
  | t :: _ => Some (task_scheduledFor t)
  | [] => None
  end.

(** [for (let i = 0; i < readyTasks.length; i += concurrency)
    readyTasks.slice(i, i + concurrency)] *)
Fixpoint batchesFrom (fuel : nat) (concurrency : nat) (l : list ScheduledTask)
  : list (list ScheduledTask) :=
  match fuel, l with
  | S fuel', _ :: _ =>
      firstn concurrency l :: batchesFrom fuel' concurrency (skipn concurrency l)
  | _, _ => []
  end.

Definition batches (l : list ScheduledTask) : list (list ScheduledTask) :=
  batchesFrom (length l) 3 l.

(** One turn of the loop of [process] at the time [now], up to the
    execution of the tasks: the queue it leaves and the batches it hands
    to [executeTask]. *)
Definition processTurn (nowMs : Z) (s : TaskScheduler)
  : TaskScheduler * list (list ScheduledTask) :=
  let readyTasks :=
    filter (fun t => Z.leb (task_scheduledFor t) nowMs) (tasks s) in
  match readyTasks with
  | [] => (s, [])
  | _ =>
      ({| tasks := filter (fun t => Z.ltb nowMs (task_scheduledFor t)) (tasks s);
          isRunning := isRunning s |},
       batches readyTasks)
  end.

(** [start()]: a scheduler that is not running is set running and
    [process()] is called, whose first turn runs at once, up to its first
    [await]: the tasks due at [nowMs] have left the queue when [start]
    returns.  Yields also the batches that turn hands to [executeTask]. *)
Definition start (nowMs : Z) (s : TaskScheduler)
  : TaskScheduler * list (list ScheduledTask) :=
  if isRunning s then (s, [])
  else processTurn nowMs {| tasks := tasks s; isRunning := true |}.

(** [schedule(task)] at the time [nowMs]; the id, made of the clock and
    a random number, is given by the caller.  Yields the scheduler, the
    id, and the batches handed to [executeTask] by the turn that
    [start()] runs when the scheduler was not running. *)
Definition schedule (id : ustring) (task : ScheduledTask) (nowMs : Z)
  (s : TaskScheduler)
  : TaskScheduler * ustring * list (list ScheduledTask) :=
  let s1 := {| tasks := sortByTime (tasks s ++ [withId id task]);
               isRunning := isRunning s |} in
  if isRunning s1 then (s1, id, [])
  else let (s2, handed) := start nowMs s1 in (s2, id, handed).

(** [task.type === 'AUTO_RERUN' && task.projectId === projectId] *)
Definition monitors (projectId : ustring) (t : ScheduledTask) : bool :=
  (match task_type t with AUTO_RERUN => true | _ => false end
   && match task_projectId t with
      | Some p => ueqb p projectId
      | None => false
      end)%bool.

(** [cancelProjectMonitoring(projectId)] *)
Definition cancelProjectMonitoring (projectId : ustring) (s : TaskScheduler)
  : TaskScheduler * nat :=
  let ts := filter (monitors projectId) (tasks s) in
  (fold_left (fun s' t => fst (cancel (task_id t) s')) ts s, length ts).

(** Ascending in [scheduledFor]. *)
Definition byTime (a b : ScheduledTask) : Prop :=
  (task_scheduledFor a <= task_scheduledFor b)%Z.

End TaskQueue.
Import TaskQueue.

Lemma filter_all {A} (p : A -> bool) l :
  (forall x, In x l -> p x = true) -> filter p l = l.
Proof.
  induction l as [|x l IH]; simpl; intros H; [reflexivity|].
  rewrite (H x (or_introl eq_refl)). f_equal. apply IH.
  intros y Hy. apply H. right. exact Hy.
Qed.

Lemma insertByTime_perm t l : Permutation (insertByTime t l) (t :: l).
Proof.
  induction l as [|x r IH]; simpl; [reflexivity|].
  destruct (Z.leb _ _); [reflexivity|].
  rewrite IH. apply perm_swap.
Qed.

Lemma sortByTime_perm l : Permutation (sortByTime l) l.
Proof.
  induction l as [|x r IH]; simpl; [reflexivity|].
  rewrite insertByTime_perm. constructor. exact IH.
Qed.

Lemma insertByTime_sorted t l :
  StronglySorted byTime l -> StronglySorted byTime (insertByTime t l).
Proof.
  induction l as [|x r IH]; intros S; simpl.
  - constructor; constructor.
  - inversion S as [|? ? Sr Fx]; subst.
    destruct (Z.leb (Scheduler.task_scheduledFor t)
                    (Scheduler.task_scheduledFor x)) eqn:E.
    + apply Z.leb_le in E. constructor; [exact S|].
      constructor; [exact E|].
      eapply Forall_impl; [|exact Fx]. intros y Hy. unfold byTime in *. lia.
    + apply Z.leb_gt in E. constructor; [apply IH; exact Sr|].
      apply (@Permutation_Forall _ _ (t :: r) _
               (Permutation_sym (insertByTime_perm t r))).
      constructor; [unfold byTime; lia|exact Fx].
Qed.

Lemma sortByTime_sorted l : StronglySorted byTime (sortByTime l).
Proof.
  induction l as [|x r IH]; simpl; [constructor|].
  apply insertByTime_sorted. exact IH.
Qed.

Lemma fold_insert_sorted n l :
  StronglySorted byTime l ->
  fold_right insertByTime [n] l
  = filter (fun x => Z.leb (Scheduler.task_scheduledFor x)
                           (Scheduler.task_scheduledFor n)) l
    ++ n :: filter (fun x => Z.ltb (Scheduler.task_scheduledFor n)
                                   (Scheduler.task_scheduledFor x)) l.
Proof.
  induction l as [|x r IH]; intros S; [reflexivity|].
  inversion S as [|? ? Sr Fx]; subst. cbn [fold_right filter].
  rewrite (IH Sr). rewrite Forall_forall in Fx. unfold byTime in Fx.
  destruct (Z.leb (Scheduler.task_scheduledFor x)
                  (Scheduler.task_scheduledFor n)) eqn:E.
  - assert (L : Z.ltb (Scheduler.task_scheduledFor n)
                      (Scheduler.task_scheduledFor x) = false)
      by (apply Z.leb_le in E; apply Z.ltb_ge; lia).
    rewrite L. apply Z.leb_le in E.
    destruct (filter _ r) as [|h t] eqn:F; simpl.
    + assert (E' : Z.leb (Scheduler.task_scheduledFor x)
                         (Scheduler.task_scheduledFor n) = true)
        by (apply Z.leb_le; exact E).
      rewrite E'. reflexivity.
    + assert (Hh : In h r).
      { eapply proj1. apply filter_In. rewrite F. simpl. auto. }
      assert (E' : Z.leb (Scheduler.task_scheduledFor x)
                         (Scheduler.task_scheduledFor h) = true)
        by (apply Z.leb_le; apply Fx; exact Hh).
      rewrite E'. reflexivity.
  - assert (L : Z.ltb (Scheduler.task_scheduledFor n)
                      (Scheduler.task_scheduledFor x) = true)
      by (apply Z.leb_gt in E; apply Z.ltb_lt; lia).
    rewrite L. apply Z.leb_gt in E.
    rewrite (@filter_none _ (fun y => Z.leb (Scheduler.task_scheduledFor y)
                                            (Scheduler.task_scheduledFor n)) r).
    2:{ intros y Hy. apply Z.leb_gt. specialize (Fx y Hy). lia. }
    rewrite (@filter_all _ (fun y => Z.ltb (Scheduler.task_scheduledFor n)
                                           (Scheduler.task_scheduledFor y)) r).
    2:{ intros y Hy. apply Z.ltb_lt. specialize (Fx y Hy). lia. }
    simpl.
    assert (E' : Z.leb (Scheduler.task_scheduledFor x)
                       (Scheduler.task_scheduledFor n) = false)
      by (apply Z.leb_gt; exact E).
    rewrite E'. f_equal.
    destruct r as [|h t]; simpl; [reflexivity|].
    assert (E2 : Z.leb (Scheduler.task_scheduledFor x)
                       (Scheduler.task_scheduledFor h) = true)
      by (apply Z.leb_le; apply Fx; simpl; auto).
    rewrite E2. reflexivity.
Qed.

Lemma sorted_split_time T l :
  StronglySorted byTime l ->
  filter (fun x => Z.leb (Scheduler.task_scheduledFor x) T) l
  ++ filter (fun x => Z.ltb T (Scheduler.task_scheduledFor x)) l = l.
Proof.
  induction l as [|x r IH]; intros S; [reflexivity|].
  inversion S as [|? ? Sr Fx]; subst. simpl.
  rewrite Forall_forall in Fx. unfold byTime in Fx.
  destruct (Z.leb (Scheduler.task_scheduledFor x) T) eqn:E.
  - assert (L : Z.ltb T (Scheduler.task_scheduledFor x) = false)
      by (apply Z.leb_le in E; apply Z.ltb_ge; lia).
    rewrite L. simpl. f_equal. apply IH. exact Sr.
  - assert (L : Z.ltb T (Scheduler.task_scheduledFor x) = true)
      by (apply Z.leb_gt in E; apply Z.ltb_lt; lia).
    rewrite L. apply Z.leb_gt in E.
    rewrite (@filter_none _ (fun y => Z.leb (Scheduler.task_scheduledFor y) T) r).
    2:{ intros y Hy. apply Z.leb_gt. specialize (Fx y Hy). lia. }
    rewrite (@filter_all _ (fun y => Z.ltb T (Scheduler.task_scheduledFor y)) r).
    2:{ intros y Hy. apply Z.ltb_lt. specialize (Fx y Hy). lia. }
    reflexivity.
Qed.

Lemma sortByTime_snoc l n :
  sortByTime (l ++ [n]) = fold_right insertByTime [n] l.
Proof. unfold sortByTime. rewrite fold_right_app. reflexivity. Qed.

Lemma batchesFrom_spec fuel : forall l,
  length l <= fuel ->
  concat (batchesFrom fuel 3 l) = l
  /\ Forall (fun b => 1 <= length b <= 3) (batchesFrom fuel 3 l).
Proof.
  induction fuel as [|fuel IH]; intros l Hl.
  - destruct l; [|simpl in Hl; lia]. simpl. auto.
  - destruct l as [|x l]; [simpl; auto|].
    cbn [batchesFrom concat].
    destruct (IH (skipn 3 (x :: l))) as [C F].
    { rewrite length_skipn. cbn [length] in *. lia. }
    rewrite C, firstn_skipn. split; [reflexivity|].
    constructor; [|exact F].
    rewrite length_firstn. cbn [length]. lia.
Qed.

Lemma sorted_filter (p : Scheduler.ScheduledTask -> bool) l :
  StronglySorted byTime l -> StronglySorted byTime (filter p l).
Proof.
  induction l as [|x r IH]; intros S; simpl; [constructor|].
  inversion S as [|? ? Sr Fx]; subst.
  destruct (p x); [|apply IH; exact Sr].
  constructor; [apply IH; exact Sr|].
  rewrite Forall_forall in *. intros y Hy. apply Fx.
  apply filter_In in Hy. tauto.
Qed.

(** What a turn hands on and what it keeps. *)
Lemma processTurn_split nowMs s :
  concat (snd (processTurn nowMs s))
  = filter (fun t => Z.leb (Scheduler.task_scheduledFor t) nowMs) (tasks s)
  /\ tasks (fst (processTurn nowMs s))
     = filter (fun t => Z.ltb nowMs (Scheduler.task_scheduledFor t)) (tasks s)
  /\ Forall (fun b => 1 <= length b <= 3) (snd (processTurn nowMs s))
  /\ isRunning (fst (processTurn nowMs s)) = isRunning s.
Proof.
  unfold processTurn.
  destruct (filter (fun t => Z.leb (Scheduler.task_scheduledFor t) nowMs)
              (tasks s)) as [|r0 rs] eqn:E.
  - cbn [fst snd concat]. split; [reflexivity|]. split; [|auto].
    symmetry. apply filter_all. intros t Ht. apply Z.ltb_lt.
    assert (F : Z.leb (Scheduler.task_scheduledFor t) nowMs = false).
    { destruct (Z.leb (Scheduler.task_scheduledFor t) nowMs) eqn:L;
        [|reflexivity].
      assert (I : In t []) by (rewrite <- E; apply filter_In; auto).
      destruct I. }
    apply Z.leb_gt in F. exact F.
  - cbn [fst snd tasks isRunning]. unfold batches.
    destruct (@batchesFrom_spec (length (r0 :: rs)) (r0 :: rs) (le_n _))
      as [C F].
    auto.
Qed.

Lemma due_later_perm nowMs (l : list Scheduler.ScheduledTask) :
  Permutation
    (filter (fun t => Z.leb (Scheduler.task_scheduledFor t) nowMs) l
     ++ filter (fun t => Z.ltb nowMs (Scheduler.task_scheduledFor t)) l)
    l.
Proof.
  induction l as [|x r IH]; simpl; [constructor|].
  destruct (Z.leb (Scheduler.task_scheduledFor x) nowMs) eqn:L.
  - assert (G : Z.ltb nowMs (Scheduler.task_scheduledFor x) = false)
      by (apply Z.leb_le in L; apply Z.ltb_ge; exact L).
    rewrite G. simpl. constructor. exact IH.
  - assert (G : Z.ltb nowMs (Scheduler.task_scheduledFor x) = true)
      by (apply Z.leb_gt in L; apply Z.ltb_lt; exact L).
    rewrite G. apply Permutation_sym, Permutation_cons_app.
    apply Permutation_sym. exact IH.
Qed.

(** X14.  [schedule] on any scheduler: it returns the id, leaves the scheduler
    running and the queue in ascending order of [scheduledFor], and the
    tasks handed on together with the tasks queued are the tasks that
    were queued and the new one.  On a running scheduler nothing is
    handed on and the queue has grown by the new task; on a scheduler
    that was not running the first turn has run when [schedule] returns,
    so the tasks due by then, the new one included, have left the queue.
    [getNextTaskTime] is the earliest time in the queue. *)
Theorem schedule_queue (id : ustring) (task : Scheduler.ScheduledTask)
  (nowMs : Z) (s : TaskScheduler) :
  let r := schedule id task nowMs s in
  let s' := fst (fst r) in
  let handed := snd r in
  let sorted := sortByTime (tasks s ++ [withId id task]) in
  snd (fst r) = id
  /\ isRunning s' = true
  /\ StronglySorted byTime (tasks s')
  /\ Permutation (concat handed ++ tasks s') (withId id task :: tasks s)
  /\ (isRunning s = true ->
      handed = [] /\ tasks s' = sorted
      /\ getTasksCount s' = S (getTasksCount s))
  /\ (isRunning s = false ->
      concat handed
      = filter (fun t => Z.leb (Scheduler.task_scheduledFor t) nowMs) sorted
      /\ tasks s'
         = filter (fun t => Z.ltb nowMs (Scheduler.task_scheduledFor t)) sorted)
  /\ match getNextTaskTime s' with
     | Some m => forall t, In t (tasks s') ->
                           (m <= Scheduler.task_scheduledFor t)%Z
     | None => tasks s' = []
     end.
Proof.
  intros r s' handed sorted.
  assert (Ps : Permutation sorted (withId id task :: tasks s)).
  { unfold sorted. rewrite sortByTime_perm. rewrite Permutation_app_comm.
    reflexivity. }
  assert (Ss : StronglySorted byTime sorted) by apply sortByTime_sorted.
  assert (Next : forall q : TaskScheduler,
             StronglySorted byTime (tasks q) ->
             match getNextTaskTime q with
             | Some m => forall t, In t (tasks q) ->
                                   (m <= Scheduler.task_scheduledFor t)%Z
             | None => tasks q = []
             end).
  { intros q Sq. unfold getNextTaskTime. destruct (tasks q) as [|h rest];
      [reflexivity|].
    inversion Sq as [|? ? _ Fh]; subst. rewrite Forall_forall in Fh.
    intros t [<-|Ht]; [lia|apply Fh; exact Ht]. }
  subst s' handed r. unfold schedule. cbn [isRunning tasks]. fold sorted.
  destruct (isRunning s) eqn:Run.
  - cbn [fst snd tasks isRunning concat app].
    split; [reflexivity|]. split; [reflexivity|]. split; [exact Ss|].
    split; [exact Ps|]. split; [|split; [discriminate|]].
    + intros _. split; [reflexivity|]. split; [reflexivity|].
      unfold getTasksCount. cbn [tasks].
      rewrite (Permutation_length Ps). reflexivity.
    + apply (Next {| tasks := sorted; isRunning := true |}). exact Ss.
  - unfold start. cbn [isRunning tasks].
    destruct (processTurn_split nowMs {| tasks := sorted; isRunning := true |})
      as (C & T & _ & R).
    destruct (processTurn nowMs {| tasks := sorted; isRunning := true |})
      as [s2 hs].
    cbn [fst snd tasks isRunning] in *.
    assert (S2 : StronglySorted byTime (tasks s2)).
    { rewrite T. apply sorted_filter. exact Ss. }
    split; [reflexivity|]. split; [exact R|]. split; [exact S2|].
    split; [|split; [discriminate|split]].
    + rewrite C, T. rewrite due_later_perm. exact Ps.
    + intros _. auto.
    + apply Next. exact S2.
Qed.

(** X15.  [schedule] on a running scheduler whose queue is in order: the new
    task goes behind every task that is due at its time or earlier and
    before every later one, and the tasks that were queued keep their
    order. *)
Theorem schedule_fifo (id : ustring) (task : Scheduler.ScheduledTask)
  (nowMs : Z) (s : TaskScheduler)
  (Hrun : isRunning s = true)
  (H : StronglySorted byTime (tasks s)) :
  tasks (fst (fst (schedule id task nowMs s)))
  = filter (fun x => Z.leb (Scheduler.task_scheduledFor x)
                           (Scheduler.task_scheduledFor task)) (tasks s)
    ++ withId id task
       :: filter (fun x => Z.ltb (Scheduler.task_scheduledFor task)
                                 (Scheduler.task_scheduledFor x)) (tasks s).
Proof.
  unfold schedule. cbn [isRunning]. rewrite Hrun. cbn [fst tasks].
  rewrite sortByTime_snoc.
  apply (fold_insert_sorted (withId id task) H).
Qed.

Module QueueExample.
Import Scheduler.

Definition rerun (id : string) (project : string) (at_ : Z) : ScheduledTask :=
  {| task_id := lit id; task_type := AUTO_RERUN;
     task_projectId := Some (lit project); task_runId := None;
     task_scheduledFor := at_; task_priority := 1;
     task_userId := Some (lit "user_1") |}.

Definition cleanup (id : string) (at_ : Z) : ScheduledTask :=
  {| task_id := lit id; task_type := CLEANUP;
     task_projectId := None; task_runId := None;
     task_scheduledFor := at_; task_priority := 0; task_userId := None |}.

(** Five tasks in order of their times, two of them at the time 200. *)
Definition queue : TaskScheduler :=
  {| tasks := [rerun "t1" "p1" 100; rerun "t2" "p2" 200; cleanup "t3" 200;
               rerun "t4" "p1" 300; rerun "t5" "p2" 400];
     isRunning := true |}.

End QueueExample.

Lemma queue_sorted : StronglySorted byTime (tasks QueueExample.queue).
Proof.
  unfold QueueExample.queue, byTime. cbn [tasks].
  repeat (constructor; [|repeat constructor; simpl; lia]). constructor.
Qed.

Lemma schedule_fifo_witness :
  map Scheduler.task_id
    (tasks (fst (fst (schedule (lit "t6") (QueueExample.rerun "" "p3" 200)
                        150 QueueExample.queue))))
  = map lit ["t1"; "t2"; "t3"; "t6"; "t4"; "t5"]%string.
Proof.
  rewrite (@schedule_fifo (lit "t6") (QueueExample.rerun "" "p3" 200) 150
             QueueExample.queue eq_refl queue_sorted).
  vm_compute. reflexivity.
Defined.

Lemma findIndex_None taskId l :
  findIndex taskId l = None <-> ~ In taskId (map Scheduler.task_id l).
Proof.
  induction l as [|x r IH]; simpl; [tauto|].
  destruct (ueqb (Scheduler.task_id x) taskId) eqn:E.
  - apply ueqb_eq in E. split; [discriminate|]. intros H. exfalso. auto.
  - apply ueqb_neq in E. destruct (findIndex taskId r).
    + split; [discriminate|]. intros H.
      assert (Hn : ~ In taskId (map Scheduler.task_id r)) by tauto.
      apply IH in Hn. discriminate Hn.
    + split; [|reflexivity]. intros _ [H|H]; [auto|].
      revert H. apply IH. reflexivity.
Qed.

Lemma findIndex_Some taskId l i :
  findIndex taskId l = Some i ->
  exists l1 t l2,
    l = l1 ++ t :: l2 /\ Scheduler.task_id t = taskId
    /\ ~ In taskId (map Scheduler.task_id l1)
    /\ firstn i l ++ skipn (S i) l = l1 ++ l2.
Proof.
  revert i. induction l as [|x r IH]; intros i; simpl; [discriminate|].
  destruct (ueqb (Scheduler.task_id x) taskId) eqn:E.
  - intros H. injection H as <-. apply ueqb_eq in E.
    exists [], x, r. simpl. auto.
  - apply ueqb_neq in E. destruct (findIndex taskId r) as [j|]; [|discriminate].
    intros H. injection H as <-.
    destruct (IH j eq_refl) as (l1 & t & l2 & -> & Et & Hn & Hs).
    exists (x :: l1), t, l2. simpl. repeat split; auto.
    + intros [H|H]; auto.
    + f_equal. exact Hs.
Qed.

Lemma sorted_remove (l1 : list Scheduler.ScheduledTask) t l2 :
  StronglySorted byTime (l1 ++ t :: l2) -> StronglySorted byTime (l1 ++ l2).
Proof.
  induction l1 as [|x l1 IH]; simpl; intros S.
  - inversion S; assumption.
  - inversion S as [|? ? Sr Fx]; subst. constructor; [apply IH; exact Sr|].
    rewrite Forall_forall in *. intros y Hy. apply Fx.
    apply in_app_iff in Hy. apply in_app_iff. simpl. tauto.
Qed.

(** X16.  [cancel]: an id that is not queued leaves the scheduler as it is and
    returns false; an id that is queued removes the first task with that
    id, and only that one, and returns true.  A queue in order stays in
    order. *)
Theorem cancel_spec (taskId : ustring) (s : TaskScheduler) :
  (~ In taskId (map Scheduler.task_id (tasks s)) -> cancel taskId s = (s, false))
  /\ (In taskId (map Scheduler.task_id (tasks s)) ->
      exists l1 t l2,
        tasks s = l1 ++ t :: l2
        /\ Scheduler.task_id t = taskId
        /\ ~ In taskId (map Scheduler.task_id l1)
        /\ cancel taskId s
           = ({| tasks := l1 ++ l2; isRunning := isRunning s |}, true))
  /\ (StronglySorted byTime (tasks s) ->
      StronglySorted byTime (tasks (fst (cancel taskId s)))).
Proof.
  unfold cancel. split; [|split].
  - intros H. apply findIndex_None in H. rewrite H. reflexivity.
  - intros H. destruct (findIndex taskId (tasks s)) as [i|] eqn:E.
    + destruct (findIndex_Some _ _ E) as (l1 & t & l2 & E1 & E2 & E3 & E4).
      exists l1, t, l2. rewrite E4. auto.
    + apply findIndex_None in E. contradiction.
  - intros S. destruct (findIndex taskId (tasks s)) as [i|] eqn:E; [|exact S].
    destruct (findIndex_Some _ _ E) as (l1 & t & l2 & E1 & _ & _ & E4).
    cbn [fst tasks]. rewrite E4. rewrite E1 in S.
    exact (sorted_remove _ _ _ S).
Qed.

Lemma cancel_spec_witness :
  cancel (lit "t9") QueueExample.queue = (QueueExample.queue, false)
  /\ map Scheduler.task_id (tasks (fst (cancel (lit "t3") QueueExample.queue)))
     = map lit ["t1"; "t2"; "t4"; "t5"]%string
  /\ StronglySorted byTime (tasks (fst (cancel (lit "t3") QueueExample.queue))).
Proof.
  destruct (cancel_spec (lit "t9") QueueExample.queue) as (A & _ & _).
  destruct (cancel_spec (lit "t3") QueueExample.queue) as (_ & B & C).
  split; [|split].
  - apply A. vm_compute. intuition discriminate.
  - vm_compute. reflexivity.
  - apply C. exact queue_sorted.
Defined.

Lemma findIndex_app taskId l1 t l2 :
  ~ In taskId (map Scheduler.task_id l1) -> Scheduler.task_id t = taskId ->
  findIndex taskId (l1 ++ t :: l2) = Some (length l1).
Proof.
  intros Hn Ht. induction l1 as [|x l1 IH]; simpl.
  - rewrite Ht, ueqb_refl. reflexivity.
  - simpl in Hn.
    destruct (ueqb (Scheduler.task_id x) taskId) eqn:E.
    + apply ueqb_eq in E. exfalso. auto.
    + rewrite IH by tauto. reflexivity.
Qed.

Lemma splice_middle {A} (l1 : list A) t l2 :
  firstn (length l1) (l1 ++ t :: l2) ++ skipn (S (length l1)) (l1 ++ t :: l2)
  = l1 ++ l2.
Proof.
  induction l1 as [|x l1 IH]; simpl; [reflexivity|].
  f_equal. exact IH.
Qed.

(** X17.  On a running scheduler whose queue is in order, scheduling a task
    under an id that is not in use and cancelling that id gives back the
    scheduler as it was. *)
Theorem schedule_cancel (id : ustring) (task : Scheduler.ScheduledTask)
  (nowMs : Z) (s : TaskScheduler)
  (Hrun : isRunning s = true)
  (Hs : StronglySorted byTime (tasks s))
  (Hid : ~ In id (map Scheduler.task_id (tasks s))) :
  cancel id (fst (fst (schedule id task nowMs s))) = (s, true).
Proof.
  unfold schedule, cancel. cbn [isRunning]. rewrite Hrun.
  cbn [fst tasks isRunning].
  rewrite sortByTime_snoc, (fold_insert_sorted (withId id task) Hs).
  cbn [withId Scheduler.task_scheduledFor].
  rewrite findIndex_app.
  - rewrite splice_middle, sorted_split_time by exact Hs.
    destruct s as [ts run]. cbn [tasks isRunning] in *. subst run.
    reflexivity.
  - intros Hin. apply Hid. apply in_map_iff in Hin as (x & Ex & Hx).
    apply filter_In in Hx as [Hx _]. apply in_map_iff. eauto.
  - reflexivity.
Qed.

Lemma schedule_cancel_witness :
  cancel (lit "t6")
    (fst (fst (schedule (lit "t6") (QueueExample.rerun "" "p3" 200) 150
                 QueueExample.queue)))
  = (QueueExample.queue, true).
Proof.
  apply (@schedule_cancel (lit "t6") (QueueExample.rerun "" "p3" 200) 150
           QueueExample.queue eq_refl queue_sorted).
  vm_compute. intuition discriminate.
Defined.
(** X18.  One turn of the processing loop: the tasks due at [now] or earlier
    leave the queue and are handed on, each once and in queue order, in
    batches of one to three; the tasks due later stay, in their order;
    no task is both handed on and kept. *)
Theorem processTurn_spec (nowMs : Z) (s : TaskScheduler) :
  let s' := fst (processTurn nowMs s) in
  let bs := snd (processTurn nowMs s) in
  concat bs
  = filter (fun t => Z.leb (Scheduler.task_scheduledFor t) nowMs) (tasks s)
  /\ tasks s'
     = filter (fun t => Z.ltb nowMs (Scheduler.task_scheduledFor t)) (tasks s)
  /\ Forall (fun b => 1 <= length b <= 3) bs
  /\ Permutation (concat bs ++ tasks s') (tasks s)
  /\ (forall t, In t (concat bs) -> ~ In t (tasks s'))
  /\ isRunning s' = isRunning s.
Proof.
  intros s' bs.
  destruct (processTurn_split nowMs s) as (A1 & A2 & A3 & A4).
  fold bs in A1, A3. fold s' in A2, A4.
  split; [exact A1|]. split; [exact A2|]. split; [exact A3|].
  split; [|split; [|exact A4]].
  - rewrite A1, A2. apply due_later_perm.
  - intros t H1 H2. rewrite A1 in H1. rewrite A2 in H2.
    apply filter_In in H1 as [_ H1]. apply filter_In in H2 as [_ H2].
    apply Z.leb_le in H1. apply Z.ltb_lt in H2. lia.
Qed.

Lemma NoDup_map_inj {A B} (f : A -> B) l x y :
  NoDup (map f l) -> In x l -> In y l -> f x = f y -> x = y.
Proof.
  induction l as [|a l IH]; simpl; intros N Hx Hy E; [destruct Hx|].
  inversion N as [|? ? Na Nl]; subst.
  destruct Hx as [->|Hx], Hy as [->|Hy]; auto.
  - exfalso. apply Na. rewrite E. apply in_map. exact Hy.
  - exfalso. apply Na. rewrite <- E. apply in_map. exact Hx.
Qed.

Lemma NoDup_map_filter {A B} (f : A -> B) (p : A -> bool) l :
  NoDup (map f l) -> NoDup (map f (filter p l)).
Proof.
  induction l as [|a l IH]; simpl; intros N; [constructor|].
  inversion N as [|? ? Na Nl]; subst.
  destruct (p a); simpl; [constructor|]; auto.
  intros H. apply Na. apply in_map_iff in H as (y & Ey & Hy).
  apply filter_In in Hy as [Hy _]. apply in_map_iff. eauto.
Qed.

(** With ids that are unique, [cancel] takes out exactly the tasks with
    the id. *)
Lemma cancel_filter taskId s :
  NoDup (map Scheduler.task_id (tasks s)) ->
  fst (cancel taskId s)
  = {| tasks := filter (fun x => negb (ueqb (Scheduler.task_id x) taskId))
                  (tasks s);
       isRunning := isRunning s |}.
Proof.
  intros N. unfold cancel.
  destruct (findIndex taskId (tasks s)) as [i|] eqn:E.
  - destruct (findIndex_Some _ _ E) as (l1 & t & l2 & E1 & E2 & E3 & E4).
    cbn [fst]. rewrite E4. f_equal. rewrite E1 in *.
    rewrite filter_app. simpl. rewrite E2, ueqb_refl. simpl.
    rewrite map_app in N. simpl in N. apply NoDup_remove_2 in N.
    rewrite E2 in N.
    rewrite !filter_all; [reflexivity| |].
    + intros x Hx. apply negb_true_iff. apply ueqb_neq. intros Ex.
      apply N. apply in_or_app. right. rewrite <- Ex. apply in_map. exact Hx.
    + intros x Hx. apply negb_true_iff. apply ueqb_neq. intros Ex.
      apply E3. rewrite <- Ex. apply in_map. exact Hx.
  - cbn [fst]. apply findIndex_None in E. destruct s as [ts run].
    cbn [tasks isRunning] in *. f_equal. symmetry. apply filter_all.
    intros x Hx. apply negb_true_iff. apply ueqb_neq. intros Ex.
    apply E. rewrite <- Ex. apply in_map. exact Hx.
Qed.

Lemma cancel_all_filter ts : forall s,
  NoDup (map Scheduler.task_id (tasks s)) ->
  fold_left (fun s' t => fst (cancel (Scheduler.task_id t) s')) ts s
  = {| tasks :=
         filter (fun x =>
                   negb (existsb (fun t => ueqb (Scheduler.task_id x)
                                                (Scheduler.task_id t)) ts))
                (tasks s);
       isRunning := isRunning s |}.
Proof.
  induction ts as [|t ts IH]; intros s N; simpl.
  - destruct s as [l run]. cbn [tasks isRunning]. f_equal. symmetry.
    apply filter_all. reflexivity.
  - rewrite IH; rewrite (@cancel_filter (Scheduler.task_id t) s N);
      cbn [tasks isRunning].
    + f_equal. clear. induction (tasks s) as [|x r IHr]; simpl; [reflexivity|].
      destruct (ueqb (Scheduler.task_id x) (Scheduler.task_id t)); simpl;
        [exact IHr|].
      destruct (existsb _ ts); simpl; [exact IHr|]. f_equal. exact IHr.
    + apply NoDup_map_filter. exact N.
Qed.

(** X19.  [cancelProjectMonitoring], the ids in the queue being unique: it
    removes the AUTO_RERUN tasks of the project and no other task, keeps
    the order of the rest, and returns the number of tasks removed. *)
Theorem cancelProjectMonitoring_spec (projectId : ustring) (s : TaskScheduler)
  (H : NoDup (map Scheduler.task_id (tasks s))) :
  cancelProjectMonitoring projectId s
  = ({| tasks := filter (fun t => negb (monitors projectId t)) (tasks s);
        isRunning := isRunning s |},
     length (filter (monitors projectId) (tasks s))).
Proof.
  unfold cancelProjectMonitoring. f_equal.
  rewrite (@cancel_all_filter _ s H). f_equal.
  apply filter_ext_in. intros x Hx. f_equal.
  destruct (monitors projectId x) eqn:M.
  - apply existsb_exists. exists x. split; [|apply ueqb_refl].
    apply filter_In. auto.
  - destruct (existsb _ _) eqn:X; [|reflexivity].
    apply existsb_exists in X as (t & Ht & Et).
    apply filter_In in Ht as [Ht Mt]. apply ueqb_eq in Et.
    rewrite (@NoDup_map_inj _ _ Scheduler.task_id (tasks s) x t H Hx Ht Et) in M.
    congruence.
Qed.

Lemma cancelProjectMonitoring_spec_witness :
  let r := cancelProjectMonitoring (lit "p1") QueueExample.queue in
  map Scheduler.task_id (tasks (fst r)) = map lit ["t2"; "t3"; "t5"]%string
  /\ snd r = 2.
Proof.
  rewrite (@cancelProjectMonitoring_spec (lit "p1") QueueExample.queue).
  - vm_compute. auto.
  - vm_compute. repeat constructor; simpl; intuition discriminate.
Defined.

(* ================================================================== *)
(** * Discovery across the queries of a run *)
(* ================================================================== *)

Module DiscoveryLoop.
Import Stages.

Section WithSearch.
Context {P : Platform}.
Variable parseUrl : ustring -> option ustring.
Variables relevanceTokens inputCompetitors : list ustring.

(** Lines 155-215, the loop over [queries]: an outcome is the result list
    of [search.search] for one query, or the error it threw (the [catch]
    block logs it and the loop goes on).  Yields the final [seen] set and
    the URLs pushed to [discovered], in order. *)
Fixpoint discover (seen : list ustring)
  (outcomes : list (Res (list SearchResult))) : list ustring * list ustring :=
  match outcomes with
  | [] => (seen, [])
  | Throw _ :: rest => discover seen rest
  | Ok results :: rest =>
      let (seen1, urls1) :=
        acceptSelected parseUrl seen
          (selectedResults parseUrl seen relevanceTokens inputCompetitors
             results) in
      let (seen2, urls2) := discover seen1 rest in
      (seen2, urls1 ++ urls2)
  end.

End WithSearch.
End DiscoveryLoop.

Lemma acceptSelected_spec {P : Platform} parseUrl sel : forall seen,
  let res := Stages.acceptSelected parseUrl seen sel in
  NoDup (snd res)
  /\ (forall u, In u (snd res) ->
        ~ In u seen /\ u <> []
        /\ exists r, In r sel /\ Stages.normalizeUrl parseUrl (Stages.sr_url r) = u)
  /\ (forall u, In u (fst res) <-> In u seen \/ In u (snd res)).
Proof.
  induction sel as [|r rest IH]; intros seen; cbn [Stages.acceptSelected].
  - cbn [fst snd]. split; [constructor|]. split; [intros u []|]. simpl. tauto.
  - destruct (ueqb (Stages.normalizeUrl parseUrl (Stages.sr_url r)) []
              || mem (Stages.normalizeUrl parseUrl (Stages.sr_url r)) seen)%bool
      eqn:E.
    + destruct (IH seen) as (N & U & S). split; [exact N|]. split; [|exact S].
      intros u Hu. destruct (U u Hu) as (A & B & r' & Hr & Er).
      split; [exact A|]. split; [exact B|]. exists r'. simpl. auto.
    + apply orb_false_iff in E as [E1 E2].
      apply ueqb_neq in E1. apply mem_not_In in E2.
      set (url := Stages.normalizeUrl parseUrl (Stages.sr_url r)) in *.
      specialize (IH (url :: seen)).
      destruct (Stages.acceptSelected parseUrl (url :: seen) rest)
        as [seen' urls].
      cbn [fst snd] in *. destruct IH as (N & U & S). split; [|split].
      * constructor; [|exact N]. intros Hin.
        destruct (U url Hin) as (A & _). apply A. simpl. auto.
      * intros u [<-|Hu].
        -- split; [exact E2|]. split; [exact E1|]. exists r. simpl. auto.
        -- destruct (U u Hu) as (A & B & r' & Hr & Er).
           split; [intros Hs; apply A; simpl; auto|]. split; [exact B|].
           exists r'. simpl. auto.
      * intros u. rewrite S. simpl. tauto.
Qed.

Lemma selectedResults_In {P : Platform} parseUrl seen tokens comps results r :
  In r (Stages.selectedResults parseUrl seen tokens comps results) ->
  In r (fresh parseUrl seen results).
Proof.
  unfold Stages.selectedResults. rewrite partitionResults_filter.
  destruct (filter (scores tokens comps) (fresh parseUrl seen results))
    as [|x l] eqn:E.
  - apply firstn_In.
  - rewrite <- E. intros H. apply filter_In in H. tauto.
Qed.

Lemma discover_spec {P : Platform} parseUrl tokens comps outcomes :
  forall seen,
  let res := DiscoveryLoop.discover parseUrl tokens comps seen outcomes in
  NoDup (snd res)
  /\ (forall u, In u (snd res) ->
        ~ In u seen /\ u <> []
        /\ exists results r,
             In (Ok results) outcomes /\ In r results
             /\ Stages.normalizeUrl parseUrl (Stages.sr_url r) = u)
  /\ (forall u, In u (fst res) <-> In u seen \/ In u (snd res)).
Proof.
  induction outcomes as [|o rest IH]; intros seen;
    cbn [DiscoveryLoop.discover].
  - cbn [fst snd]. split; [constructor|]. split; [intros u []|]. simpl. tauto.
  - destruct o as [results|e].
    + pose proof (acceptSelected_spec parseUrl
                    (Stages.selectedResults parseUrl seen tokens comps results)
                    seen) as A.
      destruct (Stages.acceptSelected parseUrl seen
                  (Stages.selectedResults parseUrl seen tokens comps results))
        as [seen1 urls1].
      specialize (IH seen1).
      destruct (DiscoveryLoop.discover parseUrl tokens comps seen1 rest)
        as [seen2 urls2].
      cbn [fst snd] in *. destruct A as (N1 & U1 & S1).
      destruct IH as (N2 & U2 & S2). split; [|split].
      * apply NoDup_app; [exact N1|exact N2|].
        intros u H1 H2. destruct (U2 u H2) as (A & _). apply A.
        apply S1. auto.
      * intros u Hu. apply in_app_iff in Hu as [Hu|Hu].
        -- destruct (U1 u Hu) as (A & B & r & Hr & Er).
           split; [exact A|]. split; [exact B|]. exists results, r.
           split; [simpl; auto|]. split; [|exact Er].
           apply selectedResults_In in Hr. apply filter_In in Hr. tauto.
        -- destruct (U2 u Hu) as (A & B & rs & r & Ho & Hr & Er).
           split; [intros Hs; apply A; apply S1; auto|]. split; [exact B|].
           exists rs, r. simpl. auto.
      * intros u. rewrite S2, S1, in_app_iff. tauto.
    + destruct (IH seen) as (N & U & S). split; [exact N|]. split; [|exact S].
      intros u Hu. destruct (U u Hu) as (A & B & rs & r & Ho & Hr & Er).
      split; [exact A|]. split; [exact B|]. exists rs, r. simpl. auto.
Qed.

(** X20.  The URLs discovered for a run, over all its queries: no normalized
    URL is taken twice, none is empty, and each is the normalized URL of
    a result of a query whose search returned. *)
Theorem discover_urls_distinct (P : Platform)
  (parseUrl : ustring -> option ustring)
  (relevanceTokens inputCompetitors : list ustring)
  (outcomes : list (Res (list Stages.SearchResult))) :
  let urls :=
    snd (DiscoveryLoop.discover parseUrl relevanceTokens inputCompetitors []
           outcomes) in
  NoDup urls
  /\ forall u, In u urls ->
       u <> []
       /\ exists results r,
            In (Ok results) outcomes /\ In r results
            /\ Stages.normalizeUrl parseUrl (Stages.sr_url r) = u.
Proof.
  intros urls.
  destruct (discover_spec parseUrl relevanceTokens inputCompetitors outcomes [])
    as (N & U & _).
  split; [exact N|]. intros u Hu. destruct (U u Hu) as (_ & B & C). auto.
Qed.

Lemma fold_score_ge {A} (f : nat -> A -> nat) l :
  (forall s x, s <= f s x) -> forall s, s <= fold_left f l s.
Proof.
  intros Hf. induction l as [|x l IH]; intros s; simpl; [lia|].
  specialize (IH (f s x)). specialize (Hf s x). lia.
Qed.

(** X21.  With no relevance token to compare against, every result whose URL
    parses and is new is selected: the score starts at 1 and the
    competitor names can only raise it. *)
Theorem selectedResults_accept_by_default (P : Platform)
  (parseUrl : ustring -> option ustring)
  (seen inputCompetitors : list ustring)
  (results : list Stages.SearchResult) :
  Stages.selectedResults parseUrl seen [] inputCompetitors results
  = fresh parseUrl seen results
  /\ forall r, 1 <= Stages.scoreOf [] inputCompetitors r.
Proof.
  assert (S : forall r, 1 <= Stages.scoreOf [] inputCompetitors r).
  { intros r. unfold Stages.scoreOf. apply fold_score_ge.
    intros s x. destruct (includes _ _); lia. }
  split; [|exact S].
  unfold Stages.selectedResults. rewrite partitionResults_filter.
  rewrite filter_all.
  - destruct (fresh parseUrl seen results) as [|x l] eqn:E; reflexivity.
  - intros r _. unfold scores. apply Nat.ltb_lt. specialize (S r). lia.
Qed.

(* ================================================================== *)
(** * Capability groups and the findings built from them *)
(* ================================================================== *)

Module CapDedup.
Import Orchestrator Stages.

Section WithPlatform.
Context {P : Platform}.

(** Lines 487-494: [capWrites.filter(c => { const k = ...; if
    (capSeen.has(k)) return false; capSeen.add(k); return true; })] *)
Fixpoint capUniqueFrom (capSeen : list ustring) (capWrites : list Capability)
  : list Capability :=
  match capWrites with
  | [] => []
  | c :: r =>
      let k := cap_category c ++ 124%N :: toLowerCase (cap_normalized c) in
      if mem k capSeen then capUniqueFrom capSeen r
      else c :: capUniqueFrom (k :: capSeen) r
  end.

Definition capUnique (capWrites : list Capability) : list Capability :=
  capUniqueFrom [] capWrites.

End WithPlatform.
End CapDedup.

Section GroupBy.
Variable A : Type.
Variable keyFn : A -> ustring.

Let step (acc : list (ustring * list A)) (x : A) :=
  let k := keyFn x in
  match map_get k acc with
  | Some l => map_set k (l ++ [x]) acc
  | None => map_set k [x] acc
  end.

Lemma groupBy_fold_get xs : forall acc k,
  map_get k (fold_left step xs acc)
  = match map_get k acc with
    | Some l => Some (l ++ filter (fun x => ueqb (keyFn x) k) xs)
    | None => match filter (fun x => ueqb (keyFn x) k) xs with
              | [] => None
              | l => Some l
              end
    end.
Proof.
  induction xs as [|x r IH]; intros acc k; simpl.
  - destruct (map_get k acc); [rewrite app_nil_r|]; reflexivity.
  - rewrite IH. unfold step.
    destruct (ueqb (keyFn x) k) eqn:E.
    + apply ueqb_eq in E. subst k.
      destruct (map_get (keyFn x) acc) as [l|] eqn:G;
        rewrite map_get_set_same; [rewrite <- app_assoc|]; reflexivity.
    + apply ueqb_neq in E.
      destruct (map_get (keyFn x) acc) as [l|] eqn:G;
        rewrite map_get_set_other by (intros ->; apply E; reflexivity);
        reflexivity.
Qed.

Lemma groupBy_fold_NoDup xs : forall acc,
  NoDup (map fst acc) -> NoDup (map fst (fold_left step xs acc)).
Proof.
  induction xs as [|x r IH]; intros acc N; simpl; [exact N|].
  apply IH. unfold step. destruct (map_get (keyFn x) acc);
    apply NoDup_map_set; exact N.
Qed.

Lemma groupBy_fold_fresh xs : forall acc,
  NoDup (map keyFn xs) ->
  (forall x, In x xs -> ~ In (keyFn x) (map fst acc)) ->
  fold_left step xs acc = acc ++ map (fun x => (keyFn x, [x])) xs.
Proof.
  induction xs as [|x r IH]; intros acc N F; simpl.
  - rewrite app_nil_r. reflexivity.
  - inversion N as [|? ? Nx Nr]; subst.
    assert (G : map_get (keyFn x) acc = @None (list A)).
    { apply map_get_None. apply F. simpl. auto. }
    unfold step at 2. rewrite G. fold step. rewrite (map_set_absent _ _ _ G).
    rewrite IH; [rewrite <- app_assoc; reflexivity|exact Nr|].
    intros y Hy Hin. rewrite map_app, in_app_iff in Hin.
    destruct Hin as [Hin|[E|[]]].
    + apply (F y); simpl; auto.
    + simpl in E. apply Nx. rewrite E. apply in_map. exact Hy.
Qed.

End GroupBy.

Lemma groupBy_nonempty {A : Type} (keyFn : A -> ustring) (xs : list A) k l :
  In (k, l) (Stages.groupBy keyFn xs) -> l <> [].
Proof.
  intros H.
  assert (N : NoDup (map fst (Stages.groupBy keyFn xs))).
  { apply (groupBy_fold_NoDup keyFn xs []). constructor. }
  apply (In_map_get _ _ _ N) in H.
  pose proof (groupBy_fold_get keyFn xs [] k) as G.
  cbn [map_get] in G. fold (Stages.groupBy keyFn xs) in G. rewrite G in H.
  destruct (filter _ xs); [discriminate H|].
  injection H as <-. discriminate.
Qed.

(** The keys of a map after [set]: in place when the key is there, at the
    end when it is new. *)
Lemma map_set_keys_mem {V} k (v : V) m :
  map fst (map_set k v m)
  = if mem k (map fst m) then map fst m else map fst m ++ [k].
Proof.
  induction m as [|[k' v'] r IH]; [reflexivity|].
  cbn [map_set map fst]. unfold mem in *. cbn [existsb].
  destruct (ueqb k k'); cbn [orb map fst]; [reflexivity|].
  rewrite IH. destruct (existsb (ueqb k) (map fst r)); reflexivity.
Qed.

Lemma uniqFrom_ext xs : forall seen seen',
  (forall k, mem k seen = mem k seen') -> uniqFrom seen xs = uniqFrom seen' xs.
Proof.
  induction xs as [|x r IH]; intros seen seen' H; [reflexivity|].
  cbn [uniqFrom]. rewrite <- (H x). destruct (mem x seen); [apply IH; exact H|].
  f_equal. apply IH. intros k. unfold mem. cbn [existsb]. f_equal. apply H.
Qed.

(** A loop that sets one key for each element it keeps: the keys of the
    map are those it had, then the new ones by first occurrence. *)
Lemma fold_set_keys {A V} (key : A -> ustring) (keep : A -> bool)
  (step : list (ustring * V) -> A -> list (ustring * V)) :
  (forall acc x,
     if keep x then exists v, step acc x = map_set (key x) v acc
     else step acc x = acc) ->
  forall xs acc,
    map fst (fold_left step xs acc)
    = map fst acc ++ uniqFrom (map fst acc) (map key (filter keep xs)).
Proof.
  intros H. induction xs as [|x r IH]; intros acc; cbn [fold_left filter].
  - cbn [map uniqFrom]. rewrite app_nil_r. reflexivity.
  - rewrite IH. specialize (H acc x). destruct (keep x).
    + destruct H as [v ->]. rewrite map_set_keys_mem. cbn [map uniqFrom].
      destruct (mem (key x) (map fst acc)) eqn:M; [reflexivity|].
      rewrite <- app_assoc. cbn [app]. do 2 f_equal.
      apply uniqFrom_ext. intros k. unfold mem.
      rewrite existsb_app. cbn [existsb]. rewrite orb_false_r.
      apply orb_comm.
    + rewrite H. reflexivity.
Qed.

(* ================================================================== *)
(** * [groupBy] and the plain object it fills *)
(* ================================================================== *)

Module PlainObject.

(** The names every object inherits from [Object.prototype]. *)
Definition inherited : list ustring :=
  map lit
    [ "constructor"; "__defineGetter__"; "__defineSetter__";
      "hasOwnProperty"; "__lookupGetter__"; "__lookupSetter__";
      "isPrototypeOf"; "propertyIsEnumerable"; "toString"; "valueOf";
      "__proto__"; "toLocaleString" ]%string.

(** [(acc[k] ||= []).push(x)] on an object [acc] made by [{}], whose own
    properties are arrays.  An own key holds its array.  A key that
    [acc] does not own and inherits reads a function, or the prototype
    for [__proto__]: the value is truthy, nothing is assigned, it has no
    [push], and the call throws a TypeError, which is [None] here. *)
Definition push {T} (acc : list (ustring * list T)) (k : ustring) (x : T)
  : option (list (ustring * list T)) :=
  match map_get k acc with
  | Some l => Some (map_set k (l ++ [x]) acc)
  | None => if mem k inherited then None else Some (map_set k [x] acc)
  end.

(** [xs.reduce((acc, x) => { ...; return acc }, init)] *)
Fixpoint reduce {T} (keyFn : T -> ustring) (xs : list T)
  (acc : list (ustring * list T)) : option (list (ustring * list T)) :=
  match xs with
  | [] => Some acc
  | x :: r =>
      match push acc (keyFn x) x with
      | Some acc' => reduce keyFn r acc'
      | None => None
      end
  end.

(** [groupBy]: the own properties of the object in the order of their
    creation. *)
Definition groupBy {T} (xs : list T) (keyFn : T -> ustring)
  : option (list (ustring * list T)) :=
  reduce keyFn xs [].

Definition isDigit (c : N) : bool := ((48 <=? c) && (c <=? 57))%N.

(** An array index: the canonical decimal numeral of a number below
    2^32 - 1. *)
Definition arrayIndex (k : ustring) : option N :=
  let canonical :=
    match k with
    | [] => false
    | [_] => true
    | c :: _ => negb (N.eqb c 48)
    end in
  if (forallb isDigit k && canonical)%bool
  then
    let n := fold_left (fun a c => (a * 10 + (c - 48))%N) k 0%N in
    if (n <? 4294967295)%N then Some n else None
  else None.

Fixpoint insertIndex {V} (n : N) (e : ustring * V)
  (l : list (N * (ustring * V))) : list (N * (ustring * V)) :=
  match l with
  | [] => [(n, e)]
  | (m, e') :: r =>
      if (n <=? m)%N then (n, e) :: l else (m, e') :: insertIndex n e r
  end.

(** The own properties whose key is an array index, by ascending
    index. *)
Fixpoint indexed {V} (o : list (ustring * V)) : list (N * (ustring * V)) :=
  match o with
  | [] => []
  | e :: r =>
      match arrayIndex (fst e) with
      | Some n => insertIndex n e (indexed r)
      | None => indexed r
      end
  end.

(** [Object.entries(o)]: the array indices in ascending order, then the
    other keys in the order of their creation. *)
Definition entries {V} (o : list (ustring * V)) : list (ustring * V) :=
  map snd (indexed o)
  ++ filter (fun e => match arrayIndex (fst e) with
                      | Some _ => false
                      | None => true
                      end) o.

End PlainObject.

(** [Object.entries({ b: 1, 10: 2, 9: 3, "01": 4, 4294967295: 5 })] *)
Example entries_order :
  PlainObject.entries
    [(lit "b", 1); (lit "10", 2); (lit "9", 3); (lit "01", 4);
     (lit "4294967295", 5)]
  = [(lit "9", 3); (lit "10", 2); (lit "b", 1); (lit "01", 4);
     (lit "4294967295", 5)].
Proof. vm_compute. reflexivity. Qed.

(** [groupBy(["toString", "a"], (s) => s)] throws at the first
    element; [groupBy(["b", "a", "b"], (s) => s)] is
    [{ b: ["b", "b"], a: ["a"] }]. *)
Example groupBy_inherited_key :
  PlainObject.groupBy [lit "toString"; lit "a"] (fun s => s) = None
  /\ PlainObject.groupBy [lit "b"; lit "a"; lit "b"] (fun s => s)
     = Some [(lit "b", [lit "b"; lit "b"]); (lit "a", [lit "a"])].
Proof. split; vm_compute; reflexivity. Qed.

Lemma reduce_Some {T} (keyFn : T -> ustring) xs : forall acc,
  (forall x, In x xs -> ~ In (keyFn x) PlainObject.inherited) ->
  PlainObject.reduce keyFn xs acc
  = Some (fold_left
            (fun acc x =>
               let k := keyFn x in
               match map_get k acc with
               | Some l => map_set k (l ++ [x]) acc
               | None => map_set k [x] acc
               end) xs acc).
Proof.
  induction xs as [|x r IH]; intros acc H;
    cbn [PlainObject.reduce fold_left]; [reflexivity|].
  unfold PlainObject.push.
  assert (M : mem (keyFn x) PlainObject.inherited = false).
  { apply mem_not_In. apply H. left. reflexivity. }
  rewrite M.
  destruct (map_get (keyFn x) acc); apply IH; intros y Hy; apply H; right;
    exact Hy.
Qed.

Lemma reduce_None {T} (keyFn : T -> ustring) xs : forall acc,
  PlainObject.reduce keyFn xs acc = None ->
  exists x, In x xs /\ In (keyFn x) PlainObject.inherited.
Proof.
  induction xs as [|x r IH]; intros acc; cbn [PlainObject.reduce];
    [discriminate|].
  unfold PlainObject.push.
  destruct (map_get (keyFn x) acc) as [l|].
  - intros H. destruct (IH _ H) as (y & Hy & Ky). exists y.
    split; [right; exact Hy|exact Ky].
  - destruct (mem (keyFn x) PlainObject.inherited) eqn:M.
    + intros _. exists x. split; [left; reflexivity|].
      apply (proj1 (mem_In _ _)). exact M.
    + intros H. destruct (IH _ H) as (y & Hy & Ky). exists y.
      split; [right; exact Hy|exact Ky].
Qed.

Lemma reduce_throws {T} (keyFn : T -> ustring) xs : forall acc,
  (forall k, In k (map fst acc) -> ~ In k PlainObject.inherited) ->
  (exists x, In x xs /\ In (keyFn x) PlainObject.inherited) ->
  PlainObject.reduce keyFn xs acc = None.
Proof.
  induction xs as [|x r IH]; intros acc Hacc (y & Hy & Ky); [destruct Hy|].
  cbn [PlainObject.reduce]. unfold PlainObject.push.
  destruct (mem (keyFn x) PlainObject.inherited) eqn:M.
  - destruct (map_get (keyFn x) acc) as [l|] eqn:G; [|reflexivity].
    exfalso. apply map_get_In in G. apply (in_map fst) in G.
    apply (Hacc _ G). apply (proj1 (mem_In _ _)). exact M.
  - apply mem_not_In in M.
    assert (Hy' : In y r).
    { destruct Hy as [<-|Hy]; [contradiction|exact Hy]. }
    destruct (map_get (keyFn x) acc) as [l|]; apply IH;
      try (exists y; auto);
      intros k Hk; apply map_set_key_In in Hk as [Hk| ->]; auto.
Qed.

Lemma insertIndex_perm {V} n (e : ustring * V) l :
  Permutation (map snd (PlainObject.insertIndex n e l)) (e :: map snd l).
Proof.
  induction l as [|[m e'] r IH]; simpl; [reflexivity|].
  destruct (N.leb n m); simpl; [reflexivity|].
  rewrite IH. apply perm_swap.
Qed.

Lemma entries_perm {V} (o : list (ustring * V)) :
  Permutation (PlainObject.entries o) o.
Proof.
  unfold PlainObject.entries. induction o as [|e r IH]; simpl; [constructor|].
  destruct (PlainObject.arrayIndex (fst e)).
  - rewrite insertIndex_perm. simpl. constructor. exact IH.
  - symmetry. apply Permutation_cons_app. symmetry. exact IH.
Qed.

Lemma entries_named {V} (o : list (ustring * V)) :
  (forall e, In e o -> PlainObject.arrayIndex (fst e) = None) ->
  PlainObject.entries o = o.
Proof.
  unfold PlainObject.entries. induction o as [|e r IH]; intros H;
    [reflexivity|].
  assert (Hr : forall e', In e' r -> PlainObject.arrayIndex (fst e') = None)
    by (intros e' He'; apply H; right; exact He').
  specialize (IH Hr). cbn [PlainObject.indexed filter].
  rewrite (H e (or_introl eq_refl)).
  destruct (PlainObject.indexed r) as [|p l].
  - cbn [map app] in *. rewrite IH. reflexivity.
  - exfalso. apply (f_equal (@length _)) in IH.
    rewrite length_app in IH. cbn [map length] in IH.
    pose proof (filter_length_le
                  (fun e0 : ustring * V =>
                     match PlainObject.arrayIndex (fst e0) with
                     | Some _ => false
                     | None => true
                     end) r) as L.
    assert (F : filter
                  (fun e0 : ustring * V =>
                     match PlainObject.arrayIndex (fst e0) with
                     | Some _ => false
                     | None => true
                     end) r = r).
    { clear -Hr. induction r as [|y r IHr]; [reflexivity|]. cbn [filter].
      rewrite (Hr y (or_introl eq_refl)). f_equal. apply IHr.
      intros e' He'. apply Hr. right. exact He'. }
    rewrite F in IH. lia.
Qed.

(** A key with a vertical bar in it is no array index and no inherited
    name. *)
Lemma bar_key_plain (k : ustring) :
  In 124%N k ->
  PlainObject.arrayIndex k = None /\ ~ In k PlainObject.inherited.
Proof.
  intros H. split.
  - unfold PlainObject.arrayIndex.
    assert (F : forallb PlainObject.isDigit k = false).
    { apply not_true_is_false. intros F.
      rewrite forallb_forall in F. specialize (F _ H). discriminate F. }
    rewrite F. reflexivity.
  - intros Hk. unfold PlainObject.inherited in Hk.
    cbn [map In] in Hk.
    repeat (destruct Hk as [<-|Hk];
            [vm_compute in H; intuition discriminate|]).
    destruct Hk.
Qed.

Lemma groupBy_plain {A : Type} (keyFn : A -> ustring) (xs : list A) :
  (forall x, In x xs -> ~ In (keyFn x) PlainObject.inherited) ->
  PlainObject.groupBy xs keyFn = Some (Stages.groupBy keyFn xs).
Proof.
  intros H. unfold PlainObject.groupBy. rewrite (reduce_Some keyFn xs [] H).
  reflexivity.
Qed.

Lemma groupBy_keys {A : Type} (keyFn : A -> ustring) (xs : list A) e :
  In e (Stages.groupBy keyFn xs) -> exists x, In x xs /\ keyFn x = fst e.
Proof.
  destruct e as [k l]. intros H.
  assert (N : NoDup (map fst (Stages.groupBy keyFn xs))).
  { apply (groupBy_fold_NoDup keyFn xs []). constructor. }
  apply (In_map_get _ _ _ N) in H.
  pose proof (groupBy_fold_get keyFn xs [] k) as G.
  cbn [map_get] in G. fold (Stages.groupBy keyFn xs) in G. rewrite G in H.
  destruct (filter _ xs) as [|y r] eqn:E; [discriminate H|].
  assert (I : In y (filter (fun x => ueqb (keyFn x) k) xs))
    by (rewrite E; left; reflexivity).
  apply filter_In in I as [I K]. apply ueqb_eq in K. exists y. auto.
Qed.

(** X22.  [groupBy] fills a plain object.  It throws exactly when the key of
    some element is a name that objects inherit, such as "constructor".
    Otherwise it splits the list by key: no key has two groups, the group
    of a key holds the elements with that key, all of them and in their
    order, and so no group is empty and every element is in the group of
    its key.  [Object.entries] lists those groups, each once; when no key
    is an array index it lists them in the order in which the keys first
    occur.  Keys with a vertical bar, as the synthesis builds them, never
    make it throw and are listed in that order. *)
Theorem groupBy_partition (A : Type) (keyFn : A -> ustring) (xs : list A) :
  (PlainObject.groupBy xs keyFn = None
   <-> exists x, In x xs /\ In (keyFn x) PlainObject.inherited)
  /\ (forall g, PlainObject.groupBy xs keyFn = Some g ->
        NoDup (map fst g)
        /\ (forall k l, In (k, l) g ->
              l <> [] /\ l = filter (fun x => ueqb (keyFn x) k) xs)
        /\ (forall x, In x xs ->
              In (keyFn x, filter (fun y => ueqb (keyFn y) (keyFn x)) xs) g)
        /\ Permutation (PlainObject.entries g) g
        /\ ((forall x, In x xs -> PlainObject.arrayIndex (keyFn x) = None) ->
            PlainObject.entries g = g
            /\ map fst g = uniq (map keyFn xs)))
  /\ ((forall x, In x xs -> In 124%N (keyFn x)) ->
      exists g, PlainObject.groupBy xs keyFn = Some g
                /\ PlainObject.entries g = Stages.groupBy keyFn xs)
  /\ (forall (P : Platform) (allCaps : list Orchestrator.Capability),
        exists g, PlainObject.groupBy allCaps Stages.capKey = Some g
                  /\ PlainObject.entries g = Stages.capByKey allCaps).
Proof.
  assert (Bar : forall (B : Type) (kf : B -> ustring) (l : list B),
            (forall x, In x l -> In 124%N (kf x)) ->
            exists g, PlainObject.groupBy l kf = Some g
                      /\ PlainObject.entries g = Stages.groupBy kf l).
  { intros B kf l H. exists (Stages.groupBy kf l). split.
    - apply groupBy_plain. intros x Hx. apply bar_key_plain. auto.
    - apply entries_named. intros e He.
      destruct (groupBy_keys kf l e He) as (x & Hx & <-).
      apply bar_key_plain. auto. }
  split; [|split; [|split]].
  - split.
    + apply reduce_None.
    + apply reduce_throws. intros k [].
  - intros g Hg.
    assert (Hok : forall x, In x xs -> ~ In (keyFn x) PlainObject.inherited).
    { intros x Hx Hk.
      assert (PlainObject.groupBy xs keyFn = None) as E.
      { apply reduce_throws; [intros k []|]. exists x. auto. }
      rewrite E in Hg. discriminate Hg. }
    rewrite (groupBy_plain keyFn xs Hok) in Hg. injection Hg as <-.
    set (g := Stages.groupBy keyFn xs).
    assert (N : NoDup (map fst g)).
    { apply (groupBy_fold_NoDup keyFn xs []). constructor. }
    assert (G : forall k,
               map_get k g
               = match filter (fun x => ueqb (keyFn x) k) xs with
                 | [] => None
                 | l => Some l
                 end).
    { intros k. exact (groupBy_fold_get keyFn xs [] k). }
    split; [exact N|]. split; [|split; [|split]].
    + intros k l H. apply (In_map_get _ _ _ N) in H. rewrite G in H.
      destruct (filter _ xs) as [|y r]; [discriminate H|].
      injection H as <-. split; [discriminate|reflexivity].
    + intros x Hx. apply map_get_In. rewrite G.
      destruct (filter _ xs) as [|y r] eqn:E; [|reflexivity].
      exfalso.
      assert (I : In x []).
      { rewrite <- E. apply filter_In. split; [exact Hx|apply ueqb_refl]. }
      destruct I.
    + apply entries_perm.
    + intros Hidx. split.
      * apply entries_named. intros e He.
        destruct (groupBy_keys keyFn xs e He) as (x & Hx & <-). auto.
      * unfold g, Stages.groupBy.
        rewrite (@fold_set_keys A (list A) keyFn (fun _ => true)).
        -- cbn [map app]. unfold uniq. f_equal. f_equal.
           clear. induction xs as [|x r IH]; [reflexivity|].
           cbn [filter]. f_equal. exact IH.
        -- intros acc x. cbv beta zeta.
           destruct (map_get (keyFn x) acc); eexists; reflexivity.
  - apply Bar.
  - intros P allCaps. apply Bar. intros c _. unfold Stages.capKey.
    apply in_or_app. right. left. reflexivity.
Qed.

Lemma capUniqueFrom_spec {P : Platform} caps : forall seen,
  NoDup (map Stages.capKey (CapDedup.capUniqueFrom seen caps))
  /\ forall c, In c (CapDedup.capUniqueFrom seen caps) ->
       ~ In (Stages.capKey c) seen /\ In c caps.
Proof.
  induction caps as [|c r IH]; intros seen; cbn [CapDedup.capUniqueFrom].
  - split; [constructor|intros c []].
  - fold (Stages.capKey c).
    destruct (mem (Stages.capKey c) seen) eqn:M.
    + destruct (IH seen) as [N I]. split; [exact N|].
      intros x Hx. destruct (I x Hx). simpl. auto.
    + apply mem_not_In in M.
      destruct (IH (Stages.capKey c :: seen)) as [N I]. split.
      * simpl. constructor; [|exact N]. intros Hin.
        apply in_map_iff in Hin as (x & Ex & Hx).
        destruct (I x Hx) as [Hn _]. apply Hn. simpl. auto.
      * intros x [<-|Hx]; [simpl; auto|].
        destruct (I x Hx) as [Hn Hi]. simpl in *. split; auto.
Qed.

Lemma sortDesc_const {A} (f : A -> nat) n l :
  (forall x, In x l -> f x = n) -> Stages.sortDesc f l = l.
Proof.
  induction l as [|x r IH]; intros H; simpl; [reflexivity|].
  rewrite IH by (intros y Hy; apply H; simpl; auto).
  destruct r as [|y r']; simpl; [reflexivity|].
  rewrite (H x), (H y) by (simpl; auto). rewrite Nat.leb_refl. reflexivity.
Qed.

Lemma Permutation_NoDup_map {A B} (f : A -> B) l l' :
  Permutation l l' -> NoDup (map f l') -> NoDup (map f l).
Proof.
  intros Hp N. apply (Permutation_NoDup (l := map f l')); [|exact N].
  apply Permutation_map. symmetry. exact Hp.
Qed.

(** X23.  The capabilities of a run are deduplicated on the key they are later
    grouped by.  So when the capabilities read back for the synthesis are
    those the run wrote, in whatever order, every group has exactly one
    member: each COMMON_FEATURE finding has the confidence 0.65 of a
    single instance, and the first ten capabilities give the
    COMMON_FEATURE findings and, from five capabilities on, the
    DIFFERENTIATOR findings as well. *)
Theorem capUnique_singleton_groups (P : Platform)
  (capWrites allCaps : list Orchestrator.Capability)
  (allSources : list Orchestrator.Source)
  (H : Permutation allCaps (CapDedup.capUnique capWrites)) :
  Stages.capByKey allCaps = map (fun c => (Stages.capKey c, [c])) allCaps
  /\ (forall f, In f (Stages.commonFeatureFindings allCaps allSources) ->
        (Orchestrator.confidence f == 65 # 100)%Q)
  /\ length (Stages.commonFeatureFindings allCaps allSources)
     = Nat.min 10 (length allCaps)
  /\ length (Stages.differentiatorFindings allCaps allSources)
     = if Nat.leb 5 (length allCaps) then Nat.min 10 (length allCaps) else 0.
Proof.
  assert (N : NoDup (map Stages.capKey allCaps)).
  { apply (Permutation_NoDup_map _ H). apply (capUniqueFrom_spec capWrites []). }
  assert (G : Stages.capByKey allCaps
              = map (fun c => (Stages.capKey c, [c])) allCaps).
  { apply (groupBy_fold_fresh Stages.capKey allCaps [] N). intros x _ []. }
  assert (S : Stages.sortDesc
                (fun e : ustring * list Orchestrator.Capability =>
                   length (snd e))
                (map (fun c => (Stages.capKey c, [c])) allCaps)
              = map (fun c => (Stages.capKey c, [c])) allCaps).
  { apply (@sortDesc_const _ _ 1). intros e He.
    apply in_map_iff in He as (c & <- & _). reflexivity. }
  split; [exact G|]. split; [|split].
  - unfold Stages.commonFeatureFindings, Stages.common.
    destruct allCaps as [|c0 cs] eqn:Ea; [intros f []|]. rewrite <- Ea in *.
    rewrite G, S. intros f Hf. apply in_map_iff in Hf as (e & <- & He).
    apply firstn_In, firstn_In in He. apply in_map_iff in He as (c & <- & _).
    cbn [fst snd]. destruct (Stages.keyParts (Stages.capKey c)) as [cat nm].
    cbn [Orchestrator.confidence length]. vm_compute. reflexivity.
  - unfold Stages.commonFeatureFindings, Stages.common.
    destruct allCaps as [|c0 cs] eqn:Ea; [reflexivity|]. rewrite <- Ea in *.
    rewrite G, S, length_map, !length_firstn, length_map. lia.
  - unfold Stages.differentiatorFindings, Stages.rare.
    destruct (Nat.leb 5 (length allCaps)) eqn:L; [|reflexivity].
    destruct allCaps as [|c0 cs] eqn:Ea; [discriminate L|]. rewrite <- Ea in *.
    rewrite G, length_map, length_firstn, filter_all, length_map; [lia|].
    intros e He. apply in_map_iff in He as (c & <- & _). reflexivity.
Qed.

Module CapExample.
Import Orchestrator.

Definition cap (category nm : string) : Capability :=
  {| cap_runId := lit "run_1"; cap_category := lit category;
     cap_name := lit nm; cap_normalized := lit nm |}.

Definition capWrites : list Capability :=
  [cap "Security" "sso"; cap "API" "rest"; cap "Security" "sso";
   cap "Security" "mfa"].

End CapExample.

Lemma capUnique_singleton_groups_witness :
  let allCaps := @CapDedup.capUnique Latin1.platform CapExample.capWrites in
  allCaps = [CapExample.cap "Security" "sso"; CapExample.cap "API" "rest";
             CapExample.cap "Security" "mfa"]
  /\ length (@Stages.commonFeatureFindings Latin1.platform allCaps []) = 3
  /\ length (@Stages.differentiatorFindings Latin1.platform allCaps []) = 0.
Proof.
  destruct (@capUnique_singleton_groups Latin1.platform CapExample.capWrites
              (@CapDedup.capUnique Latin1.platform CapExample.capWrites) []
              (Permutation_refl _))
    as (_ & _ & L1 & L2).
  split; [vm_compute; reflexivity|]. split.
  - rewrite L1. vm_compute. reflexivity.
  - rewrite L2. vm_compute. reflexivity.
Defined.
Lemma commonConfidence_bounds n :
  1 <= n ->
  (65 # 100 <= Stages.commonConfidence n)%Q
  /\ (Stages.commonConfidence n <= 9 # 10)%Q.
Proof.
  intros Hn. unfold Stages.commonConfidence.
  set (c := ((6 # 10) + inject_Z (Z.of_nat n) * (5 # 100))%Q).
  assert (L : (65 # 100 <= c)%Q).
  { unfold c, Qle, Qplus, Qmult, inject_Z. cbn [Qnum Qden].
    rewrite ?Pos2Z.inj_mul. lia. }
  destruct (Qle_bool (9 # 10) c) eqn:E.
  - split; [unfold Qle; simpl; lia|apply Qle_refl].
  - split; [exact L|]. apply Qlt_le_weak, Qnot_le_lt. intros H.
    apply Qle_bool_iff in H. congruence.
Qed.

(** X24.  The findings on common features and differentiators, for any
    capabilities: at most ten COMMON_FEATURE findings, each with a
    confidence from 0.65 to 0.9; no DIFFERENTIATOR finding with fewer
    than five capabilities and at most ten otherwise, each with the
    confidence 0.6; and the groups they are taken from are the largest
    ones, largest first. *)
Theorem synthesis_bounds (P : Platform)
  (allCaps : list Orchestrator.Capability)
  (allSources : list Orchestrator.Source) :
  let size := fun e : ustring * list Orchestrator.Capability =>
                length (snd e) in
  (length (Stages.commonFeatureFindings allCaps allSources) <= 10
   /\ forall f, In f (Stages.commonFeatureFindings allCaps allSources) ->
        Orchestrator.kind f = Orchestrator.COMMON_FEATURE
        /\ (65 # 100 <= Orchestrator.confidence f)%Q
        /\ (Orchestrator.confidence f <= 9 # 10)%Q)
  /\ (length (Stages.differentiatorFindings allCaps allSources) <= 10
      /\ (length allCaps < 5 ->
          Stages.differentiatorFindings allCaps allSources = [])
      /\ forall f, In f (Stages.differentiatorFindings allCaps allSources) ->
           Orchestrator.kind f = Orchestrator.DIFFERENTIATOR
           /\ Orchestrator.confidence f = (6 # 10)%Q)
  /\ (length (Stages.common allCaps) <= 15
      /\ StronglySorted (fun a b => size b <= size a) (Stages.common allCaps)
      /\ forall e, In e (Stages.capByKey allCaps) ->
           In e (Stages.common allCaps)
           \/ forall s, In s (Stages.common allCaps) -> size e <= size s).
Proof.
  intros size. split; [|split].
  - unfold Stages.commonFeatureFindings.
    destruct allCaps as [|c0 cs] eqn:Ea; [simpl; split; [lia|intros f []]|].
    rewrite <- Ea. split.
    + rewrite length_map, length_firstn. lia.
    + intros f Hf. apply in_map_iff in Hf as (e & <- & He).
      apply firstn_In in He. unfold Stages.common in He. rewrite Ea in He.
      rewrite <- Ea in He. apply firstn_In in He. apply sortDesc_In in He.
      destruct e as [k l].
      pose proof (@groupBy_nonempty _ Stages.capKey allCaps k l He) as Hne.
      cbn [fst snd]. destruct (Stages.keyParts k) as [cat nm].
      cbn [Orchestrator.kind Orchestrator.confidence].
      split; [reflexivity|]. apply commonConfidence_bounds.
      destruct l; [congruence|simpl; lia].
  - unfold Stages.differentiatorFindings, Stages.rare. split; [|split].
    + destruct (Nat.leb 5 (length allCaps)); [|simpl; lia].
      destruct allCaps; [simpl; lia|].
      rewrite length_map, length_firstn. lia.
    + intros Hl. apply Nat.leb_gt in Hl. rewrite Hl. reflexivity.
    + intros f Hf. destruct (Nat.leb 5 (length allCaps)); [|destruct Hf].
      apply in_map_iff in Hf as (e & <- & _).
      destruct (Stages.keyParts (fst e)). split; reflexivity.
  - unfold Stages.common.
    destruct allCaps as [|c0 cs] eqn:Ea.
    + split; [simpl; lia|]. split; [constructor|].
      intros e He. right. intros s [].
    + rewrite <- Ea. split; [rewrite length_firstn; lia|]. split.
      * apply firstn_sorted. apply (sortDesc_sorted size).
      * intros e He.
        apply (@firstn_top _ (fun a b => size b <= size a) 15
                 (Stages.sortDesc size (Stages.capByKey allCaps)) e).
        -- apply (sortDesc_sorted size).
        -- apply sortDesc_In. exact He.
Qed.

(* ================================================================== *)
(** * Gap findings and the citation guardrail *)
(* ================================================================== *)

Module Gaps.
Import Orchestrator Features Stages Suggestions.

Section WithPlatform.
Context {P : Platform}.

(** [if (normalized) presentFeatures.add(normalized)] *)
Definition addPresent (normalized : ustring) (present : list ustring)
  : list ustring :=
  match normalized with
  | [] => present
  | _ => addAlias normalized present
  end.

(** [feat.featureDefinition?.normalized ??
    normalizeFeature(feat.normalized ?? feat.name)] *)
Definition featureNormalized (feat : Feature) : ustring :=
  match ft_definition feat with
  | Some d => fd_normalized d
  | None => normalizeFeature (ft_normalized feat)
  end.

(** Lines 608-618. *)
Definition presentFeatures (allCaps : list Capability)
  (allFeatures : list Feature) : list ustring :=
  fold_left (fun present feat => addPresent (featureNormalized feat) present)
    allFeatures
    (fold_left
       (fun present cap =>
          addPresent (normalizeFeature (cap_normalized cap)) present)
       allCaps []).

(** Lines 620-635: the gaps among the features the project declares. *)
Definition featureGaps (projectFeatureDefs : list FeatureDefinition)
  (present : list ustring) : list Finding :=
  flat_map
    (fun def =>
       let norm := normalizeFeature (fd_normalized def) in
       match norm with
       | [] => []
       | _ =>
           if mem norm present then []
           else
             [ {| kind := GAP;
                  text := lit "Feature gap: " ++ quote ++ fd_name def ++ quote
                          ++ lit " was not observed across the analysed competitor set. Validate whether the market under-indexes this capability or if messaging needs amplification.";
                  confidence := (6 # 10)%Q;
                  citations := [] |} ]
       end)
    projectFeatureDefs.

(** Lines 637-656: the gaps among the keywords of the project input. *)
Definition keywordGaps (keywords : list ustring) (capTotal : nat)
  (declared present : list ustring) : list Finding :=
  let keywordWants := uniq (map normalizeFeature keywords) in
  match keywordWants with
  | [] => []
  | _ =>
      if Nat.leb 3 capTotal
      then
        flat_map
          (fun kw =>
             match kw with
             | [] => []
             | _ =>
                 if mem kw declared then []
                 else if mem kw present then []
                 else
                   [ {| kind := GAP;
                        text := lit "Market gap: " ++ quote
                                ++ canonicalFeatureName kw ++ quote
                                ++ lit " did not appear in competitor capabilities or feature narratives. This could represent whitespace or signal a positioning opportunity.";
                        confidence := (62 # 100)%Q;
                        citations := [] |} ]
             end)
          keywordWants
      else []
  end.

(** The GAP findings of a run. *)
Definition gapFindings (projectFeatureDefs : list FeatureDefinition)
  (keywords : list ustring) (allCaps : list Capability)
  (allFeatures : list Feature) : list Finding :=
  let present := presentFeatures allCaps allFeatures in
  featureGaps projectFeatureDefs present
  ++ keywordGaps keywords (length allCaps)
       (declaredFeatureSet projectFeatureDefs) present.

End WithPlatform.
End Gaps.

Lemma addPresent_In x l y :
  In y (Gaps.addPresent x l) <-> In y l \/ (y = x /\ x <> []).
Proof.
  unfold Gaps.addPresent. destruct x as [|c x].
  - split; [auto|]. intros [H|[_ H]]; [exact H|congruence].
  - rewrite addAlias_In. split; intros [H|H]; auto.
    + right. split; [exact H|discriminate].
    + right. tauto.
Qed.

Lemma fold_addPresent_In {A} (key : A -> ustring) xs : forall acc y,
  In y (fold_left (fun present x => Gaps.addPresent (key x) present) xs acc)
  <-> In y acc \/ (y <> [] /\ exists x, In x xs /\ key x = y).
Proof.
  induction xs as [|x r IH]; intros acc y; simpl.
  - split; [auto|]. intros [H|(_ & x & [] & _)]. exact H.
  - rewrite IH, addPresent_In. split.
    + intros [[H|[-> Hne]]|(Hne & z & Hz & Ez)]; auto.
      * right. split; [exact Hne|]. exists x. auto.
      * right. split; [exact Hne|]. exists z. auto.
    + intros [H|(Hne & z & [<-|Hz] & Ez)]; auto.
      * left. right. split; [symmetry; exact Ez|]. rewrite Ez. exact Hne.
      * right. split; [exact Hne|]. exists z. auto.
Qed.

(** What [presentFeatures] holds: the non-empty keys of the capabilities
    and of the features of the run. *)
Lemma presentFeatures_In {P : Platform} allCaps allFeatures y :
  In y (Gaps.presentFeatures allCaps allFeatures)
  <-> y <> []
      /\ ((exists cap, In cap allCaps
                       /\ normalizeFeature (Orchestrator.cap_normalized cap) = y)
          \/ exists feat, In feat allFeatures
                          /\ Gaps.featureNormalized feat = y).
Proof.
  unfold Gaps.presentFeatures. rewrite !fold_addPresent_In. simpl.
  split.
  - intros [[[]|(Hne & c & Hc & Ec)]|(Hne & f & Hf & Ef)]; split; eauto.
  - intros (Hne & [(c & Hc & Ec)|(f & Hf & Ef)]); eauto 6.
Qed.

(** X25.  The GAP findings never cite a source.  A declared feature gives no
    gap when its key is empty or is the key of a capability or of a
    feature of the run, and one gap otherwise; the keywords give no gap
    while the run has fewer than three capabilities. *)
Theorem gapFindings_spec (P : Platform)
  (projectFeatureDefs : list Features.FeatureDefinition)
  (keywords : list ustring) (allCaps : list Orchestrator.Capability)
  (allFeatures : list Suggestions.Feature) :
  let present := Gaps.presentFeatures allCaps allFeatures in
  (forall f, In f (Gaps.gapFindings projectFeatureDefs keywords allCaps
                     allFeatures) ->
     Orchestrator.kind f = Orchestrator.GAP /\ Orchestrator.citations f = [])
  /\ (forall def,
        length (Gaps.featureGaps [def] present) <= 1
        /\ (Gaps.featureGaps [def] present = [] <->
            normalizeFeature (Features.fd_normalized def) = []
            \/ (exists cap, In cap allCaps
                  /\ normalizeFeature (Orchestrator.cap_normalized cap)
                     = normalizeFeature (Features.fd_normalized def))
            \/ (exists feat, In feat allFeatures
                  /\ Gaps.featureNormalized feat
                     = normalizeFeature (Features.fd_normalized def))))
  /\ (length allCaps < 3 ->
      Gaps.keywordGaps keywords (length allCaps)
        (Suggestions.declaredFeatureSet projectFeatureDefs) present = []).
Proof.
  intros present. subst present. split; [|split].
  - intros f Hf. unfold Gaps.gapFindings in Hf. apply in_app_iff in Hf.
    destruct Hf as [Hf|Hf].
    + unfold Gaps.featureGaps in Hf. apply in_flat_map in Hf as (d & _ & Hf).
      destruct (normalizeFeature (Features.fd_normalized d)); [destruct Hf|].
      destruct (mem _ _); [destruct Hf|].
      destruct Hf as [<-|[]]. split; reflexivity.
    + unfold Gaps.keywordGaps in Hf.
      destruct (uniq (map normalizeFeature keywords)) as [|k0 ks];
        [destruct Hf|].
      destruct (Nat.leb 3 (length allCaps)); [|destruct Hf].
      apply in_flat_map in Hf as (kw & _ & Hf).
      destruct kw; [destruct Hf|].
      destruct (mem _ _); [destruct Hf|]. destruct (mem _ _); [destruct Hf|].
      destruct Hf as [<-|[]]. split; reflexivity.
  - intros def. unfold Gaps.featureGaps. cbn [flat_map]. rewrite app_nil_r.
    set (norm := normalizeFeature (Features.fd_normalized def)).
    destruct norm as [|c0 n0] eqn:En.
    + split; [simpl; lia|]. split; auto.
    + rewrite <- En.
      destruct (mem norm (Gaps.presentFeatures allCaps allFeatures)) eqn:M.
      * split; [simpl; lia|]. split; [intros _|reflexivity].
        apply mem_In in M. apply presentFeatures_In in M as (_ & M).
        right. exact M.
      * split; [simpl; lia|]. split; [discriminate|].
        intros [H|H]; [rewrite En in H; discriminate H|].
        apply mem_not_In in M. exfalso. apply M. apply presentFeatures_In.
        split; [rewrite En; discriminate|exact H].
  - intros Hl. unfold Gaps.keywordGaps.
    destruct (uniq (map normalizeFeature keywords)); [reflexivity|].
    apply Nat.leb_gt in Hl. rewrite Hl. reflexivity.
Qed.

(** X26.  A GAP finding in the findings of the run makes the guardrails report
    findings without citations: a run with a gap never passes all
    checks. *)
Theorem gap_fails_citation_guardrail (P : Platform)
  (projectFeatureDefs : list Features.FeatureDefinition)
  (keywords : list ustring) (allCaps : list Orchestrator.Capability)
  (allFeatures : list Suggestions.Feature)
  (runId : ustring) (stalenessDays : nat) (w : Orchestrator.World)
  (f : Orchestrator.Finding)
  (Hgap : In f (Gaps.gapFindings projectFeatureDefs keywords allCaps
                  allFeatures))
  (Hrow : In (runId, f) (Orchestrator.findings (Orchestrator.tables w))) :
  exists g n,
    Orchestrator.runGuardrails runId stalenessDays w = (Ok g, w)
    /\ 1 <= n
    /\ In (lit "Findings without citations: " ++ ofNat n)
          (Orchestrator.issues g)
    /\ Orchestrator.summary g = lit "Guardrails found issues".
Proof.
  assert (C : Orchestrator.citations f = []).
  { unfold Gaps.gapFindings in Hgap. apply in_app_iff in Hgap.
    destruct Hgap as [Hf|Hf].
    - unfold Gaps.featureGaps in Hf. apply in_flat_map in Hf as (d & _ & Hf).
      destruct (normalizeFeature (Features.fd_normalized d)); [destruct Hf|].
      destruct (mem _ _); [destruct Hf|].
      destruct Hf as [<-|[]]. reflexivity.
    - unfold Gaps.keywordGaps in Hf.
      destruct (uniq (map normalizeFeature keywords)) as [|k0 ks];
        [destruct Hf|].
      destruct (Nat.leb 3 (length allCaps)); [|destruct Hf].
      apply in_flat_map in Hf as (kw & _ & Hf).
      destruct kw; [destruct Hf|].
      destruct (mem _ _); [destruct Hf|]. destruct (mem _ _); [destruct Hf|].
      destruct Hf as [<-|[]]. reflexivity. }
  unfold Orchestrator.runGuardrails.
  set (missing :=
         filter (fun x => match Orchestrator.citations x with
                          | [] => true | _ => false end)
           (map snd (filter (fun x => ueqb (fst x) runId)
                       (Orchestrator.findings (Orchestrator.tables w))))).
  assert (Hm : In f missing).
  { unfold missing. apply filter_In. split; [|rewrite C; reflexivity].
    apply in_map_iff. exists (runId, f). split; [reflexivity|].
    apply filter_In. split; [exact Hrow|apply ueqb_refl]. }
  assert (Hl : Nat.ltb 0 (length missing) = true).
  { apply Nat.ltb_lt. destruct missing; [destruct Hm|simpl; lia]. }
  eexists. exists (length missing). split; [reflexivity|].
  cbn [Orchestrator.issues Orchestrator.summary]. rewrite Hl.
  split; [apply Nat.ltb_lt; exact Hl|]. split.
  - apply in_or_app. left. simpl. auto.
  - reflexivity.
Qed.
Module GapExample.
Import Orchestrator Features.

Definition offline : FeatureDefinition :=
  {| fd_id := lit "fd_1"; fd_name := lit "Offline Mode";
     fd_normalized := lit "offline mode"; fd_description := None;
     fd_category := None; fd_origin := USER; fd_aliases := [] |}.

(** The finding for a declared feature that no competitor shows. *)
Definition gap : Finding :=
  {| kind := GAP;
     text := lit "Feature gap: " ++ Stages.quote ++ lit "Offline Mode"
             ++ Stages.quote
             ++ lit " was not observed across the analysed competitor set. Validate whether the market under-indexes this capability or if messaging needs amplification.";
     confidence := (6 # 10)%Q;
     citations := [] |}.

Definition world : World :=
  {| runs := [RunExample.run1 QA];
     tables := {| sources := []; findings := [(lit "run_1", gap)];
                  capabilities := []; competitors := []; runLogs := [] |};
     credits := []; nextRunId := 2; now := 700000000; statusLog := [] |}.

End GapExample.

Lemma gap_fails_citation_guardrail_witness :
  exists g n,
    Orchestrator.runGuardrails (lit "run_1") 180 GapExample.world
    = (Ok g, GapExample.world)
    /\ 1 <= n
    /\ In (lit "Findings without citations: " ++ ofNat n)
          (Orchestrator.issues g)
    /\ Orchestrator.summary g = lit "Guardrails found issues".
Proof.
  apply (@gap_fails_citation_guardrail Latin1.platform [GapExample.offline]
           [] [] [] (lit "run_1") 180 GapExample.world GapExample.gap).
  - vm_compute. left. reflexivity.
  - vm_compute. left. reflexivity.
Defined.

(* ================================================================== *)
(** * The feature matrix export *)
(* ================================================================== *)

Module FeatureMatrix.
Import Orchestrator Features.

(** A [Feature] row of the run with its [featureDefinition] included. *)
Record MatrixFeature := {
  mf_name : ustring;
  mf_normalized : ustring;
  mf_competitorId : option ustring;
  mf_definition : option FeatureDefinition
}.

Record PresenceEntry := {
  pe_name : ustring;
  pe_normalized : ustring;
  presence : list ustring
}.

Section WithPlatform.
Context {P : Platform}.

(** [normalizeFeature(feature.featureDefinition?.normalized ??
    feature.normalized ?? feature.name)] *)
Definition keyOf (feature : MatrixFeature) : ustring :=
  normalizeFeature
    (match mf_definition feature with
     | Some d => fd_normalized d
     | None => mf_normalized feature
     end).

(** The body of [for (const feature of features)]. *)
Definition recordPresence (m : list (ustring * PresenceEntry))
  (feature : MatrixFeature) : list (ustring * PresenceEntry) :=
  let normalized := keyOf feature in
  match normalized with
  | [] => m
  | _ =>
      let displayName :=
        match mf_definition feature with
        | Some d => fd_name d
        | None => canonicalFeatureName (mf_name feature)
        end in
      let entry :=
        match map_get normalized m with
        | Some e => e
        | None => {| pe_name := displayName; pe_normalized := normalized;
                     presence := [] |}
        end in
      let entry' :=
        match mf_competitorId feature with
        | Some (c :: cs) =>
            {| pe_name := pe_name entry; pe_normalized := pe_normalized entry;
               presence := addAlias (c :: cs) (presence entry) |}
        | _ => entry
        end in
      map_set normalized entry' m
  end.

Definition featurePresence (features : list MatrixFeature)
  : list (ustring * PresenceEntry) :=
  fold_left recordPresence features [].

(** [entry.presence.has(comp.id) ? '1' : '0'] *)
Definition presenceFlag (entry : PresenceEntry) (comp : Competitor) : ustring :=
  if mem (comp_id comp) (presence entry) then lit "1" else lit "0".

Definition csvLines (competitors : list Competitor)
  (features : list MatrixFeature) : list ustring :=
  let header := join (lit ",") (lit "Feature" :: map comp_name competitors) in
  let rows :=
    map (fun entry =>
           join (lit ",")
                (pe_name entry :: map (presenceFlag entry) competitors))
        (map snd (featurePresence features)) in
  match rows with
  | [] => [header]
  | _ => header :: rows
  end.

(** The body of the response. *)
Definition csv (competitors : list Competitor) (features : list MatrixFeature)
  : ustring :=
  join [10%N] (csvLines competitors features).

(** After the features [fs], the map has an entry for exactly the
    non-empty keys among them, and the entry of a key holds exactly the
    non-empty competitor ids of the features with that key. *)
Definition Tallied (fs : list MatrixFeature)
  (m : list (ustring * PresenceEntry)) : Prop :=
  NoDup (map fst m)
  /\ (forall k, In k (map fst m) <->
                k <> [] /\ exists f, In f fs /\ keyOf f = k)
  /\ (forall k e, In (k, e) m ->
        forall c, In c (presence e) <->
                  c <> [] /\ exists f, In f fs /\ keyOf f = k
                                       /\ mf_competitorId f = Some c).

End WithPlatform.
End FeatureMatrix.
Import FeatureMatrix.

Lemma In_map_set_NoDup {V} k (v : V) m k' v' :
  NoDup (map fst m) ->
  In (k', v') (map_set k v m) ->
  (k' = k /\ v' = v) \/ (k' <> k /\ In (k', v') m).
Proof.
  induction m as [|[k0 v0] m IH]; simpl; intros N.
  - intros [E|[]]. injection E as <- <-. auto.
  - inversion N as [|? ? N0 Nm]; subst.
    destruct (ueqb k k0) eqn:E.
    + apply ueqb_eq in E. subst k0. intros [H|H].
      * injection H as <- <-. auto.
      * right. split; [|auto]. intros ->. apply N0.
        apply (in_map fst) in H. exact H.
    + apply ueqb_neq in E. intros [H|H].
      * injection H as <- <-. right. split; [congruence|auto].
      * destruct (IH Nm H) as [A|[A B]]; auto.
Qed.

Lemma Tallied_step {P : Platform} fs m f :
  Tallied fs m -> Tallied (fs ++ [f]) (recordPresence m f).
Proof.
  intros (N & K & C). unfold recordPresence.
  destruct (keyOf f) as [|k0 kr] eqn:Ek.
  - split; [exact N|]. split.
    + intros k. rewrite K. split; intros (Hne & x & Hx & Ex).
      * split; [exact Hne|]. exists x. rewrite in_app_iff. auto.
      * split; [exact Hne|]. apply in_app_iff in Hx as [Hx|[<-|[]]].
        -- exists x. auto.
        -- exfalso. apply Hne. rewrite <- Ex. exact Ek.
    + intros k e He c. rewrite (C k e He).
      split; intros (Hne & x & Hx & Ex & Ec).
      * split; [exact Hne|]. exists x. rewrite in_app_iff. auto.
      * split; [exact Hne|]. apply in_app_iff in Hx as [Hx|[<-|[]]].
        -- exists x. auto.
        -- exfalso. apply (in_map fst) in He. apply K in He as [He _].
           apply He. cbn [fst]. rewrite <- Ex. exact Ek.
  - rewrite <- Ek. set (k := keyOf f) in *.
    assert (Hk : k <> []) by (rewrite Ek; discriminate).
    set (entry := match map_get k m with
                  | Some e => e
                  | None => {| pe_name :=
                                 match mf_definition f with
                                 | Some d => Features.fd_name d
                                 | None => canonicalFeatureName (mf_name f)
                                 end;
                               pe_normalized := k; presence := [] |}
                  end).
    assert (Hentry : forall c, In c (presence entry) <->
                               c <> [] /\ exists x, In x fs /\ keyOf x = k
                                            /\ mf_competitorId x = Some c).
    { unfold entry. destruct (map_get k m) as [e|] eqn:G.
      - apply C. apply map_get_In. exact G.
      - simpl. intros c. split; [intros []|].
        intros (_ & x & Hx & Ex & _). apply map_get_None in G. apply G.
        apply K. split; [exact Hk|]. exists x. auto. }
    set (entry' := match mf_competitorId f with
                   | Some (c :: cs) =>
                       {| pe_name := pe_name entry;
                          pe_normalized := pe_normalized entry;
                          presence := Features.addAlias (c :: cs) (presence entry) |}
                   | _ => entry
                   end).
    assert (Hentry' : forall c, In c (presence entry') <->
                                c <> [] /\ exists x, In x (fs ++ [f])
                                             /\ keyOf x = k
                                             /\ mf_competitorId x = Some c).
    { intros c. unfold entry'.
      destruct (mf_competitorId f) as [[|c0 cs]|] eqn:Ec.
      - rewrite Hentry. split; intros (Hne & x & Hx & Ex & Ecx).
        + split; [exact Hne|]. exists x. rewrite in_app_iff. auto.
        + split; [exact Hne|]. apply in_app_iff in Hx as [Hx|[<-|[]]].
          * exists x. auto.
          * exfalso. rewrite Ec in Ecx. injection Ecx as <-.
            apply Hne. reflexivity.
      - cbn [presence]. rewrite addAlias_In, Hentry. split.
        + intros [(Hne & x & Hx & Ex & Ecx)| ->].
          * split; [exact Hne|]. exists x. rewrite in_app_iff. auto.
          * split; [discriminate|]. exists f. rewrite in_app_iff. simpl. auto.
        + intros (Hne & x & Hx & Ex & Ecx).
          apply in_app_iff in Hx as [Hx|[<-|[]]].
          * left. split; [exact Hne|]. exists x. auto.
          * right. rewrite Ec in Ecx. injection Ecx as <-. reflexivity.
      - rewrite Hentry. split; intros (Hne & x & Hx & Ex & Ecx).
        + split; [exact Hne|]. exists x. rewrite in_app_iff. auto.
        + split; [exact Hne|]. apply in_app_iff in Hx as [Hx|[<-|[]]].
          * exists x. auto.
          * rewrite Ec in Ecx. discriminate Ecx. }
    split; [apply NoDup_map_set; exact N|]. split.
    + intros k'. rewrite map_set_key_In, K. split.
      * intros [(Hne & x & Hx & Ex)| ->].
        -- split; [exact Hne|]. exists x. rewrite in_app_iff. auto.
        -- split; [exact Hk|]. exists f. rewrite in_app_iff. simpl. auto.
      * intros (Hne & x & Hx & Ex). apply in_app_iff in Hx as [Hx|[<-|[]]].
        -- left. split; [exact Hne|]. exists x. auto.
        -- right. symmetry. exact Ex.
    + intros k' e He c.
      apply (@In_map_set_NoDup _ k entry' m k' e N) in He
        as [[-> ->]|[Hne He]].
      * apply Hentry'.
      * rewrite (C k' e He). split; intros (Hc & x & Hx & Ex & Ecx).
        -- split; [exact Hc|]. exists x. rewrite in_app_iff. auto.
        -- split; [exact Hc|]. apply in_app_iff in Hx as [Hx|[<-|[]]].
           ++ exists x. auto.
           ++ exfalso. apply Hne. symmetry. exact Ex.
Qed.

Lemma Tallied_fold {P : Platform} rest : forall fs m,
  Tallied fs m -> Tallied (fs ++ rest) (fold_left recordPresence rest m).
Proof.
  induction rest as [|f rest IH]; intros fs m T; simpl.
  - rewrite app_nil_r. exact T.
  - replace (fs ++ f :: rest) with ((fs ++ [f]) ++ rest)
      by (rewrite <- app_assoc; reflexivity).
    apply IH. apply Tallied_step. exact T.
Qed.

Lemma find_app_Some {A} (p : A -> bool) l l' x :
  find p l = Some x -> find p (l ++ l') = Some x.
Proof.
  induction l as [|y l IH]; cbn [find app]; [discriminate|].
  destruct (p y); [auto|exact IH].
Qed.

Lemma find_app_None {A} (p : A -> bool) l l' :
  find p l = None -> find p (l ++ l') = find p l'.
Proof.
  induction l as [|y l IH]; cbn [find app]; [reflexivity|].
  destruct (p y); [discriminate|exact IH].
Qed.

Lemma Forall2_map_In {A B} (R : A -> B -> Prop) (f : A -> B) l :
  (forall x, In x l -> R x (f x)) -> Forall2 R l (map f l).
Proof.
  induction l as [|x l IH]; intros H; cbn [map]; constructor.
  - apply H. left. reflexivity.
  - apply IH. intros y Hy. apply H. right. exact Hy.
Qed.

(** The name of an entry is the display name of the first feature with
    its key. *)
Lemma Named_fold {P : Platform} rest : forall fs m,
  Tallied fs m ->
  (forall k e, In (k, e) m ->
     exists f, find (fun f => ueqb (keyOf f) k) fs = Some f
               /\ pe_name e = match mf_definition f with
                              | Some d => Features.fd_name d
                              | None => canonicalFeatureName (mf_name f)
                              end) ->
  forall k e, In (k, e) (fold_left recordPresence rest m) ->
    exists f, find (fun f => ueqb (keyOf f) k) (fs ++ rest) = Some f
              /\ pe_name e = match mf_definition f with
                             | Some d => Features.fd_name d
                             | None => canonicalFeatureName (mf_name f)
                             end.
Proof.
  induction rest as [|f rest IH]; intros fs m T Nm; cbn [fold_left].
  - rewrite app_nil_r. exact Nm.
  - replace (fs ++ f :: rest) with ((fs ++ [f]) ++ rest)
      by (rewrite <- app_assoc; reflexivity).
    apply IH; [apply Tallied_step; exact T|].
    destruct T as (N & K & _).
    assert (Old : forall k e, In (k, e) m ->
              exists f0, find (fun f => ueqb (keyOf f) k) (fs ++ [f]) = Some f0
                         /\ pe_name e = match mf_definition f0 with
                                        | Some d => Features.fd_name d
                                        | None => canonicalFeatureName (mf_name f0)
                                        end).
    { intros k e He. destruct (Nm k e He) as (f0 & F0 & E0). exists f0.
      split; [apply find_app_Some; exact F0|exact E0]. }
    unfold recordPresence.
    destruct (keyOf f) as [|k0 kr] eqn:Ek; [exact Old|].
    rewrite <- Ek.
    intros k e He.
    apply (In_map_set_NoDup _ _ _ _ _ N) in He as [[-> ->]|[_ He]];
      [|exact (Old k e He)].
    assert (Hname : forall (en : PresenceEntry),
              pe_name
                match mf_competitorId f with
                | Some (c :: cs) =>
                    {| pe_name := pe_name en; pe_normalized := pe_normalized en;
                       presence := Features.addAlias (c :: cs) (presence en) |}
                | _ => en
                end = pe_name en).
    { intros en. destruct (mf_competitorId f) as [[|c cs]|]; reflexivity. }
    rewrite Hname.
    destruct (map_get (keyOf f) m) as [e0|] eqn:G.
    + apply Old. apply map_get_In. exact G.
    + exists f. split; [|reflexivity].
      rewrite find_app_None; [cbn [find]; rewrite ueqb_refl; reflexivity|].
      destruct (find (fun f1 => ueqb (keyOf f1) (keyOf f)) fs) as [x|] eqn:F;
        [|reflexivity].
      exfalso. apply find_some in F as [Hx Ex]. apply ueqb_eq in Ex.
      apply map_get_None in G. apply G. apply K.
      split; [rewrite Ek; discriminate|]. exists x. auto.
Qed.

(** X27.  The feature matrix of a run.  There is one line for the header, with
    the names of the competitors, and one for each distinct non-empty
    feature key, in the order in which the keys first occur.  The line of
    a key is the display name of the first feature with that key and then
    one flag for each competitor, joined by commas; the flag of a
    competitor is "1" exactly when a feature with that key belongs to the
    competitor, and "0" otherwise. *)
Theorem featureMatrix_spec (P : Platform)
  (competitors : list Orchestrator.Competitor)
  (features : list MatrixFeature) :
  let m := featurePresence features in
  let Present := fun (k : ustring) (comp : Orchestrator.Competitor) =>
    Orchestrator.comp_id comp <> []
    /\ exists f, In f features /\ keyOf f = k
                 /\ mf_competitorId f = Some (Orchestrator.comp_id comp) in
  NoDup (map fst m)
  /\ (forall k, In k (map fst m) <->
                k <> [] /\ exists f, In f features /\ keyOf f = k)
  /\ (forall k e comp, In (k, e) m ->
        (presenceFlag e comp = lit "1" \/ presenceFlag e comp = lit "0")
        /\ (presenceFlag e comp = lit "1" <-> Present k comp))
  /\ length (csvLines competitors features) = S (length m)
  /\ map fst m
     = uniq (map keyOf (filter (fun f => negb (ueqb (keyOf f) [])) features))
  /\ (forall k e, In (k, e) m ->
        exists f, find (fun f => ueqb (keyOf f) k) features = Some f
                  /\ pe_name e = match mf_definition f with
                                 | Some d => Features.fd_name d
                                 | None => canonicalFeatureName (mf_name f)
                                 end)
  /\ exists lines,
       csvLines competitors features
       = join (lit ",")
              (lit "Feature" :: map Orchestrator.comp_name competitors)
         :: lines
       /\ Forall2
            (fun ke line =>
               exists flags,
                 line = join (lit ",") (pe_name (snd ke) :: flags)
                 /\ Forall2
                      (fun comp flag =>
                         (flag = lit "1" /\ Present (fst ke) comp)
                         \/ (flag = lit "0" /\ ~ Present (fst ke) comp))
                      competitors flags)
            m lines.
Proof.
  intros m Present.
  assert (T0 : Tallied [] (@nil (ustring * PresenceEntry))).
  { split; [constructor|]. split.
    - intros k. simpl. split; [intros []|]. intros (_ & f & [] & _).
    - intros k e []. }
  assert (T : Tallied features m).
  { apply (@Tallied_fold P features [] []). exact T0. }
  assert (Nm : forall k e, In (k, e) m ->
             exists f, find (fun f => ueqb (keyOf f) k) features = Some f
                       /\ pe_name e = match mf_definition f with
                                      | Some d => Features.fd_name d
                                      | None => canonicalFeatureName (mf_name f)
                                      end).
  { apply (@Named_fold P features [] [] T0). intros k e []. }
  destruct T as (N & K & C).
  assert (Flag : forall k e comp, In (k, e) m ->
            (presenceFlag e comp = lit "1" \/ presenceFlag e comp = lit "0")
            /\ (presenceFlag e comp = lit "1" <-> Present k comp)).
  { intros k e comp He. unfold presenceFlag.
    destruct (mem (Orchestrator.comp_id comp) (presence e)) eqn:M.
    + split; [auto|]. split; [intros _|reflexivity].
      apply (proj1 (mem_In _ _)) in M. apply (C k e He). exact M.
    + split; [auto|]. split; [discriminate|]. intros H.
      apply (C k e He) in H. apply mem_not_In in M. contradiction. }
  split; [exact N|]. split; [exact K|]. split; [exact Flag|].
  split; [|split; [|split; [exact Nm|]]].
  - unfold csvLines. fold m. clearbody m. clear.
    destruct m as [|p m']; cbn [map length]; [reflexivity|].
    rewrite !length_map. reflexivity.
  - unfold m, featurePresence.
    rewrite (@fold_set_keys _ _ keyOf
               (fun f => negb (ueqb (keyOf f) []))); [reflexivity|].
    intros acc f. unfold recordPresence.
    destruct (keyOf f) as [|c r]; cbn [ueqb negb]; [reflexivity|].
    eexists. reflexivity.
  - exists (map (fun ke : ustring * PresenceEntry =>
                   join (lit ",")
                        (pe_name (snd ke)
                         :: map (presenceFlag (snd ke)) competitors)) m).
    split.
    + unfold csvLines. fold m. rewrite map_map.
      destruct m as [|p m']; reflexivity.
    + apply Forall2_map_In. intros [k e] He. cbn [fst snd].
      exists (map (presenceFlag e) competitors). split; [reflexivity|].
      apply Forall2_map_In. intros comp _.
      destruct (Flag k e comp He) as [[F|F] I].
      * left. split; [exact F|]. apply I. exact F.
      * right. split; [exact F|]. intros Hp. apply I in Hp.
        rewrite Hp in F. discriminate F.
Qed.

(* ================================================================== *)
(** * The features of a project *)
(* ================================================================== *)

Module ProjectFeatures.
Import Features.

(** The catalog, the ids of the [Project] rows, and the [ProjectFeature]
    table, a row of which is the pair of [projectId] and
    [featureDefinitionId]. *)
Record Store := {
  catalog : Catalog;
  projects : list ustring;
  projectFeatures : list (ustring * ustring)
}.

(** A catalog operation run on the store. *)
Definition onCatalog {A} (c : M Catalog A) : M Store A :=
  fun s =>
    let (r, cat') := c (catalog s) in
    (r, {| catalog := cat'; projects := projects s;
           projectFeatures := projectFeatures s |}).

Definition sameLink (a b : ustring * ustring) : bool :=
  (ueqb (fst a) (fst b) && ueqb (snd a) (snd b))%bool.

(** The rows of [data] that [skipDuplicates] lets through: a row that
    collides with the unique index on [(projectId, featureDefinitionId)],
    in the table or earlier in [data], is skipped. *)
Fixpoint newLinks (table data : list (ustring * ustring))
  : list (ustring * ustring) :=
  match data with
  | [] => []
  | l :: r =>
      if existsb (sameLink l) table then newLinks table r
      else l :: newLinks (table ++ [l]) r
  end.

(** [projectFeature.createMany({ data, skipDuplicates: true })]: one
    statement, which inserts the rows let through or none of them; a row
    to insert must have its project and its feature definition, by the
    two foreign keys of the table. *)
Definition createManyLinks (data : list (ustring * ustring)) : M Store unit :=
  fun s =>
    let added := newLinks (projectFeatures s) data in
    if forallb (fun l => (mem (fst l) (projects s)
                          && mem (snd l) (map fd_id (defs (catalog s))))%bool)
               added
    then
      (Ok tt,
       {| catalog := catalog s; projects := projects s;
          projectFeatures := projectFeatures s ++ added |})
    else (Throw (lit "Foreign key constraint failed"), s).

Section WithPlatform.
Context {P : Platform}.

Definition ensureProjectFeatures (projectId : ustring) (names : list ustring)
  : M Store (list FeatureDefinition) :=
  (definitions <- onCatalog (ensureFeatureDefinitions names (Some USER) None) ;;
   match definitions with
   | [] => ret []
   | _ =>
       createManyLinks
         (map (fun def => (projectId, fd_id def)) definitions) ;;;
       ret definitions
   end)%eff.

End WithPlatform.
End ProjectFeatures.

Lemma sameLink_eq a b : ProjectFeatures.sameLink a b = true <-> a = b.
Proof.
  destruct a as [a1 a2], b as [b1 b2]. unfold ProjectFeatures.sameLink. simpl.
  rewrite andb_true_iff, !ueqb_eq. split; [intros [-> ->]; reflexivity|].
  intros E. injection E as -> ->. auto.
Qed.

Lemma newLinks_spec data : forall t,
  (forall l, In l (ProjectFeatures.newLinks t data) -> In l data /\ ~ In l t)
  /\ (forall l, In l data -> In l (t ++ ProjectFeatures.newLinks t data))
  /\ (NoDup t -> NoDup (t ++ ProjectFeatures.newLinks t data)).
Proof.
  induction data as [|x data IH]; intros t; cbn [ProjectFeatures.newLinks].
  - rewrite app_nil_r. split; [intros l []|]. split; [intros l []|auto].
  - destruct (existsb (ProjectFeatures.sameLink x) t) eqn:E.
    + destruct (IH t) as (A & B & N). split; [|split; [|exact N]].
      * intros l Hl. destruct (A l Hl). split; [right|]; assumption.
      * intros l [<-|H]; [|auto].
        apply existsb_exists in E as (y & Hy & Ey).
        apply sameLink_eq in Ey. subst y. apply in_or_app. auto.
    + assert (Hx : ~ In x t).
      { intros Hx.
        assert (X : existsb (ProjectFeatures.sameLink x) t = true).
        { apply existsb_exists. exists x. split; [exact Hx|].
          apply sameLink_eq. reflexivity. }
        congruence. }
      destruct (IH (t ++ [x])) as (A & B & N).
      replace (t ++ x :: ProjectFeatures.newLinks (t ++ [x]) data)
        with ((t ++ [x]) ++ ProjectFeatures.newLinks (t ++ [x]) data)
        by (rewrite <- app_assoc; reflexivity).
      split; [|split].
      * intros l [<-|Hl]; [split; [left; reflexivity|exact Hx]|].
        destruct (A l Hl) as [A1 A2]. split; [right; exact A1|].
        intros Hin. apply A2. apply in_or_app. auto.
      * intros l [<-|H]; [|auto].
        apply in_or_app. left. apply in_or_app. right. left. reflexivity.
      * intros Nt. apply N. apply NoDup_app; [exact Nt|repeat constructor; auto|].
        intros y Hy [Ey|[]]. subst y. contradiction.
Qed.

(** X28.  [ensureProjectFeatures] first runs [ensureFeatureDefinitions] for the
    names with the origin USER, which never throws.  With nothing
    returned it returns the empty list and links nothing.  With the
    project in the table it never throws: it returns those definitions;
    afterwards each of them is linked to the project; the links that were
    there stay, in place, and the new ones are links of the project to a
    definition returned that were not there; and no link is doubled when
    none was.  With the project missing and a link to insert, the foreign
    key makes it throw: no link is written, and the definitions created
    stay in the catalog. *)
Theorem ensureProjectFeatures_spec (P : Platform) (projectId : ustring)
  (names : list ustring) (s : ProjectFeatures.Store) :
  exists ds c',
    Features.ensureFeatureDefinitions names (Some Features.USER) None
      (ProjectFeatures.catalog s)
    = (Ok ds, c')
    /\ (ds = [] ->
        ProjectFeatures.ensureProjectFeatures projectId names s
        = (Ok [],
           {| ProjectFeatures.catalog := c';
              ProjectFeatures.projects := ProjectFeatures.projects s;
              ProjectFeatures.projectFeatures :=
                ProjectFeatures.projectFeatures s |}))
    /\ (~ In projectId (ProjectFeatures.projects s) ->
        (exists d, In d ds
                   /\ ~ In (projectId, Features.fd_id d)
                          (ProjectFeatures.projectFeatures s)) ->
        exists e,
          ProjectFeatures.ensureProjectFeatures projectId names s
          = (Throw e,
             {| ProjectFeatures.catalog := c';
                ProjectFeatures.projects := ProjectFeatures.projects s;
                ProjectFeatures.projectFeatures :=
                  ProjectFeatures.projectFeatures s |}))
    /\ (In projectId (ProjectFeatures.projects s) ->
        exists s' added,
          ProjectFeatures.ensureProjectFeatures projectId names s = (Ok ds, s')
          /\ ProjectFeatures.catalog s' = c'
          /\ ProjectFeatures.projects s' = ProjectFeatures.projects s
          /\ ProjectFeatures.projectFeatures s'
             = ProjectFeatures.projectFeatures s ++ added
          /\ (forall l, In l added ->
                (exists d, In d ds /\ l = (projectId, Features.fd_id d))
                /\ ~ In l (ProjectFeatures.projectFeatures s))
          /\ (forall d, In d ds ->
                In (projectId, Features.fd_id d)
                   (ProjectFeatures.projectFeatures s'))
          /\ (NoDup (ProjectFeatures.projectFeatures s) ->
              NoDup (ProjectFeatures.projectFeatures s'))).
Proof.
  assert (list_eq_nil_dec : forall l : list Features.FeatureDefinition,
            {l = []} + {l <> []})
    by (intros [|x l]; [left; reflexivity|right; discriminate]).
  destruct (ensureFeatureDefinitions_steps names (Some Features.USER) None
              (ProjectFeatures.catalog s))
    as (bn & c1 & c' & created & E & (C1 & _) & _ & _ & S2 & _).
  assert (Hid : forall d, In d (map snd bn) ->
                  In (Features.fd_id d)
                     (map Features.fd_id (Features.defs c'))).
  { intros d Hd. rewrite (proj1 (SameRows_ids S2)).
    apply in_map_iff in Hd as ([k' d'] & <- & Hd).
    destruct (C1 k' d' Hd) as [_ Hin]. simpl. apply in_map. exact Hin. }
  remember (map snd bn) as ds eqn:Eds. clear Eds C1 S2.
  exists ds, c'. split; [exact E|].
  assert (RunNe : ds <> [] ->
            ProjectFeatures.ensureProjectFeatures projectId names s
            = (ProjectFeatures.createManyLinks
                 (map (fun def => (projectId, Features.fd_id def)) ds) ;;;
               ret ds)%eff
                {| ProjectFeatures.catalog := c';
                   ProjectFeatures.projects := ProjectFeatures.projects s;
                   ProjectFeatures.projectFeatures :=
                     ProjectFeatures.projectFeatures s |}).
  { intros Hne. unfold ProjectFeatures.ensureProjectFeatures.
    erewrite bind_Ok;
      [|unfold ProjectFeatures.onCatalog; rewrite E; reflexivity].
    destruct ds; [contradiction|reflexivity]. }
  set (data := map (fun def => (projectId, Features.fd_id def)) ds).
  set (added := ProjectFeatures.newLinks (ProjectFeatures.projectFeatures s)
                  data).
  destruct (newLinks_spec data (ProjectFeatures.projectFeatures s))
    as (A & B & N). fold added in A, B, N.
  assert (Run : ProjectFeatures.ensureProjectFeatures projectId names s
                = match ds with
                  | [] => ret []
                  | _ => (ProjectFeatures.createManyLinks data ;;; ret ds)%eff
                  end
                    {| ProjectFeatures.catalog := c';
                       ProjectFeatures.projects := ProjectFeatures.projects s;
                       ProjectFeatures.projectFeatures :=
                         ProjectFeatures.projectFeatures s |}).
  { unfold ProjectFeatures.ensureProjectFeatures.
    erewrite bind_Ok;
      [|unfold ProjectFeatures.onCatalog; rewrite E; reflexivity].
    reflexivity. }
  split; [|split].
  - intros ->. rewrite Run. reflexivity.
  - intros Hp (d & Hd & Hl).
    assert (Hne : ds <> []) by (intros ->; destruct Hd).
    rewrite (RunNe Hne).
    assert (Hin : In (projectId, Features.fd_id d) added).
    { assert (Hdata : In (projectId, Features.fd_id d) data)
        by (unfold data;
            apply (in_map (fun def => (projectId, Features.fd_id def)));
            exact Hd).
      apply B in Hdata. apply in_app_or in Hdata as [H|H];
        [contradiction|exact H]. }
    exists (lit "Foreign key constraint failed").
    unfold bind, ProjectFeatures.createManyLinks.
    cbn [ProjectFeatures.catalog ProjectFeatures.projects
         ProjectFeatures.projectFeatures].
    fold data. fold added.
    replace (forallb _ added) with false; [reflexivity|].
    symmetry. apply not_true_is_false. intros F.
    rewrite forallb_forall in F. specialize (F _ Hin). cbn [fst snd] in F.
    apply andb_true_iff in F as [F _].
    apply (proj1 (mem_In _ _)) in F. contradiction.
  - intros Hp.
    assert (K : forallb
                  (fun l => (mem (fst l) (ProjectFeatures.projects s)
                             && mem (snd l)
                                  (map Features.fd_id (Features.defs c')))%bool)
                  added = true).
    { apply forallb_forall. intros l Hl. destruct (A l Hl) as [Hl' _].
      unfold data in Hl'. apply in_map_iff in Hl' as (d & <- & Hd).
      cbn [fst snd]. apply andb_true_iff.
      split; apply (proj2 (mem_In _ _)); [exact Hp|apply Hid; exact Hd]. }
    destruct (list_eq_nil_dec ds) as [Ed|Hne].
    + subst ds. exists {| ProjectFeatures.catalog := c';
                ProjectFeatures.projects := ProjectFeatures.projects s;
                ProjectFeatures.projectFeatures :=
                  ProjectFeatures.projectFeatures s |}, [].
      rewrite Run.
      cbn [ProjectFeatures.catalog ProjectFeatures.projects
           ProjectFeatures.projectFeatures].
      rewrite app_nil_r. split; [reflexivity|]. split; [reflexivity|].
      split; [reflexivity|]. split; [reflexivity|].
      split; [intros l []|]. split; [intros d []|auto].
    + exists {| ProjectFeatures.catalog := c';
                ProjectFeatures.projects := ProjectFeatures.projects s;
                ProjectFeatures.projectFeatures :=
                  ProjectFeatures.projectFeatures s ++ added |}, added.
      cbn [ProjectFeatures.catalog ProjectFeatures.projects
           ProjectFeatures.projectFeatures].
      split.
      { rewrite (RunNe Hne). unfold bind, ProjectFeatures.createManyLinks.
        cbn [ProjectFeatures.catalog ProjectFeatures.projects
             ProjectFeatures.projectFeatures].
        fold data. fold added. rewrite K. reflexivity. }
      split; [reflexivity|]. split; [reflexivity|]. split; [reflexivity|].
      split; [|split; [|exact N]].
      * intros l Hl. destruct (A l Hl) as [Hl' Hn]. split; [|exact Hn].
        unfold data in Hl'. apply in_map_iff in Hl' as (d & <- & Hd). eauto.
      * intros d Hd. apply B. unfold data.
        apply (in_map (fun def => (projectId, Features.fd_id def))). exact Hd.
Qed.

Module LinkExample.
Import Features ProjectFeatures.

(** A store with the project [proj_1] and nothing else. *)
Definition store : Store :=
  {| catalog := {| defs := []; nextDefId := 0 |};
     projects := [lit "proj_1"]; projectFeatures := [] |}.

End LinkExample.

(** With the project in the table the two features are created and
    linked; for a project that is not there the call throws after it has
    created them, and links nothing. *)
Example ensureProjectFeatures_links :
  (exists ds s',
     @ProjectFeatures.ensureProjectFeatures Latin1.platform (lit "proj_1")
       [lit "SSO"; lit "Audit Logs"] LinkExample.store
     = (Ok ds, s')
     /\ length ds = 2
     /\ ProjectFeatures.projectFeatures s'
        = map (fun d => (lit "proj_1", Features.fd_id d)) ds)
  /\ (exists e s',
        @ProjectFeatures.ensureProjectFeatures Latin1.platform (lit "proj_2")
          [lit "SSO"; lit "Audit Logs"] LinkExample.store
        = (Throw e, s')
        /\ length (Features.defs (ProjectFeatures.catalog s')) = 2
        /\ ProjectFeatures.projectFeatures s' = []).
Proof.
  split; do 2 eexists; (split; [vm_compute; reflexivity|]);
    split; vm_compute; reflexivity.
Qed.

(* ================================================================== *)
(** * Aliases written by [ensureFeatureDefinitions] *)
(* ================================================================== *)

Lemma insertSorted_In x l y : In y (insertSorted x l) <-> y = x \/ In y l.
Proof.
  induction l as [|z r IH]; simpl; [intuition auto|].
  destruct (uleb x z); simpl; [intuition auto|]. rewrite IH. intuition auto.
Qed.

Lemma sort_In l y : In y (sort l) <-> In y l.
Proof.
  induction l as [|x r IH]; simpl; [tauto|].
  rewrite insertSorted_In, IH. intuition auto.
Qed.

Lemma list_ueqb_eq a : forall b, list_ueqb a b = true -> a = b.
Proof.
  induction a as [|x a IH]; intros [|y b]; simpl; try discriminate; auto.
  intros H. apply andb_true_iff in H as [H1 H2]. apply ueqb_eq in H1.
  subst y. f_equal. auto.
Qed.

Lemma sort_differs a b x :
  In x a -> ~ In x b -> list_ueqb (sort a) (sort b) = false.
Proof.
  intros Ha Hb. destruct (list_ueqb (sort a) (sort b)) eqn:E; [|reflexivity].
  apply list_ueqb_eq in E. exfalso. apply Hb. apply sort_In. rewrite <- E.
  apply sort_In. exact Ha.
Qed.

(** The alias set computed for a variant [o] of the definition [d] whose
    canonical name is the name of [d]. *)
Lemma aliasUpdateFor_variant d o k acc :
  Features.fd_name d <> [] -> o <> [] -> o <> Features.fd_name d ->
  ~ In o (Features.fd_aliases d) ->
  Features.aliasUpdateFor d
    {| Features.original := o; Features.e_normalized := k;
       Features.canonical := Features.fd_name d |} acc
  = map_set (Features.fd_id d) (uniq (Features.fd_aliases d) ++ [o]) acc.
Proof.
  intros Hn Ho Hne Ha. unfold Features.aliasUpdateFor.
  cbn [Features.canonical Features.original].
  assert (Ec : Features.orElse (Features.fd_name d) o = Features.fd_name d).
  { unfold Features.orElse. destruct (Features.fd_name d); congruence. }
  rewrite Ec, ueqb_refl. cbn [negb andb].
  rewrite (proj2 (ueqb_neq o []) Ho), (proj2 (ueqb_neq o _) Hne).
  assert (Hu : mem o (uniq (Features.fd_aliases d)) = false).
  { apply mem_not_In. intros H. apply Ha. apply uniq_In. exact H. }
  rewrite Hu. cbn [negb andb].
  rewrite (@sort_differs _ (Features.fd_aliases d) o); [reflexivity| |exact Ha].
  apply in_or_app. simpl. auto.
Qed.

(** X29.  Two new variants of one definition in one call: the alias set of the
    second is computed from the aliases as they were read, not from the
    first one's set, and replaces it.  So only the variant named last is
    stored, and the definition returned has the aliases it had before the
    call. *)
Theorem ensureFeatureDefinitions_last_variant (P : Platform)
  (d : Features.FeatureDefinition) (n : nat) (o1 o2 : ustring)
  (origin : option Features.FeatureOrigin) (cat : option ustring)
  (Ht1 : trim o1 = o1) (Ht2 : trim o2 = o2)
  (Ho1 : o1 <> []) (Ho2 : o2 <> [])
  (Hk1 : normalizeFeature o1 = Features.fd_normalized d)
  (Hk2 : normalizeFeature o2 = Features.fd_normalized d)
  (Hc : canonicalFeatureName o1 = Features.fd_name d)
  (Hn : Features.fd_name d <> [])
  (Hne1 : o1 <> Features.fd_name d) (Hne2 : o2 <> Features.fd_name d)
  (Ha1 : ~ In o1 (Features.fd_aliases d))
  (Ha2 : ~ In o2 (Features.fd_aliases d)) :
  Features.ensureFeatureDefinitions [o1; o2] origin cat
    {| Features.defs := [d]; Features.nextDefId := n |}
  = (Ok [d],
     {| Features.defs :=
          [Features.setAliases (uniq (Features.fd_aliases d) ++ [o2]) d];
        Features.nextDefId := n |})
  /\ (o1 <> o2 -> ~ In o1 (uniq (Features.fd_aliases d) ++ [o2])).
Proof.
  split.
  - assert (Hc2 : canonicalFeatureName o2 = Features.fd_name d).
    { rewrite <- Hc. unfold canonicalFeatureName. rewrite Hk1, Hk2.
      reflexivity. }
    unfold Features.ensureFeatureDefinitions. cbn [map filter].
    rewrite Ht1, Ht2, (proj2 (ueqb_neq o1 []) Ho1), (proj2 (ueqb_neq o2 []) Ho2).
    cbn [negb map]. unfold Features.entryOf. rewrite Hk1, Hk2, Hc, Hc2.
    cbn [Features.e_normalized map]. set (k := Features.fd_normalized d).
    assert (Eu : uniq [k; k] = [k]).
    { unfold uniq. cbn [uniqFrom mem existsb]. rewrite ueqb_refl. reflexivity. }
    rewrite Eu. unfold Features.findManyByNormalized.
    erewrite bind_Ok; [|reflexivity].
    cbn [Features.defs filter mem existsb]. fold k. rewrite ueqb_refl.
    cbn [orb]. unfold Features.byNormalizedOf. cbn [fold_left map_set].
    fold k.
    cbn [Features.createMissing Features.e_normalized]. unfold map_has.
    cbn [map_get]. rewrite ueqb_refl.
    erewrite bind_Ok; [|reflexivity].
    unfold Features.collectAliasUpdates. cbn [fold_left Features.e_normalized map_get].
    rewrite ueqb_refl.
    rewrite (aliasUpdateFor_variant d k [] Hn Ho1 Hne1 Ha1).
    rewrite (aliasUpdateFor_variant d k _ Hn Ho2 Hne2 Ha2).
    cbn [map_set]. rewrite ueqb_refl. cbn [forEach fst snd].
    unfold Features.updateAliases, bind.
    cbn [Features.defs existsb map]. rewrite ueqb_refl. cbn [orb].
    reflexivity.
  - intros Hd Hin. apply in_app_iff in Hin as [Hin|[E|[]]].
    + apply Ha1. apply uniq_In. exact Hin.
    + apply Hd. symmetry. exact E.
Qed.
Module AliasExample.
Import Features.

Definition sso : FeatureDefinition :=
  {| fd_id := lit "fd_0"; fd_name := lit "Single Sign On";
     fd_normalized := lit "single sign on"; fd_description := None;
     fd_category := None; fd_origin := USER; fd_aliases := [] |}.

Definition catalog : Catalog := {| defs := [sso]; nextDefId := 1 |}.

End AliasExample.

Lemma ensureFeatureDefinitions_last_variant_witness :
  @Features.ensureFeatureDefinitions Latin1.platform
    [lit "single sign-on"; lit "SINGLE SIGN ON"] None None AliasExample.catalog
  = (Ok [AliasExample.sso],
     {| Features.defs :=
          [Features.setAliases [lit "SINGLE SIGN ON"] AliasExample.sso];
        Features.nextDefId := 1 |})
  /\ (lit "single sign-on" <> lit "SINGLE SIGN ON" ->
      ~ In (lit "single sign-on") [lit "SINGLE SIGN ON"]).
Proof.
  apply (@ensureFeatureDefinitions_last_variant Latin1.platform
           AliasExample.sso 1 (lit "single sign-on") (lit "SINGLE SIGN ON")
           None None);
    try (vm_compute; reflexivity); try (vm_compute; discriminate);
    vm_compute; intros [].
Defined.

(* ================================================================== *)
(** * The settings *)
(* ================================================================== *)

Module Config.

Section WithNumber.
(** [Number(...)] is kept as it is given: the JavaScript numbers and the
    conversion of a string or of an integer literal to one. *)
Variable Num : Type.
Variable numberOfString : ustring -> Num.
Variable numberOfNat : nat -> Num.
(** [process.env] *)
Variable env : ustring -> option ustring.

(** [Settings]; an absent field ([null] or [undefined]) is [None]. *)
Record Settings := {
  searchProvider : option ustring;
  tavilyKey : option ustring;
  serpapiKey : option ustring;
  notionToken : option ustring;
  notionParentPageId : option ustring;
  stalenessDays : Num;
  aiProvider : option ustring;
  openaiApiKey : option ustring;
  openaiModel : option ustring;
  geminiApiKey : option ustring;
  geminiModel : option ustring;
  anthropicApiKey : option ustring;
  anthropicModel : option ustring
}.

(** The rows of [AppSetting], the module variable [cache] and the
    clock. *)
Record ConfigState := {
  appSetting : list (ustring * ustring);
  cache : option (Settings * Z);
  clock : Z
}.

Definition TTL_MS : Z := 60000.

(** [new Map(rows.map(r => [r.key, r.value]))] *)
Definition mapOfRows (rows : list (ustring * ustring))
  : list (ustring * ustring) :=
  fold_left (fun m r => map_set (fst r) (snd r) m) rows [].

(** [map.get(key) ?? process.env.NAME] *)
Definition pick (m : list (ustring * ustring)) (key envName : string)
  : option ustring :=
  match map_get (lit key) m with
  | Some v => Some v
  | None => env (lit envName)
  end.

Definition readSettings (rows : list (ustring * ustring)) : Settings :=
  let m := mapOfRows rows in
  {| searchProvider := pick m "searchProvider" "SEARCH_PROVIDER";
     tavilyKey := pick m "tavilyKey" "TAVILY_API_KEY";
     serpapiKey := pick m "serpapiKey" "SERPAPI_API_KEY";
     notionToken := pick m "notionToken" "NOTION_TOKEN";
     notionParentPageId := pick m "notionParentPageId" "NOTION_PARENT_PAGE_ID";
     stalenessDays :=
       match pick m "stalenessDays" "STALENESS_DAYS" with
       | Some s => numberOfString s
       | None => numberOfNat 180
       end;
     aiProvider := pick m "aiProvider" "AI_PROVIDER";
     openaiApiKey := pick m "openaiApiKey" "OPENAI_API_KEY";
     openaiModel := pick m "openaiModel" "OPENAI_MODEL";
     geminiApiKey := pick m "geminiApiKey" "GEMINI_API_KEY";
     geminiModel := pick m "geminiModel" "GEMINI_MODEL";
     anthropicApiKey := pick m "anthropicApiKey" "ANTHROPIC_API_KEY";
     anthropicModel := pick m "anthropicModel" "ANTHROPIC_MODEL" |}.

Definition loadSettings (s : ConfigState) : Settings * ConfigState :=
  let reload :=
    let data := readSettings (appSetting s) in
    (data, {| appSetting := appSetting s; cache := Some (data, clock s);
              clock := clock s |}) in
  match cache s with
  | Some (data, ts) =>
      if Z.ltb (clock s - ts) TTL_MS then (data, s) else reload
  | None => reload
  end.

(** A value of a [Partial<Settings>]. *)
Inductive SettingValue :=
| VString (v : ustring)
| VNumber (n : nat)
| VNull
| VUndefined.

(** [String(val)] *)
Definition stringOf (val : SettingValue) : ustring :=
  match val with
  | VString v => v
  | VNumber n => ofNat n
  | VNull => lit "null"
  | VUndefined => lit "undefined"
  end.

Definition isDefined (val : SettingValue) : bool :=
  match val with VUndefined => false | _ => true end.

(** [setSettings(partial)], [partial] as [Object.entries] lists it. *)
Definition setSettings (partial : list (ustring * SettingValue))
  (s : ConfigState) : ConfigState :=
  let entries := filter (fun e => isDefined (snd e)) partial in
  {| appSetting :=
       fold_left (fun rows e => map_set (fst e) (stringOf (snd e)) rows)
                 entries (appSetting s);
     cache := None;
     clock := clock s |}.

(** The settings that are strings, by key. *)
Definition stringSettings : list (string * (Settings -> option ustring)) :=
  [ ("searchProvider", searchProvider); ("tavilyKey", tavilyKey);
    ("serpapiKey", serpapiKey); ("notionToken", notionToken);
    ("notionParentPageId", notionParentPageId); ("aiProvider", aiProvider);
    ("openaiApiKey", openaiApiKey); ("openaiModel", openaiModel);
    ("geminiApiKey", geminiApiKey); ("geminiModel", geminiModel);
    ("anthropicApiKey", anthropicApiKey);
    ("anthropicModel", anthropicModel) ]%string.

End WithNumber.
End Config.

Lemma fold_set_NoDup {V W} (f : W -> V) es : forall m : list (ustring * V),
  NoDup (map fst m) ->
  NoDup (map fst (fold_left (fun m e => map_set (fst e) (f (snd e)) m) es m)).
Proof.
  induction es as [|e es IH]; intros m N; simpl; [exact N|].
  apply IH. apply NoDup_map_set. exact N.
Qed.

Lemma fold_set_keep {V W} (f : W -> V) es : forall (m : list (ustring * V)) k x,
  ~ In k (map fst es) -> map_get k m = Some x ->
  map_get k (fold_left (fun m e => map_set (fst e) (f (snd e)) m) es m)
  = Some x.
Proof.
  induction es as [|e es IH]; intros m k x Hn Hm; simpl; [exact Hm|].
  apply IH.
  - intros Hin. apply Hn. simpl. auto.
  - rewrite map_get_set_other; [exact Hm|].
    intros E. apply Hn. simpl. left. symmetry. exact E.
Qed.

Lemma fold_set_get {V W} (f : W -> V) es : forall (m : list (ustring * V)) k v,
  NoDup (map fst es) -> In (k, v) es ->
  map_get k (fold_left (fun m e => map_set (fst e) (f (snd e)) m) es m)
  = Some (f v).
Proof.
  induction es as [|e es IH]; intros m k v N H; [destruct H|].
  simpl in N. inversion N as [|? ? Ne Nes]; subst. simpl.
  destruct H as [->|H].
  - apply fold_set_keep; [exact Ne|]. apply map_get_set_same.
  - apply IH; assumption.
Qed.

Lemma mapOfRows_id rows : NoDup (map fst rows) -> Config.mapOfRows rows = rows.
Proof.
  unfold Config.mapOfRows.
  assert (G : forall m, NoDup (map fst rows) ->
                (forall r, In r rows -> ~ In (fst r) (map fst m)) ->
                fold_left (fun m r => map_set (fst r) (snd r) m) rows m
                = m ++ rows).
  { induction rows as [|[k v] rows IH]; intros m N F; simpl.
    - rewrite app_nil_r. reflexivity.
    - inversion N as [|? ? Nk Nr]; subst.
      rewrite map_set_absent.
      + rewrite IH; [rewrite <- app_assoc; reflexivity|exact Nr|].
        intros r Hr Hin. rewrite map_app, in_app_iff in Hin.
        destruct Hin as [Hin|[E|[]]].
        * apply (F r); simpl; auto.
        * simpl in E. apply Nk. rewrite E. apply in_map. exact Hr.
      + apply map_get_None. apply (F (k, v)). simpl. auto. }
  intros N. apply (G [] N). intros r _ [].
Qed.
(** X30.  Settings written by [setSettings] are what the next [loadSettings]
    returns, whatever the cache held, whatever the environment says and
    however little time has passed: the value of a string setting is
    [String(val)] of the value written, so the text "null" for [null]. *)
Theorem settings_round_trip (Num : Type) (numberOfString : ustring -> Num)
  (numberOfNat : nat -> Num) (env : ustring -> option ustring)
  (partial : list (ustring * Config.SettingValue))
  (s : Config.ConfigState Num) (key : string)
  (get : Config.Settings Num -> option ustring) (val : Config.SettingValue)
  (Hrows : NoDup (map fst (Config.appSetting s)))
  (Hkeys : NoDup (map fst partial))
  (Hget : In (key, get) (Config.stringSettings Num))
  (Hval : In (lit key, val) partial)
  (Hdef : Config.isDefined val = true) :
  let r := Config.loadSettings numberOfString numberOfNat env
             (Config.setSettings partial s) in
  get (fst r) = Some (Config.stringOf val)
  /\ Config.cache (snd r) = Some (fst r, Config.clock s).
Proof.
  intros r. unfold r, Config.loadSettings, Config.setSettings.
  cbn [Config.cache Config.appSetting Config.clock fst snd].
  split; [|reflexivity].
  set (rows := fold_left _ _ _).
  assert (Nr : NoDup (map fst rows)).
  { unfold rows. apply fold_set_NoDup. exact Hrows. }
  assert (G : map_get (lit key) rows = Some (Config.stringOf val)).
  { unfold rows. apply fold_set_get.
    - apply NoDup_map_filter. exact Hkeys.
    - apply filter_In. split; [exact Hval|exact Hdef]. }
  unfold Config.readSettings. rewrite (@mapOfRows_id rows Nr).
  unfold Config.stringSettings in Hget.
  repeat (destruct Hget as [Hget|Hget];
          [injection Hget as <- <-; cbn; unfold Config.pick; rewrite G;
           reflexivity|]).
  destruct Hget.
Qed.

Module ConfigExample.

(** A warm cache and an environment that sets the keys. *)
Definition env (name : ustring) : option ustring := Some (lit "from-env").

Definition cached : Config.Settings nat :=
  Config.readSettings (fun _ => 0) (fun n => n) env [].

Definition state : Config.ConfigState nat :=
  {| Config.appSetting := [(lit "tavilyKey", lit "old")];
     Config.cache := Some (cached, 1000%Z);
     Config.clock := 2000%Z |}.

End ConfigExample.

Lemma settings_round_trip_witness :
  let r := Config.loadSettings (fun _ => 0) (fun n => n) ConfigExample.env
             (Config.setSettings
                [(lit "tavilyKey", Config.VString (lit "tvly-1"));
                 (lit "searchProvider", Config.VNull)]
                ConfigExample.state) in
  Config.tavilyKey (fst r) = Some (lit "tvly-1")
  /\ Config.searchProvider (fst r) = Some (lit "null").
Proof.
  split.
  - apply (@settings_round_trip nat (fun _ => 0) (fun n => n) ConfigExample.env
             [(lit "tavilyKey", Config.VString (lit "tvly-1"));
              (lit "searchProvider", Config.VNull)]
             ConfigExample.state "tavilyKey"%string
             (@Config.tavilyKey nat)
             (Config.VString (lit "tvly-1"))).
    + vm_compute. repeat constructor; simpl; intuition discriminate.
    + vm_compute. repeat constructor; simpl; intuition discriminate.
    + vm_compute. tauto.
    + vm_compute. tauto.
    + reflexivity.
  - vm_compute. reflexivity.
Defined.
